(** * slim_grab: the PR-driven crawler [slim_gh_grabber/slim_scraper.py]

    A shallow embedding of the crawler and of the properties its
    specification states about it.  The older, issue-driven script
    [slim/slim.py] shares the fetcher and the insert statement; what it
    does differently is embedded in [Module Slim].

    Conventions of the embedding.
    - A Python [str] is a Rocq [string], read as a sequence of code points
      below 256.
    - A decoded JSON payload is a [json] value; numbers are integers (no
      field the scripts read is fractional).
    - Effects (HTTP, clock, console, SQLite, progress.json) are threaded
      through a [World]; every effect is appended to its [trace].  A GET
      always gets a reply (transport errors are left out).  The clock is an
      exact rational and moves only when the program sleeps; [time.sleep]
      refuses a negative pause and one too long for the C timestamp it is
      converted to.  Of the store, only an INSERT can fail: connecting,
      committing and closing are taken to succeed.
    - [make_request] loops without bound, so it takes fuel; running out of
      fuel is the outcome [Diverge], never a result. *)

From Stdlib Require Import String Ascii List ZArith QArith Lia Bool Arith.
From Stdlib Require Import DecimalString.
Import ListNotations.
Local Open Scope string_scope.
Local Open Scope list_scope.

Set Warnings "-register-all".

Infix "^^" := String.append (at level 60, right associativity).

(** ** Python values and the built-ins the scripts use *)

Module Py.

Inductive json : Type :=
| JNull
| JBool (b : bool)
| JNum (n : Z)
| JStr (s : string)
| JArr (items : list json)
| JObj (fields : list (string * json)).

Inductive Exn : Type :=
| KeyError (key : string)
| IndexError
| TypeError
| AttributeError
| ValueError
| OverflowError
| JSONDecodeError
| SqliteError (msg : string)
| SystemExit.

(** What running a piece of the program can come to.  [Diverge]: the retry
    loop of the fetcher is still running when the fuel ends.  [Unmodelled]:
    the execution leaves the fragment of Python embedded here (formatting a
    container into a URL, a repository name that is not text, a pattern
    with regex operators other than the dot). *)
Inductive Outcome (A : Type) : Type :=
| Ok (a : A)
| Raise (e : Exn)
| Diverge
| Unmodelled.
Arguments Ok {A} a.
Arguments Raise {A} e.
Arguments Diverge {A}.
Arguments Unmodelled {A}.

Definition obind {A B} (o : Outcome A) (k : A -> Outcome B) : Outcome B :=
  match o with
  | Ok a => k a
  | Raise e => Raise e
  | Diverge => Diverge
  | Unmodelled => Unmodelled
  end.

(** [bool(v)] *)
Definition truthy (v : json) : bool :=
  match v with
  | JNull => false
  | JBool b => b
  | JNum n => negb (n =? 0)%Z
  | JStr s => negb (s =? "")%string
  | JArr [] => false
  | JArr (_ :: _) => true
  | JObj [] => false
  | JObj (_ :: _) => true
  end.

Fixpoint assoc (k : string) (fields : list (string * json)) : option json :=
  match fields with
  | [] => None
  | (k', v) :: rest => if (k' =? k)%string then Some v else assoc k rest
  end.

(** [d.get(k, default)]: only a dict has the method. *)
Definition get (d : json) (k : string) (default : json) : Outcome json :=
  match d with
  | JObj fields =>
      Ok (match assoc k fields with Some v => v | None => default end)
  | _ => Raise AttributeError
  end.

(** [d[k]] with a text key. *)
Definition getitem (d : json) (k : string) : Outcome json :=
  match d with
  | JObj fields =>
      match assoc k fields with Some v => Ok v | None => Raise (KeyError k) end
  | _ => Raise TypeError
  end.

Fixpoint chars (s : string) : list json :=
  match s with
  | EmptyString => []
  | String c s' => JStr (String c EmptyString) :: chars s'
  end.

(** [iter(v)]: the elements a [for] loop or [list.extend] walks through. *)
Definition iter (v : json) : Outcome (list json) :=
  match v with
  | JArr items => Ok items
  | JObj fields => Ok (map (fun kv => JStr (fst kv)) fields)
  | JStr s => Ok (chars s)
  | _ => Raise TypeError
  end.

(** [list(d.keys())] *)
Definition keys (d : json) : Outcome (list json) :=
  match d with
  | JObj fields => Ok (map (fun kv => JStr (fst kv)) fields)
  | _ => Raise AttributeError
  end.

Definition len (v : json) : Outcome Z :=
  match v with
  | JArr items => Ok (Z.of_nat (length items))
  | JObj fields => Ok (Z.of_nat (length fields))
  | JStr s => Ok (Z.of_nat (String.length s))
  | _ => Raise TypeError
  end.

Definition str_of_Z (n : Z) : string := NilZero.string_of_int (Z.to_int n).

(** [str(v)] inside an f-string, for scalars. *)
Definition str (v : json) : Outcome string :=
  match v with
  | JStr s => Ok s
  | JNum n => Ok (str_of_Z n)
  | JBool true => Ok "True"
  | JBool false => Ok "False"
  | JNull => Ok "None"
  | JArr _ | JObj _ => Unmodelled
  end.

(** [needle in hay] on text. *)
Fixpoint contains (needle hay : string) : bool :=
  if prefix needle hay then true
  else match hay with
       | EmptyString => false
       | String _ hay' => contains needle hay'
       end.

(** [s.split(sep)] for a one-character separator. *)
Fixpoint split (sep : ascii) (s : string) : list string :=
  match s with
  | EmptyString => [""]
  | String c s' =>
      if Ascii.eqb c sep then "" :: split sep s'
      else match split sep s' with
           | h :: t => String c h :: t
           | [] => [String c ""]
           end
  end.

(** [s.replace(old, new)] for a non-empty [old]: occurrences are replaced
    from the left and do not overlap; [inside] counts the characters still
    inside the occurrence just replaced. *)
Fixpoint replace_from (old new s : string) (inside : nat) {struct s} : string :=
  match s with
  | EmptyString => ""
  | String c s' =>
      match inside with
      | S n => replace_from old new s' n
      | O =>
          if prefix old s then new ^^ replace_from old new s' (String.length old - 1)
          else String c (replace_from old new s' 0)
      end
  end.

Definition replace (old new s : string) : string := replace_from old new s 0.

(** [v == s] for a text [s] *)
Definition equals_text (v : json) (s : string) : bool :=
  match v with
  | JStr t => (t =? s)%string
  | _ => false
  end.

(** [s in v] for a text [s] *)
Definition text_in (s : string) (v : json) : Outcome bool :=
  match v with
  | JStr t => Ok (contains s t)
  | JArr items => Ok (existsb (fun item => equals_text item s) items)
  | JObj fields => Ok (existsb (fun kv => (fst kv =? s)%string) fields)
  | _ => Raise TypeError
  end.

(** [parts[-k]] for [k >= 1]. *)
Definition index_from_end (parts : list string) (k : nat) : Outcome string :=
  if (k <=? length parts)%nat
  then match nth_error parts (length parts - k) with
       | Some p => Ok p
       | None => Raise IndexError
       end
  else Raise IndexError.

(** [json.dumps] with its defaults: [ensure_ascii], separators [", "] and
    [": "]. *)
Definition hex_digit (n : nat) : ascii :=
  nth n (list_ascii_of_string "0123456789abcdef") "0"%char.

Definition dquote : string := String (ascii_of_nat 34) "".

Definition escape_char (c : ascii) : string :=
  let n := nat_of_ascii c in
  if (n =? 34)%nat then String (ascii_of_nat 92) dquote
  else if (n =? 92)%nat then "\\"
  else if (n =? 10)%nat then "\n"
  else if (n =? 13)%nat then "\r"
  else if (n =? 9)%nat then "\t"
  else if (n =? 8)%nat then "\b"
  else if (n =? 12)%nat then "\f"
  else if ((n <? 32) || (126 <? n))%nat
       then "\u00" ^^ String (hex_digit (n / 16)) (String (hex_digit (n mod 16)) "")
       else String c "".

Fixpoint escape (s : string) : string :=
  match s with
  | EmptyString => ""
  | String c s' => escape_char c ^^ escape s'
  end.

Definition quote (s : string) : string := dquote ^^ escape s ^^ dquote.

Fixpoint join (sep : string) (l : list string) : string :=
  match l with
  | [] => ""
  | [x] => x
  | x :: rest => x ^^ sep ^^ join sep rest
  end.

Fixpoint dumps (v : json) : string :=
  match v with
  | JNull => "null"
  | JBool true => "true"
  | JBool false => "false"
  | JNum n => str_of_Z n
  | JStr s => quote s
  | JArr items => "[" ^^ join ", " (map dumps items) ^^ "]"
  | JObj fields =>
      "{" ^^ join ", " (map (fun kv => quote (fst kv) ^^ ": " ^^ dumps (snd kv)) fields)
          ^^ "}"
  end.

End Py.

(** ** The fragment of Python's [re] that the extractor's patterns use

    Backtracking semantics as in [re]: alternatives in order, [?] and [+]
    greedy, a match is the first one found in that order.  [findall] scans
    from the left and resumes where a match ended.  Matching is with
    [re.IGNORECASE]; on code points below 256 the letters of the patterns
    fold as in ASCII. *)

Module Re.

Definition code (c : ascii) : nat := nat_of_ascii c.

Definition lower (c : ascii) : ascii :=
  if ((65 <=? code c) && (code c <=? 90))%nat then ascii_of_nat (code c + 32) else c.

(** [\s] of a [str] pattern, below code point 256 *)
Definition is_space (c : ascii) : bool :=
  (((9 <=? code c) && (code c <=? 13)) || ((28 <=? code c) && (code c <=? 32))
   || (code c =? 133) || (code c =? 160))%nat.

(** [\d] of a [str] pattern, below code point 256 *)
Definition is_digit (c : ascii) : bool :=
  ((48 <=? code c) && (code c <=? 57))%nat.

(** a literal under [re.IGNORECASE] *)
Definition same_letter (c x : ascii) : bool := Ascii.eqb (lower x) (lower c).

(** [.] without [re.DOTALL] *)
Definition not_newline (x : ascii) : bool := negb (code x =? 10)%nat.

(** [[sd]] under [re.IGNORECASE] *)
Definition s_or_d (x : ascii) : bool := same_letter "s" x || same_letter "d" x.

Inductive regex : Type :=
| Eps
| Chr (p : ascii -> bool)
| Seq (r1 r2 : regex)
| Alt (r1 r2 : regex)
| Opt (r : regex)
| Plus (p : ascii -> bool)
| Group (r : regex).

Fixpoint word (w : string) : regex :=
  match w with
  | EmptyString => Eps
  | String c w' => Seq (Chr (same_letter c)) (word w')
  end.

(** zero or more characters of a class, longest first *)
Fixpoint many {A} (p : ascii -> bool) (s : string) (k : string -> option A) : option A :=
  match s with
  | String c s' =>
      if p c
      then match many p s' k with Some a => Some a | None => k s end
      else k s
  | EmptyString => k s
  end.

(** [rmatch r s cap k]: match [r] at the start of [s], hand the rest of the
    input and the text of the group to [k]; [None] when every way fails. *)
Fixpoint rmatch {A} (r : regex) (s : string) (cap : option string)
         (k : string -> option string -> option A) : option A :=
  match r with
  | Eps => k s cap
  | Chr p =>
      match s with
      | String c s' => if p c then k s' cap else None
      | EmptyString => None
      end
  | Seq r1 r2 => rmatch r1 s cap (fun s' cap' => rmatch r2 s' cap' k)
  | Alt r1 r2 =>
      match rmatch r1 s cap k with
      | Some a => Some a
      | None => rmatch r2 s cap k
      end
  | Opt r1 =>
      match rmatch r1 s cap k with
      | Some a => Some a
      | None => k s cap
      end
  | Plus p =>
      match s with
      | String c s' => if p c then many p s' (fun rest => k rest cap) else None
      | EmptyString => None
      end
  | Group r1 =>
      rmatch r1 s cap
        (fun s' _ => k s' (Some (substring 0 (String.length s - String.length s') s)))
  end.

(** a match at the start of [s]: the group's text and the length matched *)
Definition match_here (r : regex) (s : string) : option (string * nat) :=
  rmatch r s None
    (fun s' cap =>
       Some (match cap with Some g => g | None => "" end,
             String.length s - String.length s')%nat).

(** [re.findall] for a pattern with one group; [skip] counts the characters
    still inside the previous match. *)
Fixpoint findall_from (r : regex) (s : string) (skip : nat) {struct s} : list string :=
  match s with
  | EmptyString => []
  | String _ s' =>
      match skip with
      | S n => findall_from r s' n
      | O =>
          match match_here r s with
          | Some (g, consumed) => g :: findall_from r s' (consumed - 1)
          | None => findall_from r s' 0
          end
      end
  end.

Definition findall (r : regex) (s : string) : list string := findall_from r s 0.

(** [(?:close[sd]?|fix(?:e[sd])?|resolve[sd]?)] *)
Definition keyword : regex :=
  Alt (Seq (word "close") (Opt (Chr s_or_d)))
      (Alt (Seq (word "fix") (Opt (Seq (word "e") (Chr s_or_d))))
           (Seq (word "resolve") (Opt (Chr s_or_d)))).

(** [\s+#(\d+)] after what stands between the keyword and the [#] *)
Definition reference (scope : regex) : regex :=
  Seq keyword (Seq (Plus is_space) (Seq scope (Seq (word "#") (Group (Plus is_digit))))).

(** characters GitHub allows in an owner or repository name, the dot aside *)
Definition name_char (c : ascii) : bool :=
  (((48 <=? code c) && (code c <=? 57)) || ((65 <=? code c) && (code c <=? 90))
   || ((97 <=? code c) && (code c <=? 122)) || (code c =? 45) || (code c =? 95))%nat.

Definition backslash : ascii := ascii_of_nat 92.

(** [repo_name.replace('/', '\/')] *)
Fixpoint escape_slashes (name : string) : string :=
  match name with
  | EmptyString => ""
  | String c rest =>
      if Ascii.eqb c "/" then String backslash (String "/" (escape_slashes rest))
      else String c (escape_slashes rest)
  end.

(** The pattern text of the repository name, read as [re] reads it: an
    escaped slash is a slash, a dot is any character but a newline, a name
    character is itself.  Other characters are not covered. *)
Fixpoint parse_name (text : string) : option regex :=
  match text with
  | EmptyString => Some Eps
  | String c rest =>
      if Ascii.eqb c backslash then
        match rest with
        | String c2 rest2 =>
            if Ascii.eqb c2 "/"
            then option_map (Seq (Chr (same_letter "/"))) (parse_name rest2)
            else None
        | EmptyString => None
        end
      else if Ascii.eqb c "." then option_map (Seq (Chr not_newline)) (parse_name rest)
      else if name_char c then option_map (Seq (Chr (same_letter c))) (parse_name rest)
      else None
  end.

End Re.

(** ** The world the crawler runs in *)

Module World.

Import Py.

(** A reply of the API.  [x_ratelimit_reset]: [None] when the header
    [X-RateLimit-Reset] is absent, [Some None] when [int] rejects its value,
    [Some (Some t)] when [int] reads [t].  [payload]: the body decoded as
    JSON, [None] when it does not decode. *)
Record Response : Type := mkResponse {
  status_code : Z;
  x_ratelimit_reset : option (option Z);
  payload : option json
}.

(** A row of the table [fixed_issues]. *)
Record Row : Type := mkRow {
  issue_url : string;
  repo_name : string;
  pull_request_url : option string;
  languages : string;
  before_code_url : option string;
  after_code_url : option string;
  affected_files : string
}.

(** The lines slim_scraper.py prints, one constructor per [print], with
    the values it interpolates (of [check_db], the row count only). *)
Inductive Msg : Type :=
| RateLimited (sleep_time : Q)
| TempError (status : Z)
| RequestFailed (status : Z) (url : string)
| ReposOnPage (found page pages : Z)
| FetchReposFailed (page : Z)
| FetchingPRs (repo : string)
| PageFound (page found : Z)
| FetchPRsFailed (repo : string) (page : Z)
| TotalMerged (total : Z) (repo : string)
| ProcessingRepo (repo : string)
| LanguagesUsed (repo langs : string)
| NoPRs (repo : string)
| ProcessingPRs (count : Z) (repo : string)
| PRLinks (number : json) (count : Z)
| DbError (msg url : string)
| Committed (entries : Z) (repo : string)
| EntriesAdded (entries : Z) (repo : string)
| Starting
| ReposFound (count : Z)
| NoReposFound
| PreviouslyProcessed (count : Z)
| WillProcess (count : Z)
| ProgressSaved (done all : Z)
| PairsAdded (total : Z)
| DbContains (rows : Z)
| Done.

Inductive ExecResult : Type :=
| Inserted
| Ignored
| Failed (msg : string).

Inductive Event : Type :=
| Get (url : string) (reply : Response)
| Sleep (seconds : Q)
| Print (m : Msg)
| Execute (r : Row) (res : ExecResult)
| Commit
| SaveProgress (names : list string).

(** [trace]: every effect so far, oldest first.  [table]: the rows the open
    connection sees; [durable]: the committed ones.  [progress_json]: the
    list in progress.json, [None] when the file is missing or does not
    decode. *)
Record World : Type := mkWorld {
  trace : list Event;
  now : Q;
  requests : nat;
  statements : nat;
  table : list Row;
  durable : list Row;
  progress_json : option (list string)
}.

Definition M (A : Type) : Type := World -> Outcome A * World.

Definition ret {A} (a : A) : M A := fun w => (Ok a, w).

Definition bind {A B} (m : M A) (k : A -> M B) : M B :=
  fun w =>
    match m w with
    | (Ok a, w') => k a w'
    | (Raise e, w') => (Raise e, w')
    | (Diverge, w') => (Diverge, w')
    | (Unmodelled, w') => (Unmodelled, w')
    end.

Definition lift {A} (o : Outcome A) : M A := fun w => (o, w).

Definition raise {A} (e : Exn) : M A := lift (Raise e).

Definition emit (e : Event) : M unit :=
  fun w => (Ok tt, mkWorld (trace w ++ [e]) (now w) (requests w) (statements w)
                           (table w) (durable w) (progress_json w)).

Definition print (m : Msg) : M unit := emit (Print m).

(** [time.time()] *)
Definition time_time : M Q := fun w => (Ok (now w), w).

(** the longest pause [time.sleep] takes: what a C [_PyTime_t] holds,
    2^63 - 1 nanoseconds *)
Definition sleep_max : Q := 9223372036854775807 # 1000000000.

(** [time.sleep(d)]: the call goes to the trace; a negative [d] is refused
    with [ValueError], one beyond [sleep_max] with [OverflowError], and the
    clock moves by [d] otherwise *)
Definition time_sleep (d : Q) : M unit :=
  fun w =>
    if negb (Qle_bool 0 d) then
      (Raise ValueError,
       mkWorld (trace w ++ [Sleep d]) (now w) (requests w) (statements w)
               (table w) (durable w) (progress_json w))
    else if negb (Qle_bool d sleep_max) then
      (Raise OverflowError,
       mkWorld (trace w ++ [Sleep d]) (now w) (requests w) (statements w)
               (table w) (durable w) (progress_json w))
    else
      (Ok tt,
       mkWorld (trace w ++ [Sleep d]) (now w + d)%Q (requests w) (statements w)
               (table w) (durable w) (progress_json w)).

(** [response.json()] *)
Definition response_json (r : Response) : M json :=
  match payload r with
  | Some j => ret j
  | None => raise JSONDecodeError
  end.

Fixpoint find_row (url : string) (rows : list Row) : option Row :=
  match rows with
  | [] => None
  | r :: rest => if (issue_url r =? url)%string then Some r else find_row url rest
  end.

(** [INSERT OR IGNORE INTO fixed_issues VALUES (...)] on a table whose
    primary key is [issue_url]; the second component is [cursor.rowcount]. *)
Definition insert_or_ignore (r : Row) (rows : list Row) : list Row * Z :=
  match find_row (issue_url r) rows with
  | Some _ => (rows, 0%Z)
  | None => (rows ++ [r], 1%Z)
  end.

(** [conn.commit()], taken to succeed *)
Definition conn_commit : M unit :=
  fun w => (Ok tt, mkWorld (trace w ++ [Commit]) (now w) (requests w) (statements w)
                           (table w) (table w) (progress_json w)).

(** [sqlite3.connect(...)], taken to succeed: a new connection sees the
    committed rows. *)
Definition sqlite_connect : M unit :=
  fun w => (Ok tt, mkWorld (trace w) (now w) (requests w) (statements w)
                           (durable w) (durable w) (progress_json w)).

(** [conn.close()]: what was not committed is rolled back. *)
Definition conn_close : M unit := sqlite_connect.

(** [except sqlite3.Error as e] around [body] *)
Definition try_sqlite {A} (body : M A) (handler : string -> M A) : M A :=
  fun w =>
    match body w with
    | (Raise (SqliteError msg), w') => handler msg w'
    | other => other
    end.

(** [save_progress]: progress.json is overwritten with the list. *)
Definition save_progress (processed_repo_names : list string) : M unit :=
  fun w => (Ok tt, mkWorld (trace w ++ [SaveProgress processed_repo_names]) (now w)
                           (requests w) (statements w) (table w) (durable w)
                           (Some processed_repo_names)).

(** [load_progress] *)
Definition load_progress : M (list string) :=
  fun w => (Ok (match progress_json w with Some names => names | None => [] end), w).

Module Notations.
  Notation "x <- m ;; k" := (bind m (fun x => k))
    (at level 61, m at next level, right associativity).
  Notation "' p <- m ;; k" := (bind m (fun p => k))
    (at level 61, p pattern, m at next level, right associativity).
  Notation "m ;; k" := (bind m (fun _ => k))
    (at level 61, right associativity).
End Notations.

Section Environment.

(** [server n url]: the reply to the GET of [url] issued as the [n]-th
    request of the process.  [db_fault n]: the message of the
    [sqlite3.Error] that the [n]-th INSERT raises, if it raises one. *)
Variable server : nat -> string -> Response.
Variable db_fault : nat -> option string.

(** [requests.get(url, headers=HEADERS)], the request getting a reply *)
Definition requests_get (url : string) : M Response :=
  fun w =>
    let reply := server (requests w) url in
    (Ok reply, mkWorld (trace w ++ [Get url reply]) (now w) (S (requests w)) (statements w)
                       (table w) (durable w) (progress_json w)).

(** [cursor.execute("INSERT OR IGNORE ...", row)], giving [cursor.rowcount] *)
Definition cursor_execute (r : Row) : M Z :=
  fun w =>
    match db_fault (statements w) with
    | Some msg =>
        (Raise (SqliteError msg),
         mkWorld (trace w ++ [Execute r (Failed msg)]) (now w) (requests w)
                 (S (statements w)) (table w) (durable w) (progress_json w))
    | None =>
        let (rows, rowcount) := insert_or_ignore r (table w) in
        (Ok rowcount,
         mkWorld (trace w ++ [Execute r (if (rowcount >? 0)%Z then Inserted else Ignored)])
                 (now w) (requests w) (S (statements w)) rows (durable w) (progress_json w))
    end.

End Environment.

End World.

(** ** slim_gh_grabber/slim_scraper.py *)

Module Scraper.

Import Py World World.Notations.

(** [max(0, x)] *)
Definition max0 (x : Q) : Q := if Qle_bool x 0 then 0%Q else x.

Definition retry_status (status : Z) : bool :=
  ((status =? 502) || (status =? 503) || (status =? 504))%Z.

Definition header_present (h : option (option Z)) : bool :=
  match h with Some _ => true | None => false end.

(** [int(response.headers["X-RateLimit-Reset"])] *)
Definition int_header (h : option (option Z)) : Outcome Z :=
  match h with
  | Some (Some t) => Ok t
  | Some None => Raise ValueError
  | None => Raise (KeyError "X-RateLimit-Reset")
  end.

(** a value that has to be text for the embedding to follow it *)
Definition text (v : json) : Outcome string :=
  match v with
  | JStr s => Ok s
  | _ => Unmodelled
  end.

Definition text_or_none (v : json) : Outcome (option string) :=
  match v with
  | JStr s => Ok (Some s)
  | JNull => Ok None
  | _ => Unmodelled
  end.

Fixpoint traverse {A B} (f : A -> Outcome B) (l : list A) : Outcome (list B) :=
  match l with
  | [] => Ok []
  | a :: rest => obind (f a) (fun b => obind (traverse f rest) (fun bs => Ok (b :: bs)))
  end.

(** [range(1, pages + 1)] *)
Definition range1 (pages : Z) : list Z := map Z.of_nat (seq 1 (Z.to_nat pages)).

Definition search_url (query : string) (per_page page : Z) : string :=
  "https://api.github.com/search/repositories?q=" ^^ query
  ^^ "+license:mit&sort=forks&order=desc&per_page=" ^^ str_of_Z per_page
  ^^ "&page=" ^^ str_of_Z page.

Definition languages_url (repo_name : string) : string :=
  "https://api.github.com/repos/" ^^ repo_name ^^ "/languages".

Definition pulls_url (repo_name : string) (per_page page : Z) : string :=
  "https://api.github.com/repos/" ^^ repo_name
  ^^ "/pulls?state=closed&sort=updated&direction=desc&per_page=" ^^ str_of_Z per_page
  ^^ "&page=" ^^ str_of_Z page.

(** the html-to-API URL switch of [get_affected_files] *)
Definition files_url_of (pr_url : string) : Outcome string :=
  if contains "github.com" pr_url then
    let parts := split "/" pr_url in
    obind (index_from_end parts 4) (fun owner =>
    obind (index_from_end parts 3) (fun repo =>
    obind (index_from_end parts 1) (fun pr_number =>
    Ok ("https://api.github.com/repos/" ^^ owner ^^ "/" ^^ repo ^^ "/pulls/"
        ^^ pr_number ^^ "/files"))))
  else Ok (pr_url ^^ "/files").

Definition issue_url_of (repo_name issue_num : string) : string :=
  "https://github.com/" ^^ repo_name ^^ "/issues/" ^^ issue_num.

(** [f"https://github.com/{repo_name}/commit/{sha}" if sha else None] *)
Definition commit_url (repo_name : string) (sha : json) : Outcome (option string) :=
  if truthy sha
  then obind (str sha) (fun s => Ok (Some ("https://github.com/" ^^ repo_name ^^ "/commit/" ^^ s)))
  else Ok None.

(** [pr.get(side, {}).get("sha")] *)
Definition sha_of (pr : json) (side : string) : Outcome json :=
  obind (get pr side (JObj [])) (fun ref => get ref "sha" JNull).

(** the two patterns of [get_issues_from_pr] *)
Definition patterns (repo_name : string) : option (list Re.regex) :=
  option_map (fun scope => [Re.reference Re.Eps; Re.reference scope])
             (Re.parse_name (Re.escape_slashes repo_name)).

Definition get_issues_from_pr (pr_data : json) (repo_name : string) : Outcome (list string) :=
  obind (get pr_data "body" (JStr "")) (fun body =>
  if negb (truthy body) then Ok []
  else match patterns repo_name with
       | None => Unmodelled
       | Some pats =>
           match body with
           | JStr b =>
               Ok (flat_map (fun pattern =>
                               map (issue_url_of repo_name) (Re.findall pattern b)) pats)
           | _ => Raise TypeError
           end
       end).

(** [[pr for pr in data if pr.get("merged_at")]] *)
Fixpoint merged_only (data : list json) : Outcome (list json) :=
  match data with
  | [] => Ok []
  | pr :: rest =>
      obind (get pr "merged_at" JNull) (fun merged_at =>
      obind (merged_only rest) (fun tail =>
      Ok (if truthy merged_at then pr :: tail else tail)))
  end.

(** [[repo for repo in repos if repo["full_name"] not in processed_repo_names]] *)
Fixpoint not_processed (repos : list json) (processed_repo_names : list string)
  : Outcome (list json) :=
  match repos with
  | [] => Ok []
  | repo :: rest =>
      obind (obind (getitem repo "full_name") text) (fun name =>
      obind (not_processed rest processed_repo_names) (fun tail =>
      Ok (if existsb (String.eqb name) processed_repo_names then tail else repo :: tail)))
  end.

Section Environment.

Variable server : nat -> string -> Response.
Variable db_fault : nat -> option string.

Fixpoint make_request (fuel : nat) (url : string) : M (option Response) :=
  match fuel with
  | O => lift Diverge
  | S fuel' =>
      response <- requests_get server url ;;
      if (status_code response =? 200)%Z then ret (Some response)
      else if ((status_code response =? 403)%Z
               && header_present (x_ratelimit_reset response))%bool then
        reset_time <- lift (int_header (x_ratelimit_reset response)) ;;
        t <- time_time ;;
        let sleep_time := max0 (inject_Z reset_time - t)%Q in
        print (RateLimited sleep_time) ;;
        time_sleep sleep_time ;;
        make_request fuel' url
      else if retry_status (status_code response) then
        print (TempError (status_code response)) ;;
        time_sleep 5%Q ;;
        make_request fuel' url
      else
        print (RequestFailed (status_code response) url) ;;
        ret None
  end.

(** the [for page in range(1, pages + 1)] loop of [get_mit_repos] *)
Fixpoint get_mit_repos_loop (fuel : nat) (query : string) (per_page pages : Z)
         (todo : list Z) (repos : list json) : M (list json) :=
  match todo with
  | [] => ret repos
  | page :: rest =>
      response <- make_request fuel (search_url query per_page page) ;;
      match response with
      | Some r =>
          data <- response_json r ;;
          items <- lift (get data "items" (JArr [])) ;;
          more <- lift (iter items) ;;
          found <- lift (len items) ;;
          print (ReposOnPage found page pages) ;;
          get_mit_repos_loop fuel query per_page pages rest (repos ++ more)
      | None =>
          print (FetchReposFailed page) ;;
          ret repos
      end
  end.

Definition get_mit_repos (fuel : nat) (query : string) (per_page pages : Z) : M (list json) :=
  get_mit_repos_loop fuel query per_page pages (range1 pages) [].

Definition get_languages (fuel : nat) (repo_name : string) : M string :=
  response <- make_request fuel (languages_url repo_name) ;;
  match response with
  | Some r =>
      data <- response_json r ;;
      names <- lift (keys data) ;;
      ret (dumps (JArr names))
  | None => ret "[]"
  end.

Definition get_affected_files (fuel : nat) (pr_url : option string) : M string :=
  match pr_url with
  | None => ret "[]"
  | Some u =>
      if (u =? "")%string then ret "[]"
      else
        files_url <- lift (files_url_of u) ;;
        response <- make_request fuel files_url ;;
        match response with
        | Some r =>
            data <- response_json r ;;
            if truthy data then
              files <- lift (iter data) ;;
              names <- lift (traverse (fun file => getitem file "filename") files) ;;
              ret (dumps (JArr names))
            else ret "[]"
        | None => ret "[]"
        end
  end.

(** the page loop of [get_merged_prs] *)
Fixpoint get_merged_prs_loop (fuel : nat) (repo_name : string) (per_page : Z)
         (todo : list Z) (prs : list json) (total_prs : Z) : M (list json * Z) :=
  match todo with
  | [] => ret (prs, total_prs)
  | page :: rest =>
      response <- make_request fuel (pulls_url repo_name per_page page) ;;
      match response with
      | Some r =>
          data <- response_json r ;;
          elems <- lift (iter data) ;;
          merged_prs <- lift (merged_only elems) ;;
          print (PageFound page (Z.of_nat (length merged_prs))) ;;
          time_sleep 1%Q ;;
          get_merged_prs_loop fuel repo_name per_page rest (prs ++ merged_prs)
                              (total_prs + Z.of_nat (length merged_prs))%Z
      | None =>
          print (FetchPRsFailed repo_name page) ;;
          ret (prs, total_prs)
      end
  end.

Definition get_merged_prs (fuel : nat) (repo_name : string) (per_page pages : Z)
  : M (list json) :=
  print (FetchingPRs repo_name) ;;
  ' (prs, total_prs) <- get_merged_prs_loop fuel repo_name per_page (range1 pages) [] 0%Z ;;
  print (TotalMerged total_prs repo_name) ;;
  ret prs.

(** the [for issue_url in linked_issues] loop; the other arguments are the
    values bound to the statement besides [issue_url] *)
Fixpoint save_linked_issues (repo_name : string) (pr_url : option string)
         (languages : string) (before_code_url after_code_url : option string)
         (affected_files : string) (linked_issues : list string)
         (added_for_repo total_added : Z) : M (Z * Z) :=
  match linked_issues with
  | [] => ret (added_for_repo, total_added)
  | issue_url :: rest =>
      ' (added, total) <-
        try_sqlite
          (rowcount <- cursor_execute db_fault
                         (mkRow issue_url repo_name pr_url languages
                                before_code_url after_code_url affected_files) ;;
           if (rowcount >? 0)%Z
           then ret ((added_for_repo + 1)%Z, (total_added + 1)%Z)
           else ret (added_for_repo, total_added))
          (fun e => print (DbError e issue_url) ;; ret (added_for_repo, total_added)) ;;
      save_linked_issues repo_name pr_url languages before_code_url after_code_url
                         affected_files rest added total
  end.

(** the body of the [for pr in prs] loop *)
Definition process_pr (fuel : nat) (repo_name languages : string) (pr : json)
           (added_for_repo total_added : Z) : M (Z * Z) :=
  pr_url <- lift (obind (getitem pr "html_url") text_or_none) ;;
  linked_issues <- lift (get_issues_from_pr pr repo_name) ;;
  ' (added, total) <-
    match linked_issues with
    | _ :: _ =>
        number <- lift (getitem pr "number") ;;
        print (PRLinks number (Z.of_nat (length linked_issues))) ;;
        base_sha <- lift (sha_of pr "base") ;;
        head_sha <- lift (sha_of pr "head") ;;
        before_code_url <- lift (commit_url repo_name base_sha) ;;
        after_code_url <- lift (commit_url repo_name head_sha) ;;
        affected_files <- get_affected_files fuel pr_url ;;
        save_linked_issues repo_name pr_url languages before_code_url after_code_url
                           affected_files linked_issues added_for_repo total_added
    | [] => ret (added_for_repo, total_added)
    end ;;
  (if ((added >? 0) && (added mod 10 =? 0))%Z
   then conn_commit ;; print (Committed added repo_name)
   else ret tt) ;;
  time_sleep (1 # 2)%Q ;;
  ret (added, total).

Fixpoint process_prs (fuel : nat) (repo_name languages : string) (prs : list json)
         (added_for_repo total_added : Z) : M (Z * Z) :=
  match prs with
  | [] => ret (added_for_repo, total_added)
  | pr :: rest =>
      ' (added, total) <- process_pr fuel repo_name languages pr added_for_repo total_added ;;
      process_prs fuel repo_name languages rest added total
  end.

(** the body of the [for repo in repos] loop of [populate_db_from_prs] *)
Definition process_repo (fuel : nat) (repo : json) (total_added : Z) : M Z :=
  repo_name <- lift (obind (getitem repo "full_name") text) ;;
  print (ProcessingRepo repo_name) ;;
  languages <- get_languages fuel repo_name ;;
  print (LanguagesUsed repo_name languages) ;;
  prs <- get_merged_prs fuel repo_name 30 3 ;;
  match prs with
  | [] =>
      print (NoPRs repo_name) ;;
      ret total_added
  | _ :: _ =>
      print (ProcessingPRs (Z.of_nat (length prs)) repo_name) ;;
      ' (added, total) <- process_prs fuel repo_name languages prs 0%Z total_added ;;
      conn_commit ;;
      print (EntriesAdded added repo_name) ;;
      ret total
  end.

Fixpoint process_repos (fuel : nat) (repos : list json) (total_added : Z) : M Z :=
  match repos with
  | [] => ret total_added
  | repo :: rest =>
      total <- process_repo fuel repo total_added ;;
      process_repos fuel rest total
  end.

Definition populate_db_from_prs (fuel : nat) (repos : list json) : M Z :=
  sqlite_connect ;;
  total_added <- process_repos fuel repos 0%Z ;;
  conn_close ;;
  ret total_added.

(** [create_db]: the table is created if it is not there; the model's
    tables always exist. *)
Definition create_db : M unit := ret tt.

(** [check_db]: a fresh connection counts the committed rows; the lines
    that follow print query results only. *)
Definition check_db : M unit :=
  sqlite_connect ;;
  fun w => print (DbContains (Z.of_nat (length (table w)))) w.

(** the [for repo in repos_to_process] loop of the entry point *)
Fixpoint crawl (fuel : nat) (repos_to_process : list json)
         (processed_repo_names : list string) (candidates total_count : Z)
  : M (list string * Z) :=
  match repos_to_process with
  | [] => ret (processed_repo_names, total_count)
  | repo :: rest =>
      count <- populate_db_from_prs fuel [repo] ;;
      name <- lift (obind (getitem repo "full_name") text) ;;
      let processed := processed_repo_names ++ [name] in
      save_progress processed ;;
      print (ProgressSaved (Z.of_nat (length processed)) candidates) ;;
      crawl fuel rest processed candidates (total_count + count)%Z
  end.

(** lines 281-297 of the entry point: reload the progress, drop what was
    processed, crawl the rest *)
Definition resume (fuel : nat) (repos : list json) : M (list string * Z) :=
  processed_repo_names <- load_progress ;;
  print (PreviouslyProcessed (Z.of_nat (length processed_repo_names))) ;;
  repos_to_process <- lift (not_processed repos processed_repo_names) ;;
  print (WillProcess (Z.of_nat (length repos_to_process))) ;;
  crawl fuel repos_to_process processed_repo_names (Z.of_nat (length repos)) 0%Z.

Definition main (fuel : nat) : M unit :=
  print Starting ;;
  create_db ;;
  repos <- get_mit_repos fuel "stars:>10000" 100 1000 ;;
  print (ReposFound (Z.of_nat (length repos))) ;;
  match repos with
  | [] =>
      print NoReposFound ;;
      raise SystemExit
  | _ :: _ =>
      ' (_, total_count) <- resume fuel repos ;;
      print (PairsAdded total_count) ;;
      check_db ;;
      print Done
  end.

End Environment.

End Scraper.

(** ** slim/slim.py, the issue-driven script

    Its [make_request], [get_languages] and INSERT statement are those of
    slim_scraper.py (the message of a failed request leaves the URL out).
    Its collector sorts by stars, prints nothing for a page it takes, and
    on a failed page returns the empty list.  Its [populate_db] has no
    [try] around the INSERT and looks the languages up for every issue it
    stores. *)

Module Slim.

Import Py World World.Notations.

Definition search_url (query : string) (per_page page : Z) : string :=
  "https://api.github.com/search/repositories?q=" ^^ query
  ^^ "+license:mit&sort=stars&order=desc&per_page=" ^^ str_of_Z per_page
  ^^ "&page=" ^^ str_of_Z page.

Definition issues_url (repo_name : string) : string :=
  "https://api.github.com/repos/" ^^ repo_name ^^ "/issues?state=closed&per_page=100".

Definition timeline_url (repo_name issue_number : string) : string :=
  "https://api.github.com/repos/" ^^ repo_name ^^ "/issues/" ^^ issue_number
  ^^ "/timeline?per_page=100".

(** [v.replace(old, new)]: only text has the method *)
Definition replaced (old new : string) (v : json) : Outcome string :=
  match v with
  | JStr s => Ok (replace old new s)
  | _ => Raise AttributeError
  end.

(** [event.get("source", {}).get("issue", {}).get("html_url", "")] *)
Definition source_url (event : json) : Outcome json :=
  obind (get event "source" (JObj [])) (fun source =>
  obind (get source "issue" (JObj [])) (fun issue =>
  get issue "html_url" (JStr ""))).

(** the [for event in timeline] loop of [get_pull_request_from_issue] *)
Fixpoint first_cross_reference (timeline : list json) : Outcome json :=
  match timeline with
  | [] => Ok JNull
  | event :: rest =>
      obind (get event "event" JNull) (fun kind =>
      if equals_text kind "cross-referenced" then
        obind (source_url event) (fun url =>
        obind (text_in "pull" url) (fun is_pull =>
        if is_pull then
          obind (getitem event "source") (fun source =>
          obind (getitem source "issue") (fun issue =>
          getitem issue "html_url"))
        else first_cross_reference rest))
      else first_cross_reference rest)
  end.

Section Environment.

Variable server : nat -> string -> Response.
Variable db_fault : nat -> option string.

Fixpoint get_mit_repos_loop (fuel : nat) (query : string) (per_page : Z)
         (todo : list Z) (repos : list json) : M (list json) :=
  match todo with
  | [] => ret repos
  | page :: rest =>
      response <- Scraper.make_request server fuel (search_url query per_page page) ;;
      match response with
      | Some r =>
          data <- response_json r ;;
          items <- lift (get data "items" (JArr [])) ;;
          more <- lift (iter items) ;;
          get_mit_repos_loop fuel query per_page rest (repos ++ more)
      | None =>
          print (FetchReposFailed page) ;;
          ret []
      end
  end.

Definition get_mit_repos (fuel : nat) (query : string) (per_page pages : Z) : M (list json) :=
  get_mit_repos_loop fuel query per_page (Scraper.range1 pages) [].

Definition get_issues (fuel : nat) (repo_name : string) : M json :=
  response <- Scraper.make_request server fuel (issues_url repo_name) ;;
  match response with
  | Some r => response_json r
  | None => ret (JArr [])
  end.

Definition get_pull_request_from_issue (fuel : nat) (repo_name : string)
           (issue_number : json) : M json :=
  number <- lift (str issue_number) ;;
  response <- Scraper.make_request server fuel (timeline_url repo_name number) ;;
  match response with
  | Some r =>
      timeline <- response_json r ;;
      events <- lift (iter timeline) ;;
      lift (first_cross_reference events)
  | None => ret JNull
  end.

Definition get_code_before_after (fuel : nat) (pr_url : json)
  : M (option string * option string) :=
  if negb (truthy pr_url) then ret (None, None)
  else
    api_url <- lift (replaced "github.com" "api.github.com/repos" pr_url) ;;
    let pr_api_url := replace "/pull/" "/pulls/" api_url in
    response <- Scraper.make_request server fuel pr_api_url ;;
    match response with
    | None => ret (None, None)
    | Some r =>
        pr_data <- response_json r ;;
        base_sha <- lift (Scraper.sha_of pr_data "base") ;;
        head_sha <- lift (Scraper.sha_of pr_data "head") ;;
        base <- lift (get pr_data "base" (JObj [])) ;;
        base_repo <- lift (get base "repo" (JObj [])) ;;
        repo_name <- lift (get base_repo "full_name" JNull) ;;
        if (negb (truthy base_sha) || negb (truthy head_sha) || negb (truthy repo_name))%bool
        then ret (None, None)
        else
          name <- lift (str repo_name) ;;
          base_text <- lift (str base_sha) ;;
          head_text <- lift (str head_sha) ;;
          ret (Some ("https://github.com/" ^^ name ^^ "/commit/" ^^ base_text),
               Some ("https://github.com/" ^^ name ^^ "/commit/" ^^ head_text))
    end.

Definition get_affected_files (fuel : nat) (pr_url : json) : M string :=
  if negb (truthy pr_url) then ret "[]"
  else
    api_url <- lift (replaced "github.com" "api.github.com/repos" pr_url) ;;
    response <- Scraper.make_request server fuel (api_url ^^ "/files") ;;
    match response with
    | Some r =>
        data <- response_json r ;;
        files <- lift (iter data) ;;
        names <- lift (Scraper.traverse (fun file => getitem file "filename") files) ;;
        ret (dumps (JArr names))
    | None => ret "[]"
    end.

(** the body of the [for issue in issues] loop of [populate_db] *)
Definition store_issue (fuel : nat) (repo_name : string) (issue : json) : M unit :=
  is_pull <- lift (get issue "pull_request" JNull) ;;
  if truthy is_pull then ret tt
  else
    number <- lift (getitem issue "number") ;;
    pr_url <- get_pull_request_from_issue fuel repo_name number ;;
    if truthy pr_url then
      ' (before_code_url, after_code_url) <- get_code_before_after fuel pr_url ;;
      languages <- Scraper.get_languages server fuel repo_name ;;
      affected_files <- get_affected_files fuel pr_url ;;
      issue_url <- lift (obind (getitem issue "html_url") Scraper.text) ;;
      pull_request_url <- lift (Scraper.text_or_none pr_url) ;;
      _ <- cursor_execute db_fault
             (mkRow issue_url repo_name pull_request_url languages
                    before_code_url after_code_url affected_files) ;;
      ret tt
    else ret tt.

Fixpoint store_issues (fuel : nat) (repo_name : string) (issues : list json) : M unit :=
  match issues with
  | [] => ret tt
  | issue :: rest =>
      store_issue fuel repo_name issue ;;
      store_issues fuel repo_name rest
  end.

(** the [for repo in repos] loop of [populate_db] *)
Fixpoint populate_repos (fuel : nat) (repos : list json) : M unit :=
  match repos with
  | [] => ret tt
  | repo :: rest =>
      repo_name <- lift (obind (getitem repo "full_name") Scraper.text) ;;
      issues <- get_issues fuel repo_name ;;
      items <- lift (iter issues) ;;
      store_issues fuel repo_name items ;;
      conn_commit ;;
      populate_repos fuel rest
  end.

Definition populate_db (fuel : nat) (repos : list json) : M unit :=
  sqlite_connect ;;
  populate_repos fuel repos ;;
  conn_close.

End Environment.

End Slim.

(** ** Vocabulary of the statements *)

Module Spec.

Import Py World World.Notations Scraper.

(** the world an action leaves *)
Definition after {A} (m : M A) (w : World) : World := snd (m w).

(** the replies on which [make_request] goes for a sleep and, the sleep
    taken, asks again *)
Definition waits (r : Response) : bool :=
  negb (status_code r =? 200)%Z
  && (if ((status_code r =? 403)%Z && header_present (x_ratelimit_reset r))%bool
      then match x_ratelimit_reset r with Some (Some _) => true | _ => false end
      else retry_status (status_code r)).

(** the reply [r], coming when the clock shows [clock] or more, asks for
    no pause beyond what [time.sleep] takes: it is not a 403 carrying a
    reset time more than [sleep_max] after [clock] *)
Definition brief (clock : Q) (r : Response) : bool :=
  if ((status_code r =? 403)%Z && header_present (x_ratelimit_reset r))%bool
  then match x_ratelimit_reset r with
       | Some (Some t) => Qle_bool (inject_Z t - clock) sleep_max
       | _ => true
       end
  else true.

(** the replies on which [make_request] gives the call up *)
Definition gives_up (r : Response) : bool :=
  negb (status_code r =? 200)%Z
  && negb ((status_code r =? 403)%Z && header_present (x_ratelimit_reset r))
  && negb (retry_status (status_code r)).

Definition urls_got (events : list Event) : list string :=
  flat_map (fun e => match e with Get url _ => [url] | _ => [] end) events.

Definition sleeps (events : list Event) : list Q :=
  flat_map (fun e => match e with Sleep d => [d] | _ => [] end) events.

(** rows handed to the INSERT statement, in order *)
Definition executed (events : list Event) : list Row :=
  flat_map (fun e => match e with Execute r _ => [r] | _ => [] end) events.

(** the INSERTs that raised: message and issue URL *)
Definition failures (events : list Event) : list (string * string) :=
  flat_map (fun e => match e with
                     | Execute r (Failed msg) => [(msg, issue_url r)]
                     | _ => []
                     end) events.

(** the storage errors written to the console: message and issue URL *)
Definition db_errors (events : list Event) : list (string * string) :=
  flat_map (fun e => match e with
                     | Print (DbError msg url) => [(msg, url)]
                     | _ => []
                     end) events.

Definition count_rows (url : string) (rows : list Row) : nat :=
  length (filter (fun r => (issue_url r =? url)%string) rows).

(** what progress.json holds after [events], given what it held before *)
Definition saved (events : list Event) (file : option (list string)) : option (list string) :=
  fold_left (fun f e => match e with SaveProgress names => Some names | _ => f end)
            events file.

(** [m] appends events satisfying [P] to the trace, whatever it comes to,
    and touches progress.json through [save_progress] only *)
Definition emits {A} (P : Event -> Prop) (m : M A) : Prop :=
  forall w, exists new,
    trace (after m w) = trace w ++ new
    /\ Forall P new
    /\ progress_json (after m w) = saved new (progress_json w).

(** no [sqlite3.Error] leaves [m] *)
Definition contained {A} (m : M A) : Prop :=
  forall w msg, fst (m w) <> Raise (SqliteError msg).

Definition quiet {A} (o : Outcome A) : Prop :=
  forall msg, o <> Raise (SqliteError msg).

(** two outcomes of the same kind, with results related by [E] *)
Definition alike {A B} (E : A -> B -> Prop) (o1 : Outcome A) (o2 : Outcome B) : Prop :=
  match o1, o2 with
  | Ok a, Ok b => E a b
  | Raise e1, Raise e2 => e1 = e2
  | Diverge, Diverge => True
  | Unmodelled, Unmodelled => True
  | _, _ => False
  end.

(** two worlds at the same point of the exchange with the API: as many
    requests made, and the same time on the clock *)
Definition in_step (w1 w2 : World) : Prop :=
  requests w1 = requests w2 /\ now w1 = now w2.

(** run from worlds in step, [m1] and [m2] end alike and in worlds in step,
    having asked for the same URLs, handed the same rows to the store, and
    printed every INSERT of theirs that failed *)
Definition mirrors {A B} (E : A -> B -> Prop) (m1 : M A) (m2 : M B) : Prop :=
  forall w1 w2,
    in_step w1 w2 ->
    in_step (after m1 w1) (after m2 w2)
    /\ alike E (fst (m1 w1)) (fst (m2 w2))
    /\ exists new1 new2,
         trace (after m1 w1) = trace w1 ++ new1
         /\ trace (after m2 w2) = trace w2 ++ new2
         /\ executed new1 = executed new2
         /\ urls_got new1 = urls_got new2
         /\ db_errors new1 = failures new1
         /\ db_errors new2 = failures new2.

(** the items the collector takes from a reply: status 200 and a JSON
    object whose [items], when it has one, is a list *)
Definition page_of (r : Response) : option (list json) :=
  if (status_code r =? 200)%Z then
    match payload r with
    | Some (JObj fields) =>
        match assoc "items" fields with
        | None => Some []
        | Some (JArr items) => Some items
        | Some _ => None
        end
    | _ => None
    end
  else None.

(** to the call of the fetcher for [url] that opens with request number
    [n], the clock showing [clock] or more, the API replies [k] times with
    a reply to wait on, asking for a pause that [time.sleep] takes, and
    then with [r] *)
Definition replies_after (server : nat -> string -> Response) (clock : Q) (url : string)
           (n k : nat) (r : Response) : Prop :=
  (forall j, (j < k)%nat ->
     waits (server (n + j)%nat url) = true /\ brief clock (server (n + j)%nat url) = true)
  /\ server (n + k)%nat url = r.

(** the requests made by calls of the fetcher that wait [rounds] times, one
    call after the other *)
Fixpoint requests_made (rounds : list nat) : nat :=
  match rounds with
  | [] => 0%nat
  | k :: rest => (S k + requests_made rest)%nat
  end.

(** the URLs those calls ask for when they are for the pages [page],
    [page + 1], ... of the search: each page once more than its call
    waited *)
Fixpoint page_requests (query : string) (per_page : Z) (page : nat) (rounds : list nat)
  : list string :=
  match rounds with
  | [] => []
  | k :: rest =>
      repeat (search_url query per_page (Z.of_nat page)) (S k)
      ++ page_requests query per_page (S page) rest
  end.

(** the events of one call of the fetcher on [url] *)
Definition fetch_event (url : string) (e : Event) : Prop :=
  match e with
  | Get u _ => u = url
  | Sleep _ => True
  | Print (RateLimited _ | TempError _ | RequestFailed _ _) => True
  | _ => False
  end.

(** the events of a repository's processing once its languages are known:
    its PR pages, file lists, and rows carrying its name and languages *)
Definition pr_phase_event (name langs : string) (e : Event) : Prop :=
  match e with
  | Get u _ =>
      (exists page, In page (range1 3) /\ u = pulls_url name 30 page)
      \/ (exists s, u = s ^^ "/files")
  | Execute row _ => repo_name row = name /\ languages row = langs
  | Print (ProcessingRepo _) => False
  | SaveProgress _ => False
  | _ => True
  end.

(** the events of the processing of the repository [name] *)
Definition repo_event (name : string) (e : Event) : Prop :=
  match e with
  | Get u _ =>
      u = languages_url name
      \/ (exists page, In page (range1 3) /\ u = pulls_url name 30 page)
      \/ (exists s, u = s ^^ "/files")
  | Execute row _ => repo_name row = name
  | Print (ProcessingRepo n) => n = name
  | SaveProgress _ => False
  | _ => True
  end.

(** the replies to GETs of [url] that ended a call of the fetcher, that is,
    the replies that were not waited on *)
Definition answered (url : string) (events : list Event) : list Response :=
  flat_map (fun e => match e with
                     | Get u r => if ((u =? url)%string && negb (waits r))%bool then [r] else []
                     | _ => []
                     end) events.

(** the events of rounds of the fetcher that waited: every reply is one to
    wait on *)
Definition waiting_event (e : Event) : Prop :=
  match e with
  | Get _ r => waits r = true
  | _ => True
  end.

(** what [get_languages] makes of the reply that ends its call of the
    fetcher: the keys of a 200's payload, serialized, and the serialized
    empty list for a reply that made the fetcher give up *)
Definition languages_of (r : Response) : Outcome string :=
  if (status_code r =? 200)%Z then
    match payload r with
    | Some data => obind (keys data) (fun names => Ok (dumps (JArr names)))
    | None => Raise JSONDecodeError
    end
  else Ok "[]".

(** lines 173 to 223: the body of the repository loop from the point where
    the languages are known *)
Definition after_lookup (server : nat -> string -> Response) (db_fault : nat -> option string)
           (fuel : nat) (repo_name languages : string) (total_added : Z) : M Z :=
  print (LanguagesUsed repo_name languages) ;;
  prs <- get_merged_prs server fuel repo_name 30 3 ;;
  match prs with
  | [] =>
      print (NoPRs repo_name) ;;
      ret total_added
  | _ :: _ =>
      print (ProcessingPRs (Z.of_nat (length prs)) repo_name) ;;
      ' (added, total) <- process_prs server db_fault fuel repo_name languages prs 0%Z
                                      total_added ;;
      conn_commit ;;
      print (EntriesAdded added repo_name) ;;
      ret total
  end.

(** the repository's processing past its first line on the console *)
Definition inner_event (name : string) (e : Event) : Prop :=
  match e with
  | Print (ProcessingRepo _) => False
  | _ => repo_event name e
  end.

(** the events of the crawl of the repositories [names] *)
Definition crawl_event (names : list string) (e : Event) : Prop :=
  (exists n, In n names /\ repo_event n e)
  \/ match e with
     | SaveProgress _ => True
     | Print (ProgressSaved _ _ | PreviouslyProcessed _ | WillProcess _) => True
     | _ => False
     end.

(** [e] is work on the repository [x]: its processing starting, a GET of
    its language endpoint or of a page of its pull requests, a row of it
    handed to the store.  (The GET of a file list goes to the URL that the
    payload of a pull request gives, whatever repository it names.) *)
Definition concerns (x : string) (e : Event) : Prop :=
  match e with
  | Print (ProcessingRepo n) => n = x
  | Get u _ =>
      u = languages_url x \/ (exists page, In page (range1 3) /\ u = pulls_url x 30 page)
  | Execute row _ => repo_name row = x
  | _ => False
  end.

(** the two steps of the crawl that matter for resuming *)
Inductive Milestone : Type :=
| Started (name : string)
| Persisted (names : list string).

Definition milestones (events : list Event) : list Milestone :=
  flat_map (fun e => match e with
                     | Print (ProcessingRepo n) => [Started n]
                     | SaveProgress names => [Persisted names]
                     | _ => []
                     end) events.

(** the milestones of crawling [names] in order, [processed] being the
    names already in the set *)
Fixpoint schedule (processed names : list string) : list Milestone :=
  match names with
  | [] => []
  | n :: rest =>
      Started n :: Persisted (processed ++ [n]) :: schedule (processed ++ [n]) rest
  end.

(** some repository is started after a set holding its name was persisted *)
Fixpoint retried (ms : list Milestone) : bool :=
  match ms with
  | [] => false
  | Persisted names :: rest =>
      existsb (fun m => match m with
                        | Started n => existsb (String.eqb n) names
                        | Persisted _ => false
                        end) rest
      || retried rest
  | Started _ :: rest => retried rest
  end.

(** [repo["full_name"]] of each candidate *)
Definition names_of (repos : list json) : Outcome (list string) :=
  traverse (fun repo => obind (getitem repo "full_name") text) repos.

(** the names not in the processed set *)
Definition fresh (processed names : list string) : list string :=
  filter (fun n => negb (existsb (String.eqb n) processed)) names.

(** the list [load_progress] returns *)
Definition loaded (w : World) : list string :=
  match progress_json w with Some names => names | None => [] end.

(** rows inserted and commits, in order *)
Inductive StoreStep : Type :=
| Added
| Flushed.

Definition store_steps (events : list Event) : list StoreStep :=
  flat_map (fun e => match e with
                     | Execute _ Inserted => [Added]
                     | Commit => [Flushed]
                     | _ => []
                     end) events.

(** the largest number of inserted rows that were waiting for a commit *)
Fixpoint pending_peak (steps : list StoreStep) (pending : nat) : nat :=
  match steps with
  | [] => pending
  | Added :: rest => Nat.max (S pending) (pending_peak rest (S pending))
  | Flushed :: rest => Nat.max pending (pending_peak rest 0)
  end.

Fixpoint all_chars (p : ascii -> bool) (s : string) : bool :=
  match s with
  | EmptyString => true
  | String c s' => p c && all_chars p s'
  end.

Fixpoint lowercase (s : string) : string :=
  match s with
  | EmptyString => ""
  | String c s' => String (Re.lower c) (lowercase s')
  end.

(** [derives r txt g g']: the pattern [r] matches the whole of [txt]; [g]
    is the text of the group before the match and [g'] after it *)
Inductive derives : Re.regex -> string -> option string -> option string -> Prop :=
| derives_eps g : derives Re.Eps "" g g
| derives_chr p c g : p c = true -> derives (Re.Chr p) (String c "") g g
| derives_seq r1 r2 s1 s2 g g1 g2 :
    derives r1 s1 g g1 -> derives r2 s2 g1 g2 -> derives (Re.Seq r1 r2) (s1 ^^ s2) g g2
| derives_alt_left r1 r2 s g g1 : derives r1 s g g1 -> derives (Re.Alt r1 r2) s g g1
| derives_alt_right r1 r2 s g g1 : derives r2 s g g1 -> derives (Re.Alt r1 r2) s g g1
| derives_opt_none r g : derives (Re.Opt r) "" g g
| derives_opt_some r s g g1 : derives r s g g1 -> derives (Re.Opt r) s g g1
| derives_plus p c s g :
    p c = true -> all_chars p s = true -> derives (Re.Plus p) (String c s) g g
| derives_group r s g g1 : derives r s g g1 -> derives (Re.Group r) s g (Some s).

(** what [findall] returns for a match: the text of the group *)
Definition group_text (g : option string) : string :=
  match g with Some t => t | None => "" end.

(** the closing keywords, in lower case *)
Definition keywords : list string :=
  ["close"; "closes"; "closed"; "fix"; "fixes"; "fixed"; "resolve"; "resolves"; "resolved"].

(** [text] holds a closing reference to issue [number]: a keyword in any
    case, white space, what [scope] matches, a [#] and the digits *)
Definition closes (scope : Re.regex) (text number : string) : Prop :=
  exists before keyword spaces name after g g',
    text = before ^^ keyword ^^ spaces ^^ name ^^ "#" ^^ number ^^ after
    /\ In (lowercase keyword) keywords
    /\ spaces <> "" /\ all_chars Re.is_space spaces = true
    /\ derives scope name g g'
    /\ number <> "" /\ all_chars Re.is_digit number = true.

(** characters of a text, last first *)
Definition rchars (s : string) : list ascii := rev (list_ascii_of_string s).

End Spec.

(** ** Sample servers, payloads and worlds *)

Module Samples.

Import Py World Scraper Spec.

Definition start : World := mkWorld [] 98 0 0 [] [] None.

Definition no_fault : nat -> option string := fun _ => None.

Definition ok (data : json) : Response := mkResponse 200 None (Some data).

Definition status (code : Z) : Response := mkResponse code None None.

Definition rate_limited (reset : Z) : Response := mkResponse 403 (Some (Some reset)) None.

(** a server that answers by URL, the same at every request *)
Fixpoint route (routes : list (string * Response)) (url : string) : Response :=
  match routes with
  | [] => status 404
  | (u, r) :: rest => if (u =? url)%string then r else route rest url
  end.

Definition serve (routes : list (string * Response)) : nat -> string -> Response :=
  fun _ url => route routes url.





Definition repo (name : string) : json :=
  JObj [("id", JNum 1); ("full_name", JStr name)].

Definition page (items : list json) : Response :=
  ok (JObj [("total_count", JNum 4); ("items", JArr items)]).

(** four pages of search results, the third one empty, then a refusal *)
Definition search : nat -> string -> Response :=
  serve [(search_url "stars:>10000" 100 1, page [repo "a/a"; repo "b/b"]);
         (search_url "stars:>10000" 100 2, page [repo "c/c"]);
         (search_url "stars:>10000" 100 3, page []);
         (search_url "stars:>10000" 100 4, page [repo "d/d"]);
         (search_url "stars:>10000" 100 5, status 422)].

(** the same search, the API being busy when the first request comes and
    rate limited until the clock shows 100 when the fourth comes *)
Definition slow_search : nat -> string -> Response :=
  fun n url =>
    match n with
    | 0%nat => status 503
    | 3%nat => rate_limited 100
    | _ => search n url
    end.

Definition pull (number : Z) (body : string) : json :=
  JObj [("html_url", JStr ("https://github.com/o/r/pull/" ^^ str_of_Z number));
        ("number", JNum number);
        ("merged_at", JStr "2024-05-01T10:00:00Z");
        ("body", JStr body);
        ("base", JObj [("sha", JStr "aaa111")]);
        ("head", JObj [("sha", JStr "bbb222")])].

(** a pull request whose payload carries no commit identifier *)
Definition bare_pull : json :=
  JObj [("html_url", JStr "https://github.com/o/r/pull/5");
        ("number", JNum 5);
        ("merged_at", JStr "2024-05-01T10:00:00Z");
        ("body", JStr "Fixes #42 and closes o/r#7");
        ("head", JObj [("label", JStr "o:patch-1")])].


Definition quiet_pull : json :=
  JObj [("html_url", JStr "https://github.com/o/r/pull/6");
        ("number", JNum 6);
        ("merged_at", JStr "2024-05-02T10:00:00Z");
        ("body", JStr "Refactor the parser")].

(** the API refuses everything *)
Definition refusing : nat -> string -> Response := serve [].

(** [o/r] has one merged pull request; its languages and its file lists
    cannot be fetched *)
Definition one_pull : nat -> string -> Response :=
  serve [(pulls_url "o/r" 30 1, ok (JArr [bare_pull]))].

(** [o/r] has two merged pull requests, the first closing nine issues and
    the second two *)
Definition nine_then_two : nat -> string -> Response :=
  serve [(languages_url "o/r", ok (JObj [("Python", JNum 1200); ("C", JNum 80)]));
         (pulls_url "o/r" 30 1,
          ok (JArr [pull 1 "fixes #1, fixes #2, fixes #3, fixes #4, fixes #5, fixes #6, fixes #7, fixes #8 and fixes #9";
                    pull 2 "closes #10 and closes #11"]))].


Definition sample_row : Row :=
  mkRow "https://github.com/o/r/issues/42" "o/r" (Some "https://github.com/o/r/pull/5")
        "[]" None None "[]".

(** the same issue with other fields *)
Definition other_row : Row :=
  mkRow "https://github.com/o/r/issues/42" "o/r" (Some "https://github.com/o/r/pull/9")
        "[]" None None "[]".

Definition resumed : World := mkWorld [] 98 0 0 [] [] (Some ["a/a"]).

(** the worlds [start] after one and after two requests *)
Definition second : World := mkWorld [] 100 1 0 [] [] None.


Definition four_pages : list (list json) :=
  [[repo "a/a"; repo "b/b"]; [repo "c/c"]; []; [repo "d/d"]].

(** the pages [slow_search] serves, each with the number of replies its
    call waits on *)
Definition four_slow_pages : list (nat * list json) :=
  [(1%nat, [repo "a/a"; repo "b/b"]); (0%nat, [repo "c/c"]); (1%nat, []);
   (0%nat, [repo "d/d"])].

Definition closed_issue (number : Z) : json :=
  JObj [("number", JNum number);
        ("html_url", JStr ("https://github.com/o/r/issues/" ^^ str_of_Z number))].

Definition cross_reference : json :=
  JObj [("event", JStr "cross-referenced");
        ("source",
         JObj [("issue", JObj [("html_url", JStr "https://github.com/o/r/pull/9")])])].

(** for slim/slim.py: [o/r] has two closed issues, each cross-referenced by
    pull request 9 *)
Definition issue_driven : nat -> string -> Response :=
  serve [(Slim.issues_url "o/r", ok (JArr [closed_issue 1; closed_issue 2]));
         (Slim.timeline_url "o/r" "1", ok (JArr [cross_reference]));
         (Slim.timeline_url "o/r" "2", ok (JArr [cross_reference]))].

Definition disk_full : nat -> option string := fun _ => Some "database or disk is full".

(** the first INSERT of the process fails, the others go through *)
Definition first_fails : nat -> option string :=
  fun n => match n with 0%nat => Some "database is locked" | _ => None end.

(** [k] copies of one closing reference *)
Fixpoint repeated (k : nat) : string :=
  match k with
  | O => ""
  | S k' => "fixes #1 " ^^ repeated k'
  end.

End Samples.

(** ** Vocabulary of the further properties *)

Module More.

Import Py World Scraper Spec.

(** [m] leaves every world in relation [R] to the world it started from,
    whatever it comes to *)
Definition respects (R : World -> World -> Prop) {A} (m : M A) : Prop :=
  forall w, R w (after m w).

(** the store and progress.json are where they were *)
Definition same_store (w w' : World) : Prop :=
  table w' = table w /\ durable w' = durable w /\ statements w' = statements w
  /\ progress_json w' = progress_json w.

(** no two rows under one [issue_url], in the connection's view and among
    the committed rows *)
Definition unique_keys (w : World) : Prop :=
  NoDup (map issue_url (table w)) /\ NoDup (map issue_url (durable w)).

(** what the connection sees is the committed rows followed by the rows
    waiting for a commit *)
Definition pending_on_top (w : World) : Prop :=
  exists pending, table w = durable w ++ pending.

(** the committed rows of [w] are still there in [w'], unchanged and in
    place *)
Definition keeps_committed (w w' : World) : Prop :=
  exists more, durable w' = durable w ++ more.

(** a pause is never asked for a negative time, which [time.sleep] rejects
    with a [ValueError] *)
Definition timely (e : Event) : Prop :=
  match e with
  | Sleep d => (0 <= d)%Q
  | _ => True
  end.

(** a pull request whose payload says it was merged: [merged_at] is there
    and is neither [null] nor empty *)
Definition merged (pr : json) : Prop :=
  exists v, get pr "merged_at" JNull = Ok v /\ truthy v = true.

(** a text without a slash *)
Definition slashless (s : string) : bool :=
  all_chars (fun c => negb (Ascii.eqb c "/")) s.

(** a pattern whose character classes do not tell a capital from its small
    letter *)
Fixpoint case_blind (r : Re.regex) : Prop :=
  match r with
  | Re.Eps => True
  | Re.Chr p | Re.Plus p => forall c, p (Re.lower c) = p c
  | Re.Seq r1 r2 | Re.Alt r1 r2 => case_blind r1 /\ case_blind r2
  | Re.Opt r1 | Re.Group r1 => case_blind r1
  end.

(** the first character of [s], when there is one, is in the class [p] *)
Definition starts_with (p : ascii -> bool) (s : string) : bool :=
  match s with
  | String c _ => p c
  | EmptyString => false
  end.

(** an INSERT that fails is the last thing [m] does, and its error is what
    [m] raises; when [m] ends in another way, no INSERT has failed *)
Definition fails_last {A} (m : M A) : Prop :=
  forall w, exists new,
    trace (after m w) = trace w ++ new
    /\ match fst (m w) with
       | Raise (SqliteError msg) =>
           exists before r, new = before ++ [Execute r (Failed msg)] /\ failures before = []
       | _ => failures new = []
       end.

(** what a storage step does to the rows the connection sees and to the
    committed rows *)
Definition store (w : World) : list Row * list Row := (table w, durable w).

Fixpoint replay (events : list Event) (s : list Row * list Row) : list Row * list Row :=
  match events with
  | [] => s
  | e :: rest =>
      replay rest
        match e with
        | Execute _ (Failed _) => s
        | Execute r _ => (fst (insert_or_ignore r (fst s)), snd s)
        | Commit => (fst s, fst s)
        | _ => s
        end
  end.

(** between a connect and a close, the store is what the INSERTs and
    commits of the trace make of it; with a store that never fails, no
    INSERT fails *)
Definition tracked {A} (m : M A) : Prop :=
  forall w, exists new,
    trace (after m w) = trace w ++ new
    /\ store (after m w) = replay new (store w)
    /\ failures new = [].

(** from any two worlds: when [m1] returns, [m2] returns too, with results
    related by [E], and both have handed the same rows to the store *)
Definition same_rows {A B} (E : A -> B -> Prop) (m1 : M A) (m2 : M B) : Prop :=
  forall w1 w2 a1 v1,
    m1 w1 = (Ok a1, v1) ->
    exists a2 v2 new1 new2,
      m2 w2 = (Ok a2, v2)
      /\ E a1 a2
      /\ trace v1 = trace w1 ++ new1
      /\ trace v2 = trace w2 ++ new2
      /\ executed new1 = executed new2.

(** a server that answers by URL alone *)
Definition stateless (server : nat -> string -> Response) : Prop :=
  forall n url, server n url = server 0%nat url.

(** the text of a JSON list of strings, as [json.dumps] writes it *)
Definition json_list_of_strings (s : string) : Prop :=
  exists names : list string, s = dumps (JArr (map JStr names)).

(** a row handed to the store has a list of strings for its languages *)
Definition carries_languages (e : Event) : Prop :=
  match e with
  | Execute row _ => json_list_of_strings (languages row)
  | _ => True
  end.

(** [R] does not look at the console, the clock or the request counter *)
Definition io_blind (R : World -> World -> Prop) : Prop :=
  forall w tr nw rq,
    R w (mkWorld tr nw rq (statements w) (table w) (durable w) (progress_json w)).

Definition reflexive (R : World -> World -> Prop) : Prop := forall w, R w w.

Definition transitive (R : World -> World -> Prop) : Prop :=
  forall a b c, R a b -> R b c -> R a c.

End More.

(** ** Further sample worlds and servers *)

Module Cases.

Import Py World Scraper Spec Samples.

(** a store that holds one committed row *)
Definition stored : World := mkWorld [] 98 0 0 [sample_row] [sample_row] None.

(** a closed pull request that was not merged *)
Definition unmerged_pull : json :=
  JObj [("html_url", JStr "https://github.com/o/r/pull/7");
        ("number", JNum 7);
        ("merged_at", JNull);
        ("body", JStr "Fixes #3")].

(** [o/r] has three closed pull requests, one of them not merged *)
Definition mixed_pulls : nat -> string -> Response :=
  serve [(pulls_url "o/r" 30 1, ok (JArr [bare_pull; unmerged_pull; quiet_pull]))].

(** the second page of the search comes back with status 200 and a body
    that is not JSON *)
Definition garbled : nat -> string -> Response :=
  serve [(search_url "stars:>10000" 100 1, page [repo "a/a"; repo "b/b"]);
         (search_url "stars:>10000" 100 2, mkResponse 200 None None)].

(** for slim/slim.py: the API's record of pull request 9 of [o/r] *)
Definition pull_record : nat -> string -> Response :=
  serve [("https://api.github.com/repos/o/r/pulls/9",
          ok (JObj [("base", JObj [("sha", JStr "aaa111");
                                   ("repo", JObj [("full_name", JStr "o/r")])]);
                    ("head", JObj [("sha", JStr "bbb222")])]))].

(** for slim/slim.py: two pages of search results, then a refusal *)
Definition slim_search : nat -> string -> Response :=
  serve [(Slim.search_url "stars:>100" 100 1, page [repo "a/a"; repo "b/b"]);
         (Slim.search_url "stars:>100" 100 2, page [repo "c/c"]);
         (Slim.search_url "stars:>100" 100 3, status 422)].

End Cases.

(** * Properties *)

Import Py World World.Notations Scraper Spec.

(** ** Running the monad *)

Lemma bind_ok {A B} (m : M A) (k : A -> M B) (w w1 : World) (a : A) :
  m w = (Ok a, w1) -> bind m k w = k a w1.
Proof. intros H. unfold bind. now rewrite H. Qed.

Lemma bind_stop {A B} (m : M A) (k : A -> M B) (w : World) :
  (forall a, fst (m w) <> Ok a) ->
  snd (bind m k w) = snd (m w) /\ forall b, fst (bind m k w) <> Ok b.
Proof.
  unfold bind. destruct (m w) as [[a | e | | ] w1]; cbn [fst snd]; intros H;
    [now destruct (H a) | | | ]; split; try reflexivity; intros b; discriminate.
Qed.

Lemma bind_bind {A B C} (m : M A) (k : A -> M B) (h : B -> M C) (w : World) :
  bind (bind m k) h w = bind m (fun a => bind (k a) h) w.
Proof. unfold bind. now destruct (m w) as [[a | e | | ] w1]. Qed.

(** run the steps of a sequence that are plain state updates *)
Ltac run :=
  repeat first
    [ rewrite bind_bind
    | progress cbn [bind ret lift raise print emit time_sleep time_time conn_commit
                    sqlite_connect conn_close save_progress load_progress requests_get
                    after fst snd
                    trace now requests statements table durable progress_json
                    sleep_max negb Qle_bool Qnum Qden Z.leb Z.compare Z.mul
                    Pos.mul Pos.add Pos.add_carry Pos.succ Pos.compare Pos.compare_cont] ].

(** ** Pauses *)

Lemma max0_nonneg x : (0 <= max0 x)%Q.
Proof.
  unfold max0. destruct (Qle_bool x 0) eqn:E; [apply Qle_refl | ].
  apply Qlt_le_weak, Qnot_le_lt. intros H. apply Qle_bool_iff in H. congruence.
Qed.

Lemma max0_reaches x : (x <= max0 x)%Q.
Proof.
  unfold max0. destruct (Qle_bool x 0) eqn:E; [now apply Qle_bool_iff | apply Qle_refl].
Qed.

Lemma max0_monotone x y : (x <= y)%Q -> (max0 x <= max0 y)%Q.
Proof.
  intros H. unfold max0 at 1. destruct (Qle_bool x 0) eqn:E.
  - apply max0_nonneg.
  - apply Qle_trans with y; [exact H | apply max0_reaches].
Qed.

Lemma max0_bounded x : (x <= sleep_max)%Q -> (max0 x <= sleep_max)%Q.
Proof.
  intros H. unfold max0. destruct (Qle_bool x 0); [ | exact H].
  unfold Qle, sleep_max. cbn. lia.
Qed.

Lemma time_sleep_accepted d w :
  (0 <= d)%Q -> (d <= sleep_max)%Q ->
  time_sleep d w
  = (Ok tt, mkWorld (trace w ++ [Sleep d]) (now w + d) (requests w) (statements w)
                    (table w) (durable w) (progress_json w)).
Proof.
  intros H0 H1. apply Qle_bool_iff in H0, H1. unfold time_sleep. now rewrite H0, H1.
Qed.

Lemma time_sleep_too_long d w :
  (0 <= d)%Q -> (sleep_max < d)%Q ->
  time_sleep d w
  = (Raise OverflowError, mkWorld (trace w ++ [Sleep d]) (now w) (requests w) (statements w)
                                  (table w) (durable w) (progress_json w)).
Proof.
  intros H0 H1. apply Qle_bool_iff in H0. unfold time_sleep. rewrite H0. cbn [negb].
  destruct (Qle_bool d sleep_max) eqn:E; [ | reflexivity].
  apply Qle_bool_iff in E. exfalso. exact (Qlt_not_le _ _ H1 E).
Qed.

(** the ways a call of [time.sleep] ends *)
Lemma time_sleep_cases d w :
  time_sleep d w
  = (Ok tt, mkWorld (trace w ++ [Sleep d]) (now w + d) (requests w) (statements w)
                    (table w) (durable w) (progress_json w))
  \/ exists e,
       (e = ValueError \/ e = OverflowError)
       /\ time_sleep d w
          = (Raise e, mkWorld (trace w ++ [Sleep d]) (now w) (requests w) (statements w)
                              (table w) (durable w) (progress_json w)).
Proof.
  unfold time_sleep. destruct (Qle_bool 0 d); cbn [negb].
  - destruct (Qle_bool d sleep_max); cbn [negb]; [now left | right].
    exists OverflowError. split; [now right | reflexivity].
  - right. exists ValueError. split; [now left | reflexivity].
Qed.

(** ** The fetcher *)

Section Fetcher.

Variable server : nat -> string -> Response.

Lemma retry_status_not_200 s : retry_status s = true -> (s =? 200)%Z = false.
Proof. unfold retry_status. lia. Qed.

Lemma retry_status_not_403 s : retry_status s = true -> (s =? 403)%Z = false.
Proof. unfold retry_status. lia. Qed.

Lemma make_request_200 fuel url w :
  status_code (server (requests w) url) = 200%Z ->
  make_request server (S fuel) url w
  = (Ok (Some (server (requests w) url)), after (requests_get server url) w).
Proof.
  intros H. cbn [make_request]. unfold bind at 1. cbn [requests_get].
  now rewrite H.
Qed.

(** a 403 whose reset time reads [t]: the line on the console, then the
    call of [time.sleep] *)
Lemma make_request_403 fuel url w t :
  status_code (server (requests w) url) = 403%Z ->
  x_ratelimit_reset (server (requests w) url) = Some (Some t) ->
  make_request server (S fuel) url w
  = bind (time_sleep (max0 (inject_Z t - now w)))
         (fun _ => make_request server fuel url)
         (after (print (RateLimited (max0 (inject_Z t - now w))))
            (after (requests_get server url) w)).
Proof.
  intros Hs Hh. cbn [make_request]. unfold bind at 1. cbn [requests_get].
  rewrite Hs, Hh. reflexivity.
Qed.

Lemma make_request_rate_limited fuel url w t :
  status_code (server (requests w) url) = 403%Z ->
  x_ratelimit_reset (server (requests w) url) = Some (Some t) ->
  (max0 (inject_Z t - now w) <= sleep_max)%Q ->
  make_request server (S fuel) url w
  = make_request server fuel url
      (after (time_sleep (max0 (inject_Z t - now w)))
         (after (print (RateLimited (max0 (inject_Z t - now w))))
            (after (requests_get server url) w))).
Proof.
  intros Hs Hh Hd. rewrite (make_request_403 fuel url w t Hs Hh).
  unfold bind at 1. unfold after.
  now rewrite (time_sleep_accepted _ _ (max0_nonneg _) Hd).
Qed.

Lemma make_request_far_reset fuel url w t :
  status_code (server (requests w) url) = 403%Z ->
  x_ratelimit_reset (server (requests w) url) = Some (Some t) ->
  (sleep_max < max0 (inject_Z t - now w))%Q ->
  make_request server (S fuel) url w
  = (Raise OverflowError,
     after (time_sleep (max0 (inject_Z t - now w)))
       (after (print (RateLimited (max0 (inject_Z t - now w))))
          (after (requests_get server url) w))).
Proof.
  intros Hs Hh Hd. rewrite (make_request_403 fuel url w t Hs Hh).
  unfold bind at 1. unfold after.
  now rewrite (time_sleep_too_long _ _ (max0_nonneg _) Hd).
Qed.

Lemma make_request_bad_header fuel url w :
  status_code (server (requests w) url) = 403%Z ->
  x_ratelimit_reset (server (requests w) url) = Some None ->
  make_request server (S fuel) url w
  = (Raise ValueError, after (requests_get server url) w).
Proof.
  intros Hs Hh. cbn [make_request]. unfold bind at 1. cbn [requests_get].
  rewrite Hs, Hh. reflexivity.
Qed.

Lemma make_request_transient fuel url w :
  retry_status (status_code (server (requests w) url)) = true ->
  make_request server (S fuel) url w
  = make_request server fuel url
      (after (time_sleep 5)
         (after (print (TempError (status_code (server (requests w) url))))
            (after (requests_get server url) w))).
Proof.
  intros Hs. cbn [make_request]. unfold bind at 1. cbn [requests_get].
  rewrite (retry_status_not_200 _ Hs), (retry_status_not_403 _ Hs), Hs. reflexivity.
Qed.

Lemma make_request_gives_up fuel url w :
  gives_up (server (requests w) url) = true ->
  make_request server (S fuel) url w
  = (Ok None,
     after (print (RequestFailed (status_code (server (requests w) url)) url))
       (after (requests_get server url) w)).
Proof.
  unfold gives_up. intros H.
  apply andb_prop in H as [H H3]. apply andb_prop in H as [H1 H2].
  apply negb_true_iff in H1, H2, H3.
  cbn [make_request]. unfold bind at 1. cbn [requests_get].
  rewrite H1, H2, H3. reflexivity.
Qed.

(** every reply is of one of four kinds *)
Lemma reply_cases r :
  status_code r = 200%Z \/ waits r = true \/ gives_up r = true
  \/ (status_code r = 403%Z /\ x_ratelimit_reset r = Some None).
Proof.
  unfold waits, gives_up.
  destruct (status_code r =? 200)%Z eqn:E200; [left; now apply Z.eqb_eq | right].
  destruct (status_code r =? 403)%Z eqn:E403; cbn [andb negb].
  - apply Z.eqb_eq in E403.
    destruct (x_ratelimit_reset r) as [[t | ] | ]; cbn [header_present]; auto.
    right. left. rewrite E403. reflexivity.
  - destruct (retry_status (status_code r)); auto.
Qed.

(** a reply to wait on: a GET, a line on the console and a call of
    [time.sleep]; then the loop is entered again with the same URL, unless
    the pause asked for is beyond what [time.sleep] takes *)
Lemma make_request_round fuel url w :
  waits (server (requests w) url) = true ->
  exists w2 m d,
    trace w2 = trace w ++ [Get url (server (requests w) url); Print m; Sleep d]
    /\ requests w2 = S (requests w)
    /\ (make_request server (S fuel) url w = make_request server fuel url w2
        /\ (now w <= now w2)%Q
        \/ make_request server (S fuel) url w = (Raise OverflowError, w2)
           /\ exists t,
                status_code (server (requests w) url) = 403%Z
                /\ x_ratelimit_reset (server (requests w) url) = Some (Some t)
                /\ m = RateLimited d /\ d = max0 (inject_Z t - now w)
                /\ (sleep_max < d)%Q).
Proof.
  unfold waits. intros H. apply andb_prop in H as [H1 H2].
  apply negb_true_iff in H1.
  destruct ((status_code (server (requests w) url) =? 403)%Z
            && header_present (x_ratelimit_reset (server (requests w) url)))%bool eqn:E.
  - apply andb_prop in E as [E1 E2]. apply Z.eqb_eq in E1.
    destruct (x_ratelimit_reset (server (requests w) url)) as [[t | ] | ] eqn:Eh;
      try discriminate.
    destruct (Qle_bool (max0 (inject_Z t - now w)) sleep_max) eqn:Ed.
    + apply Qle_bool_iff in Ed.
      eexists. exists (RateLimited (max0 (inject_Z t - now w))), (max0 (inject_Z t - now w)).
      split; [ | split; [ | left; split;
                            [apply (make_request_rate_limited fuel url w t E1 Eh Ed) | ]]].
      * unfold after at 1. rewrite (time_sleep_accepted _ _ (max0_nonneg _) Ed).
        cbn. now rewrite <- !app_assoc.
      * unfold after at 1. now rewrite (time_sleep_accepted _ _ (max0_nonneg _) Ed).
      * unfold after at 1. rewrite (time_sleep_accepted _ _ (max0_nonneg _) Ed).
        cbn. rewrite <- (Qplus_0_r (now w)) at 1. apply Qplus_le_r, max0_nonneg.
    + assert (Hd : (sleep_max < max0 (inject_Z t - now w))%Q).
      { apply Qnot_le_lt. intros Hle. apply Qle_bool_iff in Hle. congruence. }
      eexists. exists (RateLimited (max0 (inject_Z t - now w))), (max0 (inject_Z t - now w)).
      split; [ | split; [ | right; split;
                            [apply (make_request_far_reset fuel url w t E1 Eh Hd) | ]]].
      * unfold after at 1. rewrite (time_sleep_too_long _ _ (max0_nonneg _) Hd).
        cbn. now rewrite <- !app_assoc.
      * unfold after at 1. now rewrite (time_sleep_too_long _ _ (max0_nonneg _) Hd).
      * exists t. now repeat split.
  - eexists. exists (TempError (status_code (server (requests w) url))), 5%Q.
    split; [ | split; [ | left; split; [apply (make_request_transient fuel url w H2) | ]]].
    + cbn. now rewrite <- !app_assoc.
    + reflexivity.
    + cbn. rewrite <- (Qplus_0_r (now w)) at 1. apply Qplus_le_r. unfold Qle. cbn. lia.
Qed.

Lemma brief_later clock later r :
  (clock <= later)%Q -> brief clock r = true -> brief later r = true.
Proof.
  unfold brief. intros Hle.
  destruct ((status_code r =? 403)%Z && header_present (x_ratelimit_reset r))%bool;
    [ | reflexivity].
  destruct (x_ratelimit_reset r) as [[t | ] | ]; try reflexivity.
  intros H. apply Qle_bool_iff in H. apply Qle_bool_iff.
  apply Qle_trans with (inject_Z t - clock)%Q; [ | exact H].
  apply Qplus_le_r, Qopp_le_compat, Hle.
Qed.

(** one round of waiting on a reply whose pause [time.sleep] takes *)
Lemma make_request_waits fuel url w clock :
  (clock <= now w)%Q ->
  waits (server (requests w) url) = true ->
  brief clock (server (requests w) url) = true ->
  exists w2,
    make_request server (S fuel) url w = make_request server fuel url w2
    /\ requests w2 = S (requests w)
    /\ (clock <= now w2)%Q
    /\ exists m d, trace w2 = trace w ++ [Get url (server (requests w) url); Print m; Sleep d].
Proof.
  intros Hclock Hw Hb.
  destruct (make_request_round fuel url w Hw)
    as (w2 & m & d & Ht & Hr & [[Hgo Hnow] | [_ (t & Hs & Hh & _ & -> & Hfar)]]).
  - exists w2. split; [exact Hgo | ]. split; [exact Hr | ].
    split; [now apply Qle_trans with (now w) | now exists m, d].
  - exfalso. apply (brief_later clock (now w) _ Hclock) in Hb.
    unfold brief in Hb. rewrite Hs, Hh in Hb. cbn in Hb.
    apply Qle_bool_iff, max0_bounded in Hb. exact (Qlt_not_le _ _ Hfar Hb).
Qed.

Lemma make_request_any_number_of_waits n : forall fuel url w clock,
  (clock <= now w)%Q ->
  (forall i, (i < n)%nat ->
     waits (server (requests w + i) url) = true
     /\ brief clock (server (requests w + i) url) = true) ->
  status_code (server (requests w + n) url) = 200%Z ->
  exists w',
    make_request server (S n + fuel) url w = (Ok (Some (server (requests w + n) url)), w')
    /\ requests w' = (requests w + S n)%nat
    /\ (clock <= now w')%Q
    /\ exists new, trace w' = trace w ++ new
                   /\ urls_got new = repeat url (S n)
                   /\ length (sleeps new) = n
                   /\ executed new = [].
Proof.
  induction n as [ | n IH]; intros fuel url w clock Hclock Hw H200.
  - rewrite Nat.add_0_r in H200. rewrite Nat.add_0_r.
    eexists. split; [apply (make_request_200 _ _ _ H200) | ].
    split; [cbn; lia | ]. split; [exact Hclock | ].
    exists [Get url (server (requests w) url)]. repeat split.
  - destruct (make_request_waits (S n + fuel) url w clock Hclock)
      as (w2 & Hstep & Hreq & Hnow & m & d & Htr).
    { specialize (Hw 0%nat). rewrite Nat.add_0_r in Hw. apply Hw. lia. }
    { specialize (Hw 0%nat). rewrite Nat.add_0_r in Hw. apply Hw. lia. }
    destruct (IH fuel url w2 clock Hnow)
      as (w' & Hrun & Hreq' & Hnow' & new & Hnew & Hurls & Hsl & Hex).
    { intros i Hi. rewrite Hreq. replace (S (requests w) + i)%nat with (requests w + S i)%nat by lia.
      apply Hw. lia. }
    { rewrite Hreq. now replace (S (requests w) + n)%nat with (requests w + S n)%nat by lia. }
    exists w'. split; [ | split; [ | split; [exact Hnow' | ]]].
    + change (S (S n) + fuel)%nat with (S (S n + fuel)). rewrite Hstep, Hrun.
      rewrite Hreq. now replace (S (requests w) + n)%nat with (requests w + S n)%nat by lia.
    + rewrite Hreq', Hreq. lia.
    + exists ([Get url (server (requests w) url); Print m; Sleep d] ++ new). repeat split.
      * rewrite Hnew, Htr. now rewrite <- app_assoc.
      * unfold urls_got in *. rewrite flat_map_app, Hurls. reflexivity.
      * unfold sleeps in *. rewrite flat_map_app, length_app, Hsl. reflexivity.
      * unfold executed in *. rewrite flat_map_app, Hex. reflexivity.
Qed.

(** the same, the reply after the waits being one that ends the call with
    [None] *)
Lemma make_request_gives_up_after_waits n : forall fuel url w clock,
  (clock <= now w)%Q ->
  (forall i, (i < n)%nat ->
     waits (server (requests w + i) url) = true
     /\ brief clock (server (requests w + i) url) = true) ->
  gives_up (server (requests w + n) url) = true ->
  exists w',
    make_request server (S n + fuel) url w = (Ok None, w')
    /\ requests w' = (requests w + S n)%nat
    /\ (clock <= now w')%Q
    /\ exists new, trace w' = trace w ++ new
                   /\ urls_got new = repeat url (S n)
                   /\ length (sleeps new) = n
                   /\ executed new = [].
Proof.
  induction n as [ | n IH]; intros fuel url w clock Hclock Hw Hgive.
  - rewrite Nat.add_0_r in Hgive.
    eexists. split; [apply (make_request_gives_up _ _ _ Hgive) | ].
    split; [cbn; lia | ]. split; [exact Hclock | ].
    eexists. split; [cbn; rewrite <- app_assoc; reflexivity | ]. repeat split.
  - destruct (make_request_waits (S n + fuel) url w clock Hclock)
      as (w2 & Hstep & Hreq & Hnow & m & d & Htr).
    { specialize (Hw 0%nat). rewrite Nat.add_0_r in Hw. apply Hw. lia. }
    { specialize (Hw 0%nat). rewrite Nat.add_0_r in Hw. apply Hw. lia. }
    destruct (IH fuel url w2 clock Hnow)
      as (w' & Hrun & Hreq' & Hnow' & new & Hnew & Hurls & Hsl & Hex).
    { intros i Hi. rewrite Hreq. replace (S (requests w) + i)%nat with (requests w + S i)%nat by lia.
      apply Hw. lia. }
    { rewrite Hreq. now replace (S (requests w) + n)%nat with (requests w + S n)%nat by lia. }
    exists w'. split; [ | split; [ | split; [exact Hnow' | ]]].
    + change (S (S n) + fuel)%nat with (S (S n + fuel)). now rewrite Hstep, Hrun.
    + rewrite Hreq', Hreq. lia.
    + exists ([Get url (server (requests w) url); Print m; Sleep d] ++ new). repeat split.
      * rewrite Hnew, Htr. now rewrite <- app_assoc.
      * unfold urls_got in *. rewrite flat_map_app, Hurls. reflexivity.
      * unfold sleeps in *. rewrite flat_map_app, length_app, Hsl. reflexivity.
      * unfold executed in *. rewrite flat_map_app, Hex. reflexivity.
Qed.



End Fetcher.

(** ** The store *)

Lemma find_row_none_count url rows :
  find_row url rows = None -> count_rows url rows = 0%nat.
Proof.
  unfold count_rows. induction rows as [ | r rows IH]; cbn; [reflexivity | ].
  destruct (issue_url r =? url)%string; [discriminate | exact IH].
Qed.

Lemma find_row_none_not_in url rows :
  find_row url rows = None -> ~ In url (map issue_url rows).
Proof.
  induction rows as [ | r rows IH]; cbn; [tauto | ].
  destruct (String.eqb_spec (issue_url r) url); [discriminate | ].
  intros H [E | Hin]; [contradiction | now apply IH].
Qed.

Lemma not_in_find_row_none url rows :
  ~ In url (map issue_url rows) -> find_row url rows = None.
Proof.
  induction rows as [ | r rows IH]; cbn; [reflexivity | ].
  intros H. destruct (String.eqb_spec (issue_url r) url); [tauto | apply IH; tauto].
Qed.

Lemma find_row_some_count url rows r :
  NoDup (map issue_url rows) -> find_row url rows = Some r -> count_rows url rows = 1%nat.
Proof.
  unfold count_rows. induction rows as [ | r' rows IH]; cbn; [discriminate | ].
  intros Hnd. inversion Hnd as [ | k ks Hnotin Hnd']; subst.
  destruct (String.eqb_spec (issue_url r') url) as [E | E].
  - intros _. cbn. f_equal. apply find_row_none_count, not_in_find_row_none.
    now rewrite <- E.
  - now apply IH.
Qed.

Lemma find_row_app url rows more :
  find_row url (rows ++ more)
  = match find_row url rows with Some r => Some r | None => find_row url more end.
Proof.
  induction rows as [ | r rows IH]; cbn; [reflexivity | ].
  now destruct (issue_url r =? url)%string.
Qed.

Lemma insert_or_ignore_unique r rows :
  NoDup (map issue_url rows) -> NoDup (map issue_url (fst (insert_or_ignore r rows))).
Proof.
  unfold insert_or_ignore. intros H.
  destruct (find_row (issue_url r) rows) eqn:E; cbn; [exact H | ].
  rewrite map_app. cbn.
  apply find_row_none_not_in in E.
  clear - H E. induction (map issue_url rows) as [ | k ks IH]; cbn.
  - constructor; [tauto | constructor].
  - inversion H; subst. constructor.
    + rewrite in_app_iff. cbn. intros [Hin | [Hk | []]]; [tauto | ].
      apply E. now left.
    + apply IH; [assumption | ]. intros Hin. apply E. now right.
Qed.

Lemma insert_or_ignore_present r rows :
  find_row (issue_url r) (fst (insert_or_ignore r rows))
  = match find_row (issue_url r) rows with Some old => Some old | None => Some r end.
Proof.
  unfold insert_or_ignore. destruct (find_row (issue_url r) rows) eqn:E; cbn.
  - exact E.
  - rewrite find_row_app, E. cbn. now rewrite String.eqb_refl.
Qed.

Section Store.

Variable db_fault : nat -> option string.

Lemma cursor_execute_ok r w :
  db_fault (statements w) = None ->
  exists w1,
    cursor_execute db_fault r w = (Ok (snd (insert_or_ignore r (table w))), w1)
    /\ table w1 = fst (insert_or_ignore r (table w))
    /\ statements w1 = S (statements w).
Proof.
  intros H. unfold cursor_execute. rewrite H.
  destruct (insert_or_ignore r (table w)) as [rows rowcount].
  eexists. split; [reflexivity | ]. split; reflexivity.
Qed.

(** C2.  Inserting a record and then a record with the same [issue_url]
    (the same record in particular) raises nothing, leaves exactly one row
    under that key, and the second INSERT changes no row and reports
    rowcount 0; when the key was new, the row kept is the first record.
    In the insert loop of [populate_db_from_prs] the second INSERT
    therefore adds nothing to the two counters. *)
Theorem upsert_idempotent (first second : Row) (w : World) :
  issue_url second = issue_url first ->
  NoDup (map issue_url (table w)) ->
  db_fault (statements w) = None ->
  db_fault (S (statements w)) = None ->
  (exists c1 w1 w2,
      cursor_execute db_fault first w = (Ok c1, w1)
      /\ cursor_execute db_fault second w1 = (Ok 0%Z, w2)
      /\ table w2 = table w1
      /\ count_rows (issue_url first) (table w2) = 1%nat
      /\ (find_row (issue_url first) (table w) = None ->
          c1 = 1%Z /\ find_row (issue_url first) (table w2) = Some first))
  /\ (find_row (issue_url first) (table w) = None ->
      forall added total, exists w2,
        save_linked_issues db_fault (repo_name first) (pull_request_url first)
          (languages first) (before_code_url first) (after_code_url first)
          (affected_files first) [issue_url first; issue_url first] added total w
        = (Ok ((added + 1)%Z, (total + 1)%Z), w2)
        /\ count_rows (issue_url first) (table w2) = 1%nat).
Proof.
  intros Hkey Hnd Hf1 Hf2.
  destruct (cursor_execute_ok first w Hf1) as (w1 & H1 & Ht1 & Hs1).
  assert (Hpresent : exists kept, find_row (issue_url first) (table w1) = Some kept
                                  /\ (find_row (issue_url first) (table w) = None -> kept = first)).
  { rewrite Ht1, insert_or_ignore_present.
    destruct (find_row (issue_url first) (table w)) as [old | ].
    - exists old. split; [reflexivity | discriminate].
    - exists first. split; reflexivity. }
  destruct Hpresent as (kept & Hkept & Hfirst).
  assert (Hnd1 : NoDup (map issue_url (table w1))).
  { rewrite Ht1. now apply insert_or_ignore_unique. }
  assert (Hsecond : forall r, issue_url r = issue_url first ->
                              insert_or_ignore r (table w1) = (table w1, 0%Z)).
  { intros r Hr. unfold insert_or_ignore. now rewrite Hr, Hkept. }
  split.
  - destruct (cursor_execute_ok second w1) as (w2 & H2 & Ht2 & _).
    { now rewrite Hs1. }
    rewrite (Hsecond second Hkey) in H2, Ht2. cbn in H2, Ht2.
    exists (snd (insert_or_ignore first (table w))), w1, w2.
    split; [exact H1 | ]. split; [exact H2 | ]. split; [exact Ht2 | ].
    split.
    + rewrite Ht2. now apply find_row_some_count with (r := kept).
    + intros Hnew. split.
      * unfold insert_or_ignore. now rewrite Hnew.
      * rewrite Ht2, Hkept. f_equal. now apply Hfirst.
  - intros Hnew added total.
    destruct first as [u rn pu la be af fi]. cbn [issue_url repo_name pull_request_url languages
      before_code_url after_code_url affected_files] in *.
    set (row := mkRow u rn pu la be af fi) in *.
    destruct (cursor_execute_ok row w1) as (w2 & H2 & Ht2 & _).
    { now rewrite Hs1. }
    rewrite (Hsecond row eq_refl) in H2, Ht2. cbn in H2, Ht2.
    exists w2. split.
    + cbn [save_linked_issues]. fold row.
      unfold bind at 1. unfold try_sqlite at 1. unfold bind at 1.
      rewrite H1. unfold insert_or_ignore. cbn [issue_url row]. rewrite Hnew.
      cbn [snd Z.gtb Z.compare ret].
      unfold bind at 1. unfold try_sqlite at 1. unfold bind at 1.
      rewrite H2. reflexivity.
    + rewrite Ht2. now apply find_row_some_count with (r := kept).
Qed.

End Store.

(** ** Storage errors stay inside the insert loop *)

Lemma quiet_obind {A B} (o : Outcome A) (k : A -> Outcome B) :
  quiet o -> (forall a, quiet (k a)) -> quiet (obind o k).
Proof.
  unfold quiet. intros Ho Hk msg. destruct o; cbn; try discriminate.
  - apply Hk.
  - intros [= E]. now apply (Ho msg); rewrite E.
Qed.

Ltac quiet_by_cases :=
  unfold quiet; intros;
  repeat match goal with
         | |- context [match ?x with _ => _ end] => destruct x
         | |- context [if ?b then _ else _] => destruct b
         end; discriminate.

Lemma quiet_get d k v : quiet (get d k v).
Proof. unfold get. quiet_by_cases. Qed.

Lemma quiet_getitem d k : quiet (getitem d k).
Proof. unfold getitem. quiet_by_cases. Qed.

Lemma quiet_iter v : quiet (iter v).
Proof. unfold iter. quiet_by_cases. Qed.

Lemma quiet_keys v : quiet (keys v).
Proof. unfold keys. quiet_by_cases. Qed.

Lemma quiet_len v : quiet (len v).
Proof. unfold len. quiet_by_cases. Qed.

Lemma quiet_str v : quiet (str v).
Proof. unfold str. quiet_by_cases. Qed.

Lemma quiet_text v : quiet (text v).
Proof. unfold text. quiet_by_cases. Qed.

Lemma quiet_text_or_none v : quiet (text_or_none v).
Proof. unfold text_or_none. quiet_by_cases. Qed.

Lemma quiet_int_header h : quiet (int_header h).
Proof. unfold int_header. quiet_by_cases. Qed.

Lemma quiet_index_from_end parts k : quiet (index_from_end parts k).
Proof. unfold index_from_end. quiet_by_cases. Qed.

Lemma quiet_ok {A} (a : A) : quiet (Ok a).
Proof. intros msg. discriminate. Qed.

Create HintDb quiet.
#[local] Hint Resolve quiet_get quiet_getitem quiet_iter quiet_keys quiet_len quiet_str
  quiet_text quiet_text_or_none quiet_int_header quiet_index_from_end quiet_ok : quiet.

Lemma quiet_traverse {A B} (f : A -> Outcome B) l :
  (forall a, quiet (f a)) -> quiet (traverse f l).
Proof.
  intros Hf. induction l as [ | a l IH]; cbn [traverse]; [apply quiet_ok | ].
  apply quiet_obind; [apply Hf | intros b].
  apply quiet_obind; [apply IH | intros bs; apply quiet_ok].
Qed.

Lemma quiet_merged_only data : quiet (merged_only data).
Proof.
  induction data as [ | pr data IH]; cbn [merged_only]; [apply quiet_ok | ].
  apply quiet_obind; [apply quiet_get | intros m].
  apply quiet_obind; [apply IH | intros tail; apply quiet_ok].
Qed.

Lemma quiet_not_processed repos names : quiet (not_processed repos names).
Proof.
  induction repos as [ | repo repos IH]; cbn [not_processed]; [apply quiet_ok | ].
  apply quiet_obind.
  - apply quiet_obind; auto with quiet.
  - intros name. apply quiet_obind; [apply IH | intros tail; apply quiet_ok].
Qed.

Lemma quiet_files_url_of u : quiet (files_url_of u).
Proof.
  unfold files_url_of. destruct (contains "github.com" u); [ | apply quiet_ok].
  repeat (apply quiet_obind; [apply quiet_index_from_end | intros ?]). apply quiet_ok.
Qed.

Lemma quiet_commit_url name sha : quiet (commit_url name sha).
Proof.
  unfold commit_url. destruct (truthy sha); [ | apply quiet_ok].
  apply quiet_obind; [apply quiet_str | intros s; apply quiet_ok].
Qed.

Lemma quiet_sha_of pr side : quiet (sha_of pr side).
Proof. unfold sha_of. apply quiet_obind; [apply quiet_get | intros ref; apply quiet_get]. Qed.

Lemma quiet_get_issues_from_pr pr name : quiet (get_issues_from_pr pr name).
Proof.
  unfold get_issues_from_pr. apply quiet_obind; [apply quiet_get | intros body].
  quiet_by_cases.
Qed.

#[local] Hint Resolve quiet_traverse quiet_merged_only quiet_not_processed quiet_files_url_of
  quiet_commit_url quiet_get_issues_from_pr quiet_obind quiet_sha_of : quiet.

Section Containment.

Variable server : nat -> string -> Response.
Variable db_fault : nat -> option string.

Lemma save_linked_issues_attempts_all repo pr langs before after files urls :
  forall added total w,
  exists added' total' w' new,
    save_linked_issues db_fault repo pr langs before after files urls added total w
    = (Ok (added', total'), w')
    /\ trace w' = trace w ++ new
    /\ executed new = map (fun u => mkRow u repo pr langs before after files) urls
    /\ db_errors new = failures new.
Proof.
  induction urls as [ | u urls IH]; intros added total w.
  - exists added, total, w, []. cbn. now rewrite app_nil_r.
  - cbn [save_linked_issues]. unfold bind at 1. unfold try_sqlite at 1.
    unfold bind at 1. unfold cursor_execute at 1.
    destruct (db_fault (statements w)) as [msg | ] eqn:Ef.
    + cbn [print emit bind ret].
      match goal with |- context [save_linked_issues _ _ _ _ _ _ _ _ ?a ?t ?w1] =>
        destruct (IH a t w1) as (added' & total' & w' & new & Hrun & Htr & Hex & Herr) end.
      exists added', total', w'. eexists. split; [exact Hrun | ].
      split; [rewrite Htr; cbn [trace]; rewrite <- !app_assoc; reflexivity | ].
      unfold executed, db_errors, failures in *. rewrite !flat_map_app. cbn.
      split; [now f_equal | now f_equal].
    + destruct (insert_or_ignore _ (table w)) as [rows rowcount].
      destruct (rowcount >? 0)%Z; cbn [ret];
        match goal with |- context [save_linked_issues _ _ _ _ _ _ _ _ ?a ?t ?w1] =>
          destruct (IH a t w1) as (added' & total' & w' & new & Hrun & Htr & Hex & Herr) end;
        exists added', total', w'; eexists; (split; [exact Hrun | ]);
        (split; [rewrite Htr; cbn [trace]; rewrite <- !app_assoc; reflexivity | ]);
        unfold executed, db_errors, failures in *; cbn;
        (split; [now f_equal | assumption]).
Qed.

End Containment.

(** ** A failed INSERT changes nothing of what follows *)

Lemma failures_app ev1 ev2 : failures (ev1 ++ ev2) = failures ev1 ++ failures ev2.
Proof. unfold failures. apply flat_map_app. Qed.

Lemma db_errors_app ev1 ev2 : db_errors (ev1 ++ ev2) = db_errors ev1 ++ db_errors ev2.
Proof. unfold db_errors. apply flat_map_app. Qed.

Lemma urls_got_app ev1 ev2 : urls_got (ev1 ++ ev2) = urls_got ev1 ++ urls_got ev2.
Proof. unfold urls_got. apply flat_map_app. Qed.

Lemma executed_app ev1 ev2 : executed (ev1 ++ ev2) = executed ev1 ++ executed ev2.
Proof. unfold executed. apply flat_map_app. Qed.

(** an action that does the same from any two worlds in step and leaves
    the store alone *)
Lemma mirrors_plain {A} (m : M A) (new : list Event) :
  executed new = [] -> db_errors new = [] -> failures new = [] ->
  (forall w1 w2, in_step w1 w2 ->
     in_step (after m w1) (after m w2)
     /\ fst (m w1) = fst (m w2)
     /\ trace (after m w1) = trace w1 ++ new
     /\ trace (after m w2) = trace w2 ++ new) ->
  mirrors eq m m.
Proof.
  intros Hx He Hf H w1 w2 Hstep. destruct (H w1 w2 Hstep) as (Hs & Ho & Ht1 & Ht2).
  split; [exact Hs | ]. split.
  - rewrite Ho. now destruct (fst (m w2)).
  - exists new, new. now rewrite He, Hf.
Qed.

Lemma mirrors_ret {A B} (E : A -> B -> Prop) a b : E a b -> mirrors E (ret a) (ret b).
Proof.
  intros H w1 w2 Hstep. split; [exact Hstep | ]. split; [exact H | ].
  exists [], []. cbn. now rewrite !app_nil_r.
Qed.

Lemma mirrors_lift {A} (o : Outcome A) : mirrors eq (lift o) (lift o).
Proof.
  intros w1 w2 Hstep. split; [exact Hstep | ]. split; [now destruct o | ].
  exists [], []. cbn. now rewrite !app_nil_r.
Qed.

Lemma mirrors_response_json r : mirrors eq (response_json r) (response_json r).
Proof.
  unfold response_json. destruct (payload r); [now apply mirrors_ret | apply mirrors_lift].
Qed.

Lemma mirrors_print m1 m2 :
  db_errors [Print m1] = [] -> db_errors [Print m2] = [] -> mirrors eq (print m1) (print m2).
Proof.
  intros H1 H2 w1 w2 Hstep. split; [exact Hstep | ]. split; [reflexivity | ].
  exists [Print m1], [Print m2]. now rewrite H1, H2.
Qed.

Lemma mirrors_time_sleep d : mirrors eq (time_sleep d) (time_sleep d).
Proof.
  intros w1 w2 [Hr Hn]. unfold after, time_sleep.
  destruct (negb (Qle_bool 0 d)); [ | destruct (negb (Qle_bool d sleep_max))];
    cbn [fst snd trace requests now alike];
    (split; [split; [exact Hr | now rewrite ?Hn] | ]);
    (split; [reflexivity | ]); exists [Sleep d], [Sleep d]; now repeat split.
Qed.

Lemma mirrors_time_time : mirrors eq time_time time_time.
Proof.
  intros w1 w2 Hstep. split; [exact Hstep | ]. split; [exact (proj2 Hstep) | ].
  exists [], []. cbn. now rewrite !app_nil_r.
Qed.

Lemma mirrors_conn_commit : mirrors eq conn_commit conn_commit.
Proof.
  intros w1 w2 Hstep. split; [exact Hstep | ]. split; [reflexivity | ].
  exists [Commit], [Commit]. now repeat split.
Qed.

Lemma mirrors_sqlite_connect : mirrors eq sqlite_connect sqlite_connect.
Proof.
  intros w1 w2 Hstep. split; [exact Hstep | ]. split; [reflexivity | ].
  exists [], []. cbn. now rewrite !app_nil_r.
Qed.

Lemma mirrors_conn_close : mirrors eq conn_close conn_close.
Proof. apply mirrors_sqlite_connect. Qed.

Lemma mirrors_requests_get server url :
  mirrors eq (requests_get server url) (requests_get server url).
Proof.
  intros w1 w2 [Hr Hn]. cbn [after requests_get snd fst trace requests now alike].
  rewrite Hr. split; [now split | ]. split; [reflexivity | ].
  eexists _, _. now repeat split.
Qed.

Lemma mirrors_bind {A1 A2 B1 B2} (E : A1 -> A2 -> Prop) (E' : B1 -> B2 -> Prop)
      (m1 : M A1) (m2 : M A2) (k1 : A1 -> M B1) (k2 : A2 -> M B2) :
  mirrors E m1 m2 ->
  (forall a1 a2, E a1 a2 -> mirrors E' (k1 a1) (k2 a2)) ->
  mirrors E' (bind m1 k1) (bind m2 k2).
Proof.
  intros Hm Hk w1 w2 Hstep.
  destruct (Hm w1 w2 Hstep) as (Hs & Ha & n1 & n2 & Ht1 & Ht2 & Hx & Hu & He1 & He2).
  unfold after, bind in *.
  destruct (m1 w1) as [[a1 | e1 | | ] v1], (m2 w2) as [[a2 | e2 | | ] v2];
    cbn [fst snd alike] in *; try contradiction;
    try (split; [exact Hs | ]; split; [assumption || exact I | ];
         exists n1, n2; now repeat split).
  destruct (Hk a1 a2 Ha v1 v2 Hs) as (Hs' & Hb & p1 & p2 & Hv1 & Hv2 & Hy & Hw & Hf1 & Hf2).
  unfold after in *. split; [exact Hs' | ]. split; [exact Hb | ].
  exists (n1 ++ p1), (n2 ++ p2).
  split; [now rewrite Hv1, Ht1, app_assoc | ]. split; [now rewrite Hv2, Ht2, app_assoc | ].
  rewrite !executed_app, !urls_got_app, !db_errors_app, !failures_app.
  now rewrite Hx, Hy, Hu, Hw, He1, He2, Hf1, Hf2.
Qed.

Lemma mirrors_any {A B} (E : A -> B -> Prop) (m1 : M A) (m2 : M B) :
  mirrors E m1 m2 -> mirrors (fun _ _ => True) m1 m2.
Proof.
  intros H w1 w2 Hstep. destruct (H w1 w2 Hstep) as (Hs & Ha & Hnew).
  split; [exact Hs | ]. split; [ | exact Hnew].
  destruct (fst (m1 w1)), (fst (m2 w2)); cbn [alike] in *; auto.
Qed.

Create HintDb mirrors.
#[local] Hint Resolve mirrors_lift mirrors_response_json mirrors_time_sleep mirrors_time_time
  mirrors_conn_commit mirrors_sqlite_connect mirrors_conn_close mirrors_requests_get : mirrors.

Ltac mirrors_steps :=
  repeat first
    [ solve [eauto with mirrors]
    | apply mirrors_ret; solve [reflexivity | exact I]
    | apply mirrors_print; reflexivity
    | eapply mirrors_bind;
      [solve [eauto with mirrors | apply mirrors_print; reflexivity] | intros ? ? ?; try subst]
    | match goal with
      | |- mirrors _ (match ?x with _ => _ end) _ => destruct x
      | |- mirrors _ _ (match ?x with _ => _ end) => destruct x
      | |- mirrors _ (if ?b then _ else _) _ => destruct b
      | |- mirrors _ _ (if ?b then _ else _) => destruct b
      end ].

Section Mirror.

Variable server : nat -> string -> Response.
Variable db_fault db_fault' : nat -> option string.

Lemma mirrors_make_request fuel url :
  mirrors eq (make_request server fuel url) (make_request server fuel url).
Proof.
  induction fuel as [ | fuel IH]; cbn [make_request]; [apply mirrors_lift | ].
  mirrors_steps.
Qed.

#[local] Hint Resolve mirrors_make_request : mirrors.

Lemma mirrors_get_languages fuel name :
  mirrors eq (get_languages server fuel name) (get_languages server fuel name).
Proof. unfold get_languages. mirrors_steps. Qed.

Lemma mirrors_get_affected_files fuel pr_url :
  mirrors eq (get_affected_files server fuel pr_url) (get_affected_files server fuel pr_url).
Proof. unfold get_affected_files. mirrors_steps. Qed.

Lemma mirrors_get_merged_prs_loop fuel name per_page todo :
  forall prs total,
    mirrors eq (get_merged_prs_loop server fuel name per_page todo prs total)
            (get_merged_prs_loop server fuel name per_page todo prs total).
Proof.
  induction todo as [ | page todo IH]; intros prs total; cbn [get_merged_prs_loop];
    mirrors_steps.
Qed.

#[local] Hint Resolve mirrors_get_languages mirrors_get_affected_files
  mirrors_get_merged_prs_loop : mirrors.

Lemma mirrors_get_merged_prs fuel name per_page pages :
  mirrors eq (get_merged_prs server fuel name per_page pages)
          (get_merged_prs server fuel name per_page pages).
Proof. unfold get_merged_prs. mirrors_steps. Qed.

#[local] Hint Resolve mirrors_get_merged_prs : mirrors.

(** one INSERT inside its [try]: whether it fails on either side or not,
    both sides go on *)
Lemma mirrors_insert u repo pr langs base head files (a1 t1 a2 t2 : Z) :
  mirrors (fun _ _ => True)
    (try_sqlite
       (rowcount <- cursor_execute db_fault (mkRow u repo pr langs base head files) ;;
        if (rowcount >? 0)%Z then ret ((a1 + 1)%Z, (t1 + 1)%Z) else ret (a1, t1))
       (fun e => print (DbError e u) ;; ret (a1, t1)))
    (try_sqlite
       (rowcount <- cursor_execute db_fault' (mkRow u repo pr langs base head files) ;;
        if (rowcount >? 0)%Z then ret ((a2 + 1)%Z, (t2 + 1)%Z) else ret (a2, t2))
       (fun e => print (DbError e u) ;; ret (a2, t2))).
Proof.
  intros w1 w2 Hstep. unfold after, try_sqlite, bind, cursor_execute.
  destruct (db_fault (statements w1)) as [msg1 | ];
    destruct (db_fault' (statements w2)) as [msg2 | ];
    try destruct (insert_or_ignore _ (table w1)) as [rows1 c1];
    try destruct (insert_or_ignore _ (table w2)) as [rows2 c2];
    try destruct (c1 >? 0)%Z; try destruct (c2 >? 0)%Z;
    cbn [fst snd print emit ret trace requests now alike];
    (split; [exact Hstep | ]); (split; [exact I | ]);
    eexists _, _;
    (split; [rewrite <- ?app_assoc; reflexivity | ]);
    (split; [rewrite <- ?app_assoc; reflexivity | ]);
    now repeat split.
Qed.

Lemma mirrors_save_linked_issues repo pr langs base head files urls :
  forall a1 t1 a2 t2,
    mirrors (fun _ _ => True)
      (save_linked_issues db_fault repo pr langs base head files urls a1 t1)
      (save_linked_issues db_fault' repo pr langs base head files urls a2 t2).
Proof.
  induction urls as [ | u urls IH]; intros a1 t1 a2 t2; cbn [save_linked_issues].
  - now apply mirrors_ret.
  - eapply mirrors_bind; [apply mirrors_insert | ].
    intros [b1 u1] [b2 u2] _. apply IH.
Qed.

(** the commit check that follows a pull request *)
Lemma mirrors_commit_check (a1 a2 : Z) (name : string) :
  mirrors (fun _ _ => True)
    (if ((a1 >? 0) && (a1 mod 10 =? 0))%Z
     then conn_commit ;; print (Committed a1 name) else ret tt)
    (if ((a2 >? 0) && (a2 mod 10 =? 0))%Z
     then conn_commit ;; print (Committed a2 name) else ret tt).
Proof.
  intros w1 w2 Hstep.
  destruct ((a1 >? 0) && (a1 mod 10 =? 0))%Z; destruct ((a2 >? 0) && (a2 mod 10 =? 0))%Z;
    cbn [after bind conn_commit print emit ret fst snd trace requests now alike];
    (split; [exact Hstep | ]); (split; [exact I | ]).
  - exists [Commit; Print (Committed a1 name)], [Commit; Print (Committed a2 name)].
    rewrite <- !app_assoc. now repeat split.
  - exists [Commit; Print (Committed a1 name)], []. rewrite <- !app_assoc, app_nil_r.
    now repeat split.
  - exists [], [Commit; Print (Committed a2 name)]. rewrite <- !app_assoc, app_nil_r.
    now repeat split.
  - exists [], []. rewrite !app_nil_r. now repeat split.
Qed.

#[local] Hint Resolve mirrors_save_linked_issues mirrors_commit_check : mirrors.

Lemma mirrors_process_pr fuel name langs pr a1 t1 a2 t2 :
  mirrors (fun _ _ => True)
    (process_pr server db_fault fuel name langs pr a1 t1)
    (process_pr server db_fault' fuel name langs pr a2 t2).
Proof.
  unfold process_pr.
  eapply mirrors_bind; [apply mirrors_lift | intros pr_url ? <-].
  eapply mirrors_bind; [apply mirrors_lift | intros linked ? <-].
  eapply mirrors_bind with (E := fun _ _ => True).
  - destruct linked as [ | issue issues]; [now apply mirrors_ret | ]. mirrors_steps.
  - intros [b1 u1] [b2 u2] _.
    eapply mirrors_bind; [apply mirrors_commit_check | intros _ _ _].
    eapply mirrors_bind; [apply mirrors_time_sleep | intros _ _ _].
    now apply mirrors_ret.
Qed.

Lemma mirrors_process_prs fuel name langs prs :
  forall a1 t1 a2 t2,
    mirrors (fun _ _ => True)
      (process_prs server db_fault fuel name langs prs a1 t1)
      (process_prs server db_fault' fuel name langs prs a2 t2).
Proof.
  induction prs as [ | pr prs IH]; intros a1 t1 a2 t2; cbn [process_prs].
  - now apply mirrors_ret.
  - eapply mirrors_bind; [apply mirrors_process_pr | ].
    intros [b1 u1] [b2 u2] _. apply IH.
Qed.

#[local] Hint Resolve mirrors_process_prs : mirrors.

Lemma mirrors_process_repo fuel repo t1 t2 :
  mirrors (fun _ _ => True)
    (process_repo server db_fault fuel repo t1) (process_repo server db_fault' fuel repo t2).
Proof. unfold process_repo. mirrors_steps. Qed.

Lemma mirrors_process_repos fuel repos :
  forall t1 t2,
    mirrors (fun _ _ => True)
      (process_repos server db_fault fuel repos t1) (process_repos server db_fault' fuel repos t2).
Proof.
  induction repos as [ | repo repos IH]; intros t1 t2; cbn [process_repos].
  - now apply mirrors_ret.
  - eapply mirrors_bind; [apply mirrors_process_repo | intros ? ? _; apply IH].
Qed.

#[local] Hint Resolve mirrors_process_repos : mirrors.

Lemma mirrors_populate_db_from_prs fuel repos :
  mirrors (fun _ _ => True)
    (populate_db_from_prs server db_fault fuel repos)
    (populate_db_from_prs server db_fault' fuel repos).
Proof. unfold populate_db_from_prs. mirrors_steps. Qed.

End Mirror.

(** ** The paginated collector *)

Section Collector.

Variable server : nat -> string -> Response.

Lemma page_of_some r items :
  page_of r = Some items ->
  status_code r = 200%Z
  /\ exists fields, payload r = Some (JObj fields)
                    /\ get (JObj fields) "items" (JArr []) = Ok (JArr items).
Proof.
  unfold page_of. destruct (Z.eqb_spec (status_code r) 200); [ | discriminate].
  destruct (payload r) as [[ | | | | | fields] | ]; try discriminate.
  intros H. split; [assumption | ]. exists fields. split; [reflexivity | ].
  cbn [get]. destruct (assoc "items" fields) as [[ | | | | l | ] | ]; try discriminate;
    now inversion H.
Qed.

Lemma requests_made_app a b : requests_made (a ++ b) = (requests_made a + requests_made b)%nat.
Proof. induction a as [ | k a IH]; cbn [requests_made app]; [reflexivity | rewrite IH; lia]. Qed.

Lemma get_mit_repos_loop_run fuel query per_page pages taken last clock :
  forall m s repos w,
    (clock <= now w)%Q ->
    (length taken <= m)%nat ->
    (forall i k items, nth_error taken i = Some (k, items) ->
       (k <= fuel)%nat
       /\ exists r,
            replies_after server clock (search_url query per_page (Z.of_nat (s + i)))
                          (requests w + requests_made (map fst (firstn i taken))) k r
            /\ page_of r = Some items) ->
    ((length taken < m)%nat ->
       (last <= fuel)%nat
       /\ exists r,
            replies_after server clock
                          (search_url query per_page (Z.of_nat (s + length taken)))
                          (requests w + requests_made (map fst taken)) last r
            /\ gives_up r = true) ->
    exists w',
      get_mit_repos_loop server (S fuel) query per_page pages (map Z.of_nat (seq s m)) repos w
      = (Ok (repos ++ concat (map snd taken)), w')
      /\ exists new,
           trace w' = trace w ++ new
           /\ urls_got new
              = page_requests query per_page s
                  (map fst taken ++ if (length taken <? m)%nat then [last] else []).
Proof.
  induction taken as [ | [k items] taken IH]; intros m s repos w Hclock Hlen Hok Hfail.
  - destruct m as [ | m].
    + exists w. split; [cbn; now rewrite app_nil_r | ].
      exists []. now rewrite app_nil_r.
    + cbn [length map requests_made] in Hfail. rewrite !Nat.add_0_r in Hfail.
      destruct (Hfail ltac:(lia)) as (Hfuel & r & [Hwaits Hr] & Hgive). subst r.
      destruct (make_request_gives_up_after_waits server last (fuel - last)
                  (search_url query per_page (Z.of_nat s)) w clock Hclock Hwaits Hgive)
        as (w1 & Hrun & _ & _ & new1 & Ht1 & Hu1 & _).
      replace (S last + (fuel - last))%nat with (S fuel) in Hrun by lia.
      cbn [seq map get_mit_repos_loop].
      rewrite (bind_ok _ _ _ _ _ Hrun). run.
      eexists. split; [rewrite app_nil_r; reflexivity | ].
      exists (new1 ++ [Print (FetchReposFailed (Z.of_nat s))]).
      split; [rewrite Ht1; now rewrite <- app_assoc | ].
      unfold urls_got in *. rewrite flat_map_app, Hu1. cbn. now rewrite !app_nil_r.
  - destruct m as [ | m]; [cbn in Hlen; lia | ].
    destruct (Hok 0%nat k items eq_refl) as (Hfuel & r & [Hwaits Hr] & Hpage).
    cbn [firstn map requests_made] in Hwaits, Hr. rewrite !Nat.add_0_r in Hwaits, Hr.
    subst r. apply page_of_some in Hpage as (H200 & fields & Hpay & Hitems).
    destruct (make_request_any_number_of_waits server k (fuel - k)
                (search_url query per_page (Z.of_nat s)) w clock Hclock Hwaits H200)
      as (w1 & Hrun & Hreq1 & Hnow1 & new1 & Ht1 & Hu1 & _).
    replace (S k + (fuel - k))%nat with (S fuel) in Hrun by lia.
    cbn [seq map get_mit_repos_loop].
    rewrite (bind_ok _ _ _ _ _ Hrun).
    unfold response_json. rewrite Hpay. run.
    rewrite Hitems. cbn [iter len]. run.
    match goal with |- context [get_mit_repos_loop _ _ _ _ _ _ _ ?w2] =>
      destruct (IH m (S s) (repos ++ items) w2) as (w' & Hloop & new & Htr & Hurls) end.
    + exact Hnow1.
    + cbn in Hlen. lia.
    + intros i k' its Hi. cbn [requests]. rewrite Hreq1.
      destruct (Hok (S i) k' its Hi) as (Hk' & r & Hrep & Hp).
      split; [exact Hk' | ]. exists r. split; [ | exact Hp].
      cbn [firstn map fst requests_made] in Hrep.
      replace (requests w + S k + requests_made (map fst (firstn i taken)))%nat
        with (requests w + (S k + requests_made (map fst (firstn i taken))))%nat by lia.
      now replace (S s + i)%nat with (s + S i)%nat by lia.
    + intros Hlt. cbn [requests]. rewrite Hreq1.
      destruct (Hfail ltac:(cbn; lia)) as (Hl & r & Hrep & Hg).
      split; [exact Hl | ]. exists r. split; [ | exact Hg].
      cbn [length map fst requests_made] in Hrep.
      replace (requests w + S k + requests_made (map fst taken))%nat
        with (requests w + (S k + requests_made (map fst taken)))%nat by lia.
      now replace (S s + length taken)%nat with (s + S (length taken))%nat by lia.
    + exists w'. split; [rewrite Hloop; cbn; now rewrite <- app_assoc | ].
      eexists. split; [rewrite Htr; cbn [trace]; rewrite Ht1, <- !app_assoc; reflexivity | ].
      unfold urls_got in *. rewrite flat_map_app, Hu1. cbn [flat_map app]. rewrite Hurls.
      reflexivity.
Qed.

(** C3.  The collector asks for pages 1, 2, ... in order.  Let the call of
    the fetcher for each of the first pages end, after any number of
    replies it waits on, with a 200 and its items (possibly none), and let
    the call for the next page, if the limit leaves one, end with the
    fetcher giving up, again after any number of replies it waits on.
    Then the collector returns, without raising, the items of all the
    pages taken, in order, and it has asked for the failed page but for
    none after it; with no failure it asks for every page up to the limit.
    An empty page among the taken ones changes nothing. *)
Theorem get_mit_repos_stops_on_failure
        (fuel : nat) (query : string) (per_page pages : Z)
        (taken : list (nat * list json)) (last : nat) (w : World) :
  (length taken <= Z.to_nat pages)%nat ->
  (forall i k items, nth_error taken i = Some (k, items) ->
     (k <= fuel)%nat
     /\ exists r,
          replies_after server (now w) (search_url query per_page (Z.of_nat (S i)))
                        (requests w + requests_made (map fst (firstn i taken))) k r
          /\ page_of r = Some items) ->
  ((length taken < Z.to_nat pages)%nat ->
     (last <= fuel)%nat
     /\ exists r,
          replies_after server (now w)
                        (search_url query per_page (Z.of_nat (S (length taken))))
                        (requests w + requests_made (map fst taken)) last r
          /\ gives_up r = true) ->
  exists w',
    get_mit_repos server (S fuel) query per_page pages w = (Ok (concat (map snd taken)), w')
    /\ exists new,
         trace w' = trace w ++ new
         /\ urls_got new
            = page_requests query per_page 1
                (map fst taken
                 ++ if (length taken <? Z.to_nat pages)%nat then [last] else []).
Proof.
  intros Hlen Hok Hfail. unfold get_mit_repos, range1.
  apply (get_mit_repos_loop_run fuel query per_page pages taken last (now w)
           (Z.to_nat pages) 1 [] w (Qle_refl _) Hlen Hok Hfail).
Qed.

(** The collector of slim/slim.py differs: a failed page makes it return
    the empty list, whatever it had accumulated. *)
Lemma slim_get_mit_repos_loop_discards fuel query per_page taken :
  forall m s repos w,
    (length taken < m)%nat ->
    (forall i items, nth_error taken i = Some items ->
       page_of (server (requests w + i) (Slim.search_url query per_page (Z.of_nat (s + i))))
       = Some items) ->
    gives_up (server (requests w + length taken)
                     (Slim.search_url query per_page (Z.of_nat (s + length taken)))) = true ->
    fst (Slim.get_mit_repos_loop server (S fuel) query per_page (map Z.of_nat (seq s m)) repos w)
    = Ok [].
Proof.
  induction taken as [ | items taken IH]; intros m s repos w Hlen Hok Hfail.
  - destruct m as [ | m]; [cbn in Hlen; lia | ].
    cbn [length] in Hfail. rewrite !Nat.add_0_r in Hfail.
    cbn [seq map Slim.get_mit_repos_loop].
    now rewrite (bind_ok _ _ _ _ _ (make_request_gives_up server fuel _ w Hfail)).
  - destruct m as [ | m]; [cbn in Hlen; lia | ].
    assert (H0 := Hok 0%nat items eq_refl). rewrite !Nat.add_0_r in H0.
    apply page_of_some in H0 as (H200 & fields & Hpay & Hitems).
    cbn [seq map Slim.get_mit_repos_loop].
    rewrite (bind_ok _ _ _ _ _ (make_request_200 server fuel _ w H200)).
    unfold response_json. rewrite Hpay. run. rewrite Hitems. cbn [iter]. run.
    apply IH.
    + cbn in Hlen. lia.
    + intros i its Hi. cbn [requests].
      replace (S (requests w) + i)%nat with (requests w + S i)%nat by lia.
      replace (S s + i)%nat with (s + S i)%nat by lia.
      now apply Hok.
    + cbn [requests].
      replace (S (requests w) + length taken)%nat
        with (requests w + length (items :: taken))%nat by (cbn; lia).
      now replace (S s + length taken)%nat with (s + length (items :: taken))%nat by (cbn; lia).
Qed.

End Collector.

(** ** Partial data *)

Section PartialData.

Variable server : nat -> string -> Response.
Variable db_fault : nat -> option string.






End PartialData.

(** ** The URLs of one repository are not those of another *)

Lemma list_ascii_app (a b : string) :
  list_ascii_of_string (a ^^ b) = list_ascii_of_string a ++ list_ascii_of_string b.
Proof. induction a as [ | x a IH]; cbn; [reflexivity | now rewrite IH]. Qed.

Lemma rchars_app (a b : string) : rchars (a ^^ b) = rchars b ++ rchars a.
Proof. unfold rchars. now rewrite list_ascii_app, rev_app_distr. Qed.

Lemma rchars_inj (a b : string) : rchars a = rchars b -> a = b.
Proof.
  unfold rchars. intros H. apply (f_equal (@rev ascii)) in H. rewrite !rev_involutive in H.
  apply (f_equal string_of_list_ascii) in H.
  now rewrite !string_of_list_ascii_of_string in H.
Qed.

(** compare two texts from their last character on *)
Ltac from_the_end H :=
  apply (f_equal rchars) in H; rewrite ?rchars_app in H;
  cbn [rchars list_ascii_of_string rev app] in H.

Lemma in_range1_3 page : In page (range1 3) -> page = 1%Z \/ page = 2%Z \/ page = 3%Z.
Proof.
  change (range1 3) with [1; 2; 3]%Z. cbn [In]. intuition congruence.
Qed.

Lemma languages_url_inj x y : languages_url x = languages_url y -> x = y.
Proof.
  unfold languages_url. intros H. from_the_end H.
  injection H as H. apply app_inv_tail in H. now apply rchars_inj.
Qed.

Lemma languages_url_not_pulls x y page :
  In page (range1 3) -> languages_url x <> pulls_url y 30 page.
Proof.
  unfold languages_url, pulls_url. intros Hin H.
  apply in_range1_3 in Hin as [-> | [-> | ->]]; from_the_end H; discriminate.
Qed.

Lemma languages_url_not_files x s : languages_url x <> s ^^ "/files".
Proof. unfold languages_url. intros H. from_the_end H. discriminate. Qed.

Lemma pulls_url_not_files x page s :
  In page (range1 3) -> pulls_url x 30 page <> s ^^ "/files".
Proof.
  unfold pulls_url. intros Hin H.
  apply in_range1_3 in Hin as [-> | [-> | ->]]; from_the_end H; discriminate.
Qed.

Lemma pulls_url_inj x y p q :
  In p (range1 3) -> In q (range1 3) -> pulls_url x 30 p = pulls_url y 30 q -> x = y.
Proof.
  unfold pulls_url. intros Hp Hq H.
  apply in_range1_3 in Hp as [-> | [-> | ->]]; apply in_range1_3 in Hq as [-> | [-> | ->]];
    from_the_end H; try discriminate;
    injection H as H; apply app_inv_tail in H; now apply rchars_inj.
Qed.

(** ** What each function appends to the trace *)

Lemma saved_app ev1 ev2 file : saved (ev1 ++ ev2) file = saved ev2 (saved ev1 file).
Proof. unfold saved. apply fold_left_app. Qed.

Lemma emits_same {A} (P : Event -> Prop) (m : M A) :
  (forall w, after m w = w) -> emits P m.
Proof.
  intros H w. exists []. rewrite H. split; [now rewrite app_nil_r | ]. split; [constructor | reflexivity].
Qed.

Lemma emits_ret {A} P (a : A) : emits P (ret a).
Proof. now apply emits_same. Qed.

Lemma emits_lift {A} P (o : Outcome A) : emits P (lift o).
Proof. now apply emits_same. Qed.

Lemma emits_time_time P : emits P time_time.
Proof. now apply emits_same. Qed.

Lemma emits_load_progress P : emits P load_progress.
Proof. now apply emits_same. Qed.

Lemma emits_response_json P r : emits P (response_json r).
Proof. unfold response_json. destruct (payload r); now apply emits_same. Qed.

Lemma emits_sqlite_connect P : emits P sqlite_connect.
Proof.
  intros w. exists []. cbn. split; [now rewrite app_nil_r | ]. split; [constructor | reflexivity].
Qed.

Lemma emits_one {A} (P : Event -> Prop) (m : M A) (e : Event) :
  (forall w, trace (after m w) = trace w ++ [e]
             /\ progress_json (after m w) = saved [e] (progress_json w)) ->
  P e -> emits P m.
Proof.
  intros H HP w. exists [e]. destruct (H w) as [Ht Hp].
  split; [exact Ht | ]. split; [now constructor | exact Hp].
Qed.

Lemma emits_print (P : Event -> Prop) m : P (Print m) -> emits P (print m).
Proof. apply emits_one. intros w. split; reflexivity. Qed.

Lemma emits_time_sleep (P : Event -> Prop) d : P (Sleep d) -> emits P (time_sleep d).
Proof.
  apply emits_one. intros w. unfold after.
  destruct (time_sleep_cases d w) as [E | (e & _ & E)]; rewrite E; split; reflexivity.
Qed.

Lemma emits_conn_commit (P : Event -> Prop) : P Commit -> emits P conn_commit.
Proof. apply emits_one. intros w. split; reflexivity. Qed.

Lemma emits_requests_get (P : Event -> Prop) server url :
  (forall r, P (Get url r)) -> emits P (requests_get server url).
Proof.
  intros H w. exists [Get url (server (requests w) url)].
  split; [reflexivity | ]. split; [constructor; [apply H | constructor] | reflexivity].
Qed.

Lemma emits_cursor_execute (P : Event -> Prop) db_fault r :
  (forall res, P (Execute r res)) -> emits P (cursor_execute db_fault r).
Proof.
  intros H w. unfold after, cursor_execute.
  destruct (db_fault (statements w)) as [msg | ].
  - eexists. split; [reflexivity | ]. split; [constructor; [apply H | constructor] | reflexivity].
  - destruct (insert_or_ignore r (table w)) as [rows rowcount].
    eexists. split; [reflexivity | ]. split; [constructor; [apply H | constructor] | reflexivity].
Qed.

Lemma emits_bind {A B} P (m : M A) (k : A -> M B) :
  emits P m -> (forall a, emits P (k a)) -> emits P (bind m k).
Proof.
  intros Hm Hk w. destruct (Hm w) as (new1 & Ht1 & HP1 & Hs1).
  unfold after, bind in *. destruct (m w) as [[a | e | | ] w1]; cbn [snd] in *;
    try (exists new1; now repeat split).
  destruct (Hk a w1) as (new2 & Ht2 & HP2 & Hs2). unfold after in *.
  exists (new1 ++ new2). split; [now rewrite Ht2, Ht1, app_assoc | ].
  split; [now apply Forall_app | ]. now rewrite saved_app, Hs2, Hs1.
Qed.

Lemma emits_bind_lift {A B} P (o : Outcome A) (k : A -> M B) :
  (forall a, o = Ok a -> emits P (k a)) -> emits P (bind (lift o) k).
Proof.
  intros Hk. destruct o as [a | e | | ];
    try (intros w; exists []; cbn; rewrite app_nil_r; repeat split; constructor).
  intros w. destruct (Hk a eq_refl w) as (new & Ht & HP & Hs). now exists new.
Qed.

Lemma emits_try_sqlite {A} P (body : M A) (handler : string -> M A) :
  emits P body -> (forall msg, emits P (handler msg)) -> emits P (try_sqlite body handler).
Proof.
  intros Hb Hh w. destruct (Hb w) as (new1 & Ht1 & HP1 & Hs1).
  unfold after, try_sqlite in *. destruct (body w) as [[a | e | | ] w1]; cbn [snd] in *;
    try (exists new1; now repeat split).
  destruct e; try (exists new1; now repeat split).
  destruct (Hh msg w1) as (new2 & Ht2 & HP2 & Hs2). unfold after in *.
  exists (new1 ++ new2). split; [now rewrite Ht2, Ht1, app_assoc | ].
  split; [now apply Forall_app | ]. now rewrite saved_app, Hs2, Hs1.
Qed.

Lemma emits_weaken {A} (P Q : Event -> Prop) (m : M A) :
  emits P m -> (forall e, P e -> Q e) -> emits Q m.
Proof.
  intros Hm HPQ w. destruct (Hm w) as (new & Ht & HP & Hs).
  exists new. split; [exact Ht | ]. split; [ | exact Hs].
  eapply Forall_impl; [ | exact HP]. exact HPQ.
Qed.

Create HintDb emits.
#[local] Hint Resolve emits_ret emits_lift emits_time_time emits_load_progress
  emits_response_json emits_sqlite_connect : emits.

(** split a sequence of actions; the side conditions on single events are
    closed by computing the class of the event *)
Ltac emits_steps :=
  repeat first
    [ progress auto with emits
    | apply emits_bind_lift; intros ? ?
    | apply emits_bind; [ | intros ? ]
    | apply emits_print; cbn; solve [auto]
    | apply emits_time_sleep; cbn; solve [auto]
    | apply emits_conn_commit; cbn; solve [auto]
    | match goal with
      | |- emits _ (match ?x with _ => _ end) => destruct x
      | |- emits _ (if ?b then _ else _) => destruct b
      end ].

Section Traces.

Variable server : nat -> string -> Response.
Variable db_fault : nat -> option string.

Lemma emits_make_request fuel url : emits (fetch_event url) (make_request server fuel url).
Proof.
  induction fuel as [ | fuel IH]; cbn [make_request]; [apply emits_lift | ].
  apply emits_bind; [apply emits_requests_get; now cbn | intros r].
  emits_steps.
Qed.

Lemma emits_fetch P fuel url :
  (forall e, fetch_event url e -> P e) -> emits P (make_request server fuel url).
Proof. intros H. eapply emits_weaken; [apply emits_make_request | exact H]. Qed.

Lemma append_assoc (a b c : string) : (a ^^ b) ^^ c = a ^^ b ^^ c.
Proof. induction a as [ | x a IH]; cbn; [reflexivity | now rewrite IH]. Qed.

Lemma files_url_of_suffix u files_url :
  files_url_of u = Ok files_url -> exists s, files_url = s ^^ "/files".
Proof.
  unfold files_url_of. destruct (contains "github.com" u).
  - destruct (index_from_end _ 4) as [owner | | | ]; try discriminate.
    destruct (index_from_end _ 3) as [repo | | | ]; try discriminate.
    destruct (index_from_end _ 1) as [number | | | ]; try discriminate.
    cbn [obind]. intros [= <-].
    exists ("https://api.github.com/repos/" ^^ owner ^^ "/" ^^ repo ^^ "/pulls/" ^^ number).
    now rewrite !append_assoc.
  - intros [= <-]. now exists u.
Qed.

Lemma fetch_files_is_pr_phase name langs s e :
  fetch_event (s ^^ "/files") e -> pr_phase_event name langs e.
Proof.
  destruct e as [u r | d | m | row res | | names]; cbn; try tauto.
  - intros ->. right. now exists s.
  - destruct m; tauto.
Qed.

Lemma fetch_pulls_is_pr_phase name langs page e :
  In page (range1 3) ->
  fetch_event (pulls_url name 30 page) e -> pr_phase_event name langs e.
Proof.
  intros Hin. destruct e as [u r | d | m | row res | | names]; cbn; try tauto.
  - intros ->. left. now exists page.
  - destruct m; tauto.
Qed.

Lemma emits_get_languages fuel name :
  emits (fetch_event (languages_url name)) (get_languages server fuel name).
Proof.
  unfold get_languages. apply emits_bind; [apply emits_make_request | intros r].
  emits_steps.
Qed.

Lemma emits_get_affected_files name langs fuel pr_url :
  emits (pr_phase_event name langs) (get_affected_files server fuel pr_url).
Proof.
  unfold get_affected_files. destruct pr_url as [u | ]; [ | apply emits_ret].
  destruct (u =? "")%string; [apply emits_ret | ].
  apply emits_bind_lift. intros files_url E.
  destruct (files_url_of_suffix _ _ E) as (s & ->).
  apply emits_bind; [apply emits_fetch, fetch_files_is_pr_phase | intros r].
  emits_steps.
Qed.

Lemma emits_get_merged_prs_loop name langs fuel todo :
  incl todo (range1 3) ->
  forall prs total,
    emits (pr_phase_event name langs) (get_merged_prs_loop server fuel name 30 todo prs total).
Proof.
  induction todo as [ | page todo IH]; intros Hincl prs total; cbn [get_merged_prs_loop].
  - apply emits_ret.
  - apply emits_bind.
    + apply emits_fetch. intros e. apply fetch_pulls_is_pr_phase. apply Hincl. now left.
    + intros r. specialize (IH (fun p Hp => Hincl p (or_intror Hp))). emits_steps.
Qed.

Lemma emits_get_merged_prs name langs fuel :
  emits (pr_phase_event name langs) (get_merged_prs server fuel name 30 3).
Proof.
  unfold get_merged_prs.
  apply emits_bind; [apply emits_print; now cbn | intros _].
  apply emits_bind; [apply emits_get_merged_prs_loop; apply incl_refl | intros [prs total]].
  emits_steps.
Qed.

Lemma emits_save_linked_issues name pr_url langs before after files urls :
  forall added total,
    emits (pr_phase_event name langs)
          (save_linked_issues db_fault name pr_url langs before after files urls added total).
Proof.
  induction urls as [ | u urls IH]; intros added total; cbn [save_linked_issues].
  - apply emits_ret.
  - apply emits_bind; [ | intros [a t]; apply IH].
    apply emits_try_sqlite.
    + apply emits_bind; [apply emits_cursor_execute; now cbn | intros c]. emits_steps.
    + intros msg. emits_steps.
Qed.

#[local] Hint Resolve emits_get_affected_files emits_get_merged_prs emits_save_linked_issues
  : emits.

Lemma emits_process_pr name langs fuel pr added total :
  emits (pr_phase_event name langs)
        (process_pr server db_fault fuel name langs pr added total).
Proof. unfold process_pr. emits_steps. Qed.

Lemma emits_process_prs name langs fuel prs :
  forall added total,
    emits (pr_phase_event name langs)
          (process_prs server db_fault fuel name langs prs added total).
Proof.
  induction prs as [ | pr prs IH]; intros added total; cbn [process_prs].
  - apply emits_ret.
  - apply emits_bind; [apply emits_process_pr | intros [a t]; apply IH].
Qed.

#[local] Hint Resolve emits_process_prs : emits.

(** what follows the language lookup in the body of the repository loop *)
Lemma emits_after_languages name langs fuel total :
  emits (pr_phase_event name langs)
        (print (LanguagesUsed name langs) ;;
         prs <- get_merged_prs server fuel name 30 3 ;;
         match prs with
         | [] => print (NoPRs name) ;; ret total
         | _ :: _ =>
             print (ProcessingPRs (Z.of_nat (length prs)) name) ;;
             ' (added, total') <- process_prs server db_fault fuel name langs prs 0%Z total ;;
             conn_commit ;;
             print (EntriesAdded added name) ;;
             ret total'
         end).
Proof. emits_steps. Qed.

End Traces.

(** ** One language lookup per repository *)

Lemma answered_app u ev1 ev2 : answered u (ev1 ++ ev2) = answered u ev1 ++ answered u ev2.
Proof. unfold answered. apply flat_map_app. Qed.

Lemma answered_one u url r : (length (answered u [Get url r]) <= 1)%nat.
Proof. cbn. destruct ((url =? u)%string && negb (waits r))%bool; cbn; lia. Qed.

Lemma answered_waiting u url r : waits r = true -> answered u [Get url r] = [].
Proof. intros H. cbn. rewrite H. now rewrite andb_false_r. Qed.

Lemma answered_cons u e new : answered u (e :: new) = answered u [e] ++ answered u new.
Proof. apply (answered_app u [e] new). Qed.

Lemma executed_cons e new : executed (e :: new) = executed [e] ++ executed new.
Proof. apply (executed_app [e] new). Qed.

Lemma executed_of_fetch url new : Forall (fetch_event url) new -> executed new = [].
Proof.
  induction 1 as [ | e new He _ IH]; [reflexivity | ].
  rewrite executed_cons, IH.
  destruct e; cbn [fetch_event] in He; try contradiction; reflexivity.
Qed.

Lemma answered_of_pr_phase name langs new :
  Forall (pr_phase_event name langs) new -> answered (languages_url name) new = [].
Proof.
  induction 1 as [ | e new He _ IH]; [reflexivity | ].
  rewrite answered_cons, IH.
  destruct e as [u r | d | m | row res | | names]; try reflexivity.
  cbn [pr_phase_event] in He. unfold answered. cbn [flat_map app].
  destruct (String.eqb_spec u (languages_url name)) as [-> | ]; [ | reflexivity].
  exfalso. destruct He as [(page & Hin & E) | (s & E)].
  - now apply (languages_url_not_pulls name name page).
  - now apply (languages_url_not_files name s).
Qed.

Lemma executed_of_pr_phase name langs new :
  Forall (pr_phase_event name langs) new ->
  Forall (fun row => languages row = langs) (executed new).
Proof.
  induction 1 as [ | e new He _ IH]; [constructor | ].
  rewrite executed_cons. apply Forall_app. split; [ | exact IH].
  destruct e as [u r | d | m | row res | | names]; try constructor.
  - apply He.
  - constructor.
Qed.

Lemma answered_not_asked url events : ~ In url (urls_got events) -> answered url events = [].
Proof.
  induction events as [ | e events IH]; [reflexivity | ].
  intros H. rewrite answered_cons, IH.
  - rewrite app_nil_r. destruct e as [u r | d | m | row res | | names]; try reflexivity.
    unfold answered. cbn [flat_map].
    destruct (String.eqb_spec u url) as [-> | Hne]; [ | reflexivity].
    exfalso. apply H. unfold urls_got. cbn [flat_map app]. now left.
  - intros Hin. apply H. unfold urls_got in *.
    destruct e; cbn [flat_map app]; try exact Hin. now right.
Qed.

Lemma answered_of_waiting u before : Forall waiting_event before -> answered u before = [].
Proof.
  induction 1 as [ | e before He _ IH]; [reflexivity | ].
  rewrite answered_cons, IH, app_nil_r.
  destruct e as [url r | d | m | row res | | names]; try reflexivity.
  cbn [waiting_event] in He. apply answered_waiting, He.
Qed.

Lemma answered_last url before r :
  Forall waiting_event before -> waits r = false ->
  answered url (before ++ [Get url r]) = [r].
Proof.
  intros Hb Hr. rewrite answered_app, (answered_of_waiting _ _ Hb). cbn.
  now rewrite String.eqb_refl, Hr.
Qed.

Lemma waits_not_200 r : status_code r = 200%Z -> waits r = false.
Proof. unfold waits. intros ->. reflexivity. Qed.

Lemma waits_not_given_up r : gives_up r = true -> waits r = false.
Proof.
  unfold gives_up, waits. intros H.
  apply andb_prop in H as [H H3]. apply andb_prop in H as [H1 H2].
  apply negb_true_iff in H2, H3. now rewrite H1, H2, H3.
Qed.

Section Outcomes.

Variable server : nat -> string -> Response.

(** How a call of the fetcher can end, and what it has done by then: rounds
    of waiting, then the reply that ends the call. *)
Lemma make_request_ends fuel url :
  forall w, exists new,
    trace (after (make_request server fuel url) w) = trace w ++ new
    /\ match fst (make_request server fuel url w) with
       | Ok (Some r) =>
           status_code r = 200%Z
           /\ exists before, new = before ++ [Get url r] /\ Forall waiting_event before
       | Ok None =>
           exists before r,
             gives_up r = true
             /\ new = before ++ [Get url r; Print (RequestFailed (status_code r) url)]
             /\ Forall waiting_event before
       | Raise e =>
           exists before r,
             Forall waiting_event before
             /\ status_code r = 403%Z
             /\ (e = ValueError /\ x_ratelimit_reset r = Some None
                 /\ new = before ++ [Get url r]
                 \/ e = OverflowError
                    /\ exists t d,
                         x_ratelimit_reset r = Some (Some t) /\ (sleep_max < d)%Q
                         /\ new = before ++ [Get url r; Print (RateLimited d); Sleep d])
       | Diverge => length (urls_got new) = fuel /\ Forall waiting_event new
       | Unmodelled => False
       end.
Proof.
  induction fuel as [ | fuel IH]; intros w.
  - exists []. split; [cbn; now rewrite app_nil_r | ]. split; [reflexivity | constructor].
  - unfold after in *.
    destruct (reply_cases (server (requests w) url)) as [H | [H | [H | [H1 H2]]]].
    + rewrite (make_request_200 server fuel url w H). run.
      exists [Get url (server (requests w) url)]. split; [reflexivity | ].
      split; [exact H | ]. exists []. split; [reflexivity | constructor].
    + destruct (make_request_round server fuel url w H)
        as (w2 & m & d & Ht & _ & [[-> _] | [-> (t & Hs & Hh & -> & Hd & Hfar)]]).
      * destruct (IH w2) as (new & Hnew & Hend).
        set (pre := [Get url (server (requests w) url); Print m; Sleep d]) in *.
        assert (Hpre : Forall waiting_event pre) by (repeat constructor; exact H).
        exists (pre ++ new).
        split; [rewrite Hnew, Ht; now rewrite <- app_assoc | ].
        destruct (fst (make_request server fuel url w2)) as [[r | ] | e | | ].
        -- destruct Hend as (Hs & before & -> & Hb). split; [exact Hs | ].
           exists (pre ++ before). split; [now rewrite app_assoc | now apply Forall_app].
        -- destruct Hend as (before & r & Hg & -> & Hb). exists (pre ++ before), r.
           split; [exact Hg | ]. split; [now rewrite app_assoc | now apply Forall_app].
        -- destruct Hend as (before & r & Hb & Hs & Hend). exists (pre ++ before), r.
           split; [now apply Forall_app | ]. split; [exact Hs | ].
           destruct Hend as [(-> & Hh & ->) | (-> & t & d' & Hh & Hfar & ->)].
           ++ left. split; [reflexivity | ]. split; [exact Hh | now rewrite app_assoc].
           ++ right. split; [reflexivity | ]. exists t, d'.
              split; [exact Hh | ]. split; [exact Hfar | now rewrite app_assoc].
        -- destruct Hend as [Hlen Hall]. split; [ | now apply Forall_app].
           unfold urls_got in *. rewrite flat_map_app, length_app, Hlen. reflexivity.
        -- exact Hend.
      * cbn [fst snd]. eexists. split; [exact Ht | ].
        exists [], (server (requests w) url). split; [constructor | ]. split; [exact Hs | ].
        right. split; [reflexivity | ]. exists t, d. now repeat split.
    + rewrite (make_request_gives_up server fuel url w H). run.
      eexists. split; [rewrite <- app_assoc; reflexivity | ].
      exists [], (server (requests w) url). split; [exact H | ].
      split; [reflexivity | constructor].
    + rewrite (make_request_bad_header server fuel url w H1 H2). run.
      eexists. split; [reflexivity | ].
      exists [], (server (requests w) url). split; [constructor | ]. split; [exact H1 | ].
      left. now repeat split.
Qed.

End Outcomes.

Section Languages.

Variable server : nat -> string -> Response.
Variable db_fault : nat -> option string.

Lemma make_request_answered fuel url u :
  forall w, exists new,
    trace (after (make_request server fuel url) w) = trace w ++ new
    /\ (length (answered u new) <= 1)%nat.
Proof.
  intros w. destruct (make_request_ends server fuel url w) as (new & Ht & Hend).
  exists new. split; [exact Ht | ].
  destruct (fst (make_request server fuel url w)) as [[r | ] | e | | ].
  - destruct Hend as (_ & before & -> & Hb).
    rewrite answered_app, (answered_of_waiting _ _ Hb). apply answered_one.
  - destruct Hend as (before & r & _ & -> & Hb).
    rewrite answered_app, (answered_of_waiting _ _ Hb).
    change [Get url r; Print (RequestFailed (status_code r) url)]
      with ([Get url r] ++ [Print (RequestFailed (status_code r) url)]).
    rewrite answered_app, app_nil_r. apply answered_one.
  - destruct Hend as (before & r & Hb & _ & [(_ & _ & ->) | (_ & t & d & _ & _ & ->)]);
      rewrite answered_app, (answered_of_waiting _ _ Hb).
    + apply answered_one.
    + change [Get url r; Print (RateLimited d); Sleep d]
        with ([Get url r] ++ [Print (RateLimited d); Sleep d]).
      rewrite answered_app, app_nil_r. apply answered_one.
  - destruct Hend as [_ Hall]. rewrite (answered_of_waiting _ _ Hall). cbn. lia.
  - contradiction.
Qed.

Lemma after_bind_silent {A B} (m : M A) (k : A -> M B) (w : World) :
  (forall a w1, trace (after (k a) w1) = trace w1) ->
  trace (after (bind m k) w) = trace (after m w).
Proof.
  intros H. unfold after, bind in *. destruct (m w) as [[a | e | | ] w1]; cbn [snd];
    try reflexivity.
  apply H.
Qed.

Lemma get_languages_once fuel name :
  forall w, exists new,
    trace (after (get_languages server fuel name) w) = trace w ++ new
    /\ Forall (fetch_event (languages_url name)) new
    /\ (length (answered (languages_url name) new) <= 1)%nat.
Proof.
  intros w.
  destruct (emits_get_languages server fuel name w) as (new & Ht & HP & _).
  exists new. split; [exact Ht | ]. split; [exact HP | ].
  destruct (make_request_answered fuel (languages_url name) (languages_url name) w)
    as (new' & Ht' & Hcount).
  assert (E : trace (after (get_languages server fuel name) w)
              = trace (after (make_request server fuel (languages_url name)) w)).
  { unfold get_languages. apply after_bind_silent. intros [r | ] w1; [ | reflexivity].
    unfold after, bind, response_json. destruct (payload r) as [data | ]; [ | reflexivity].
    cbn. now destruct (keys data). }
  rewrite E, Ht' in Ht. apply app_inv_head in Ht. now subst.
Qed.

Lemma get_languages_trace fuel name w :
  trace (after (get_languages server fuel name) w)
  = trace (after (make_request server fuel (languages_url name)) w).
Proof.
  unfold get_languages. apply after_bind_silent. intros [r | ] w1; [ | reflexivity].
  unfold after, bind, response_json. destruct (payload r) as [data | ]; [ | reflexivity].
  cbn. now destruct (keys data).
Qed.

Lemma languages_of_given_up r : gives_up r = true -> languages_of r = Ok "[]".
Proof.
  unfold gives_up, languages_of. intros H.
  apply andb_prop in H as [H _]. apply andb_prop in H as [H _].
  apply negb_true_iff in H. now rewrite H.
Qed.

(** the lookup, when it returns: one reply ended its call of the fetcher,
    and what it returns is what that reply holds *)
Lemma get_languages_returns fuel name w langs w2 :
  get_languages server fuel name w = (Ok langs, w2) ->
  exists lookup r,
    trace w2 = trace w ++ lookup
    /\ answered (languages_url name) lookup = [r]
    /\ languages_of r = Ok langs.
Proof.
  intros H.
  destruct (make_request_ends server fuel (languages_url name) w) as (new & Ht & Hend).
  rewrite <- get_languages_trace in Ht. unfold after in Ht. rewrite H in Ht. cbn [snd] in Ht.
  exists new. unfold get_languages, bind in H.
  destruct (make_request server fuel (languages_url name) w) as [[[r | ] | e | | ] wa];
    cbn [fst] in Hend; try discriminate.
  - destruct Hend as (H200 & before & -> & Hb). exists r.
    split; [exact Ht | ]. split; [apply (answered_last _ _ _ Hb (waits_not_200 _ H200)) | ].
    unfold languages_of. rewrite H200. cbn [Z.eqb Pos.eqb].
    unfold response_json in H. destruct (payload r) as [data | ]; [ | discriminate].
    cbn in H. destruct (keys data) as [names | | | ]; try discriminate.
    cbn in H. now injection H as <- _.
  - destruct Hend as (before & r & Hg & -> & Hb). exists r.
    split; [exact Ht | ]. split.
    + change [Get (languages_url name) r; Print (RequestFailed (status_code r) (languages_url name))]
        with ([Get (languages_url name) r]
              ++ [Print (RequestFailed (status_code r) (languages_url name))]).
      rewrite app_assoc, answered_app, app_nil_r.
      apply (answered_last _ _ _ Hb (waits_not_given_up _ Hg)).
    + cbn in H. injection H as <- _. now apply languages_of_given_up.
Qed.

(** a lookup that the fetcher gives up, after any number of replies it
    waits on, returns the serialized empty list *)
Lemma get_languages_degrades fuel name w k r :
  (k <= fuel)%nat ->
  replies_after server (now w) (languages_url name) (requests w) k r ->
  gives_up r = true ->
  exists w2, get_languages server (S fuel) name w = (Ok "[]", w2).
Proof.
  intros Hk [Hwaits Hr] Hg. subst r. unfold get_languages.
  destruct (make_request_gives_up_after_waits server k (fuel - k) (languages_url name) w
              (now w) (Qle_refl _) Hwaits Hg) as (w1 & Hrun & _).
  replace (S k + (fuel - k))%nat with (S fuel) in Hrun by lia.
  rewrite (bind_ok _ _ _ _ _ Hrun). now exists w1.
Qed.

Lemma process_repo_unfold fuel repo name total w :
  obind (getitem repo "full_name") text = Ok name ->
  process_repo server db_fault fuel repo total w
  = bind (get_languages server fuel name)
         (fun langs => after_lookup server db_fault fuel name langs total)
         (after (print (ProcessingRepo name)) w).
Proof. intros Hname. unfold process_repo. rewrite Hname. reflexivity. Qed.

Lemma no_lookup_in_pr_phase name langs rest :
  Forall (pr_phase_event name langs) rest -> ~ In (languages_url name) (urls_got rest).
Proof.
  induction 1 as [ | e rest He _ IH]; [intros [] | ].
  destruct e as [u r | d | m | row res | | names]; try exact IH.
  cbn [urls_got flat_map app In]. intros [-> | Hin]; [ | now apply IH].
  destruct He as [(page & Hin & E) | (s & E)].
  - now apply (languages_url_not_pulls name name page).
  - now apply (languages_url_not_files name s).
Qed.

Lemma emits_after_lookup name langs fuel total :
  emits (pr_phase_event name langs) (after_lookup server db_fault fuel name langs total).
Proof. apply emits_after_languages. Qed.

(** One pass of the repository loop: the line on the console, one call of
    [get_languages], and then, when that call returned, the rest of the
    body with the value it returned. *)
Lemma process_repo_lookup fuel repo name total w :
  obind (getitem repo "full_name") text = Ok name ->
  exists lookup rest,
    trace (after (get_languages server fuel name) (after (print (ProcessingRepo name)) w))
    = trace w ++ Print (ProcessingRepo name) :: lookup
    /\ trace (after (process_repo server db_fault fuel repo total) w)
       = trace w ++ Print (ProcessingRepo name) :: lookup ++ rest
    /\ Forall (fetch_event (languages_url name)) lookup
    /\ (length (answered (languages_url name) lookup) <= 1)%nat
    /\ ~ In (languages_url name) (urls_got rest)
    /\ forall langs w2,
         get_languages server fuel name (after (print (ProcessingRepo name)) w) = (Ok langs, w2) ->
         (exists r, answered (languages_url name) lookup = [r] /\ languages_of r = Ok langs)
         /\ Forall (fun row => languages row = langs) (executed (lookup ++ rest))
         /\ process_repo server db_fault fuel repo total w
            = after_lookup server db_fault fuel name langs total w2.
Proof.
  intros Hname.
  assert (E := process_repo_unfold fuel repo name total w Hname).
  set (w1 := after (print (ProcessingRepo name)) w) in *.
  assert (Hw1 : trace w1 = trace w ++ [Print (ProcessingRepo name)]) by reflexivity.
  destruct (get_languages_once fuel name w1) as (lookup & Ht1 & HP1 & Hc1).
  exists lookup. unfold after in *. rewrite E. unfold bind.
  destruct (get_languages server fuel name w1) as [[langs | e | | ] wa] eqn:Hget;
    cbn [snd] in *;
    try (exists []; rewrite app_nil_r, Ht1, Hw1, <- app_assoc;
         split; [reflexivity | ]; split; [reflexivity | ]; split; [exact HP1 | ];
         split; [exact Hc1 | ]; split; [intros [] | ]; intros ? ? [=]).
  destruct (emits_after_lookup name langs fuel total wa) as (rest & Ht2 & HP2 & _).
  unfold after in Ht2. exists rest.
  split; [rewrite Ht1, Hw1; now rewrite <- app_assoc | ].
  split; [rewrite Ht2, Ht1, Hw1; now rewrite <- !app_assoc | ].
  split; [exact HP1 | ]. split; [exact Hc1 | ].
  split; [apply (no_lookup_in_pr_phase _ _ _ HP2) | ].
  intros langs' w2 [= <- <-].
  destruct (get_languages_returns fuel name w1 langs wa Hget) as (lookup' & r & Ht' & Ha & Hl).
  rewrite Ht1 in Ht'. apply app_inv_head in Ht'. subst lookup'.
  split; [now exists r | ]. split; [ | reflexivity].
  rewrite executed_app, (executed_of_fetch _ _ HP1). apply (executed_of_pr_phase _ _ _ HP2).
Qed.

Lemma process_repo_lookups (fuel : nat) (repo : json) (name : string)
      (total : Z) (w : World) :
  obind (getitem repo "full_name") text = Ok name ->
  exists new,
    trace (after (process_repo server db_fault fuel repo total) w) = trace w ++ new
    /\ (length (answered (languages_url name) new) <= 1)%nat.
Proof.
  intros Hname.
  destruct (process_repo_lookup fuel repo name total w Hname)
    as (lookup & rest & _ & Ht & HP & Hc & Hrest & _).
  exists (Print (ProcessingRepo name) :: lookup ++ rest). split; [exact Ht | ].
  rewrite answered_cons, answered_app, (answered_not_asked _ _ Hrest), app_nil_r.
  exact Hc.
Qed.

End Languages.

(** ** Resuming *)

Lemma milestones_app ev1 ev2 : milestones (ev1 ++ ev2) = milestones ev1 ++ milestones ev2.
Proof. unfold milestones. apply flat_map_app. Qed.

Lemma milestones_cons e new : milestones (e :: new) = milestones [e] ++ milestones new.
Proof. apply (milestones_app [e] new). Qed.

Lemma fetch_languages_is_inner name e :
  fetch_event (languages_url name) e -> inner_event name e.
Proof.
  destruct e as [u r | d | m | row res | | names]; cbn; try tauto.
  destruct m; tauto.
Qed.

Lemma pr_phase_is_inner name langs e : pr_phase_event name langs e -> inner_event name e.
Proof.
  destruct e as [u r | d | m | row res | | names]; cbn; try tauto.
  destruct m; tauto.
Qed.

Lemma inner_is_repo_event name e : inner_event name e -> repo_event name e.
Proof.
  destruct e as [u r | d | m | row res | | names]; cbn; try tauto.
  destruct m; cbn; tauto.
Qed.

Lemma inner_no_milestone name new : Forall (inner_event name) new -> milestones new = [].
Proof.
  induction 1 as [ | e new He _ IH]; [reflexivity | ].
  rewrite milestones_cons, IH.
  destruct e as [u r | d | m | row res | | names]; try reflexivity.
  - destruct m; try reflexivity. contradiction.
  - contradiction.
Qed.

Lemma inner_saves_nothing name new file : Forall (inner_event name) new -> saved new file = file.
Proof.
  intros H. revert file. induction H as [ | e new He _ IH]; intros file; [reflexivity | ].
  change (e :: new) with ([e] ++ new). rewrite saved_app, IH.
  destruct e as [u r | d | m | row res | | names]; try reflexivity. contradiction.
Qed.

Lemma repo_event_elsewhere n x e : n <> x -> repo_event n e -> ~ concerns x e.
Proof.
  intros Hne. destruct e as [u r | d | m | row res | | names]; cbn; try tauto.
  - intros [-> | [(p & Hp & ->) | (s & ->)]] [E | (q & Hq & E)].
    + now apply languages_url_inj in E.
    + now apply (languages_url_not_pulls n x q).
    + symmetry in E. now apply (languages_url_not_pulls x n p).
    + now apply pulls_url_inj in E.
    + symmetry in E. now apply (languages_url_not_files x s).
    + symmetry in E. now apply (pulls_url_not_files x q s).
  - destruct m; cbn; try tauto. congruence.
  - congruence.
Qed.

Lemma crawl_event_elsewhere names x e :
  ~ In x names -> crawl_event names e -> ~ concerns x e.
Proof.
  intros Hx [(n & Hn & He) | He].
  - apply (repo_event_elsewhere n x); [ | exact He]. intros ->. contradiction.
  - destruct e as [u r | d | m | row res | | l]; try contradiction; cbn; [ | tauto].
    destruct m; try contradiction; tauto.
Qed.

Section Resume.

Variable server : nat -> string -> Response.
Variable db_fault : nat -> option string.

Lemma emits_get_languages_inner fuel name :
  emits (inner_event name) (get_languages server fuel name).
Proof.
  eapply emits_weaken; [apply emits_get_languages | apply fetch_languages_is_inner].
Qed.

Lemma emits_get_merged_prs_inner fuel name :
  emits (inner_event name) (get_merged_prs server fuel name 30 3).
Proof.
  eapply emits_weaken; [apply (emits_get_merged_prs server name "") | apply pr_phase_is_inner].
Qed.

Lemma emits_process_prs_inner fuel name langs prs added total :
  emits (inner_event name) (process_prs server db_fault fuel name langs prs added total).
Proof.
  eapply emits_weaken; [apply emits_process_prs | apply pr_phase_is_inner].
Qed.

#[local] Hint Resolve emits_get_languages_inner emits_get_merged_prs_inner
  emits_process_prs_inner : emits.

(** Processing one repository: its name is printed first, and nothing that
    follows starts another repository or touches progress.json. *)
Lemma populate_one fuel repo name w :
  obind (getitem repo "full_name") text = Ok name ->
  exists new,
    trace (after (populate_db_from_prs server db_fault fuel [repo]) w)
    = trace w ++ Print (ProcessingRepo name) :: new
    /\ Forall (inner_event name) new
    /\ progress_json (after (populate_db_from_prs server db_fault fuel [repo]) w)
       = progress_json w.
Proof.
  intros Hname. unfold populate_db_from_prs. cbn [process_repos]. unfold process_repo.
  unfold after. run. rewrite Hname. run.
  match goal with |- context [snd (?m ?w1)] =>
    assert (E : emits (inner_event name) m) by emits_steps;
    destruct (E w1) as (new & Ht & HP & Hs) end.
  exists new. unfold after in *. rewrite Ht, Hs. cbn [trace progress_json].
  split; [now rewrite <- app_assoc | ]. split; [exact HP | ].
  now apply inner_saves_nothing with (name := name).
Qed.

Lemma names_of_cons repo repos names :
  names_of (repo :: repos) = Ok names ->
  exists n rest,
    obind (getitem repo "full_name") text = Ok n
    /\ names_of repos = Ok rest
    /\ names = n :: rest.
Proof.
  unfold names_of. cbn [traverse].
  destruct (obind (getitem repo "full_name") text) as [n | | | ]; try discriminate.
  cbn [obind]. destruct (traverse _ repos) as [rest | | | ]; try discriminate.
  cbn [obind]. intros [= <-]. now exists n, rest.
Qed.

Lemma crawl_event_mono n names e : crawl_event names e -> crawl_event (n :: names) e.
Proof.
  intros [(m & Hm & He) | He]; [left | now right].
  exists m. split; [now right | exact He].
Qed.

Lemma crawl_event_head n names e : repo_event n e -> crawl_event (n :: names) e.
Proof. intros He. left. exists n. split; [now left | exact He]. Qed.

Lemma crawl_schedule fuel repos :
  forall names processed candidates total w,
    names_of repos = Ok names ->
    exists new done rest,
      trace (after (crawl server db_fault fuel repos processed candidates total) w)
      = trace w ++ new
      /\ Forall (crawl_event names) new
      /\ names = done ++ rest
      /\ (milestones new = schedule processed done
          \/ exists n rest', rest = n :: rest'
                             /\ milestones new = schedule processed done ++ [Started n])
      /\ progress_json (after (crawl server db_fault fuel repos processed candidates total) w)
         = match done with [] => progress_json w | _ :: _ => Some (processed ++ done) end
      /\ (forall res,
            fst (crawl server db_fault fuel repos processed candidates total w) = Ok res ->
            rest = [] /\ milestones new = schedule processed names
            /\ fst res = processed ++ names).
Proof.
  induction repos as [ | repo repos IH]; intros names processed candidates total w Hnames.
  - injection Hnames as <-. exists [], [], []. cbn.
    split; [now rewrite app_nil_r | ]. split; [constructor | ]. split; [reflexivity | ].
    split; [now left | ]. split; [reflexivity | ].
    intros res [= <-]. cbn. now rewrite app_nil_r.
  - apply names_of_cons in Hnames as (n & names' & Hn & Hrest & ->).
    destruct (populate_one fuel repo n w Hn) as (new1 & Ht1 & HP1 & Hs1).
    unfold after in *.
    destruct (populate_db_from_prs server db_fault fuel [repo] w) as [r1 w1] eqn:Ep.
    cbn [snd] in Ht1, Hs1.
    assert (Hstop : (forall count, r1 <> Ok count) ->
                    snd (crawl server db_fault fuel (repo :: repos) processed candidates total w)
                    = w1
                    /\ forall res,
                         fst (crawl server db_fault fuel (repo :: repos) processed candidates
                                    total w) <> Ok res).
    { intros Hr1. cbn [crawl].
      match goal with |- context [bind ?m ?k w] =>
        destruct (bind_stop m k w) as [Hw Hno]; [now rewrite Ep | ];
        rewrite Ep in Hw; now split end. }
    destruct r1 as [count | e | | ];
      try (destruct Hstop as [Hw Hno]; [discriminate | ];
           exists (Print (ProcessingRepo n) :: new1), [], (n :: names');
           rewrite Hw;
           split; [exact Ht1 | ];
           split; [constructor;
                   [apply crawl_event_head; now cbn
                   | eapply Forall_impl; [ | exact HP1];
                     intros ev Hev; now apply crawl_event_head, inner_is_repo_event] | ];
           split; [reflexivity | ];
           split; [right; exists n, names'; split; [reflexivity | ];
                   rewrite milestones_cons, (inner_no_milestone _ _ HP1); reflexivity | ];
           split; [exact Hs1 | ]; intros res Hres; now destruct (Hno res)).
    clear Hstop.
    assert (Hgo : exists w3,
               crawl server db_fault fuel (repo :: repos) processed candidates total w
               = crawl server db_fault fuel repos (processed ++ [n]) candidates
                       (total + count)%Z w3
               /\ trace w3 = trace w1
                             ++ [SaveProgress (processed ++ [n]);
                                 Print (ProgressSaved
                                          (Z.of_nat (length (processed ++ [n]))) candidates)]
               /\ progress_json w3 = Some (processed ++ [n])).
    { eexists. cbn [crawl]. rewrite (bind_ok _ _ _ _ _ Ep). rewrite Hn. run.
      split; [reflexivity | ]. split; [now rewrite <- app_assoc | reflexivity]. }
    destruct Hgo as (w3 & Hgo & Ht3 & Hs3). rewrite Hgo.
    destruct (IH names' (processed ++ [n]) candidates (total + count)%Z w3 Hrest)
      as (new2 & done & rest & Ht2 & HP2 & Hsplit & Hms & Hs2 & Hok).
    unfold after in *.
    exists (Print (ProcessingRepo n) :: new1
            ++ [SaveProgress (processed ++ [n]);
                Print (ProgressSaved (Z.of_nat (length (processed ++ [n]))) candidates)]
            ++ new2), (n :: done), rest.
    split; [ | split; [ | split; [ | split; [ | split]]]].
    + rewrite Ht2, Ht3, Ht1. now rewrite <- !app_assoc.
    + constructor; [apply crawl_event_head; now cbn | ].
      apply Forall_app. split.
      * eapply Forall_impl; [ | exact HP1].
        intros e He. now apply crawl_event_head, inner_is_repo_event.
      * constructor; [now right | ]. constructor; [now right | ].
        eapply Forall_impl; [ | exact HP2]. intros e. apply crawl_event_mono.
    + now rewrite Hsplit.
    + rewrite milestones_cons, !milestones_app, (inner_no_milestone _ _ HP1).
      cbn [schedule]. destruct Hms as [Hms | (m & rest' & Hr & Hms)].
      * left. now rewrite Hms.
      * right. exists m, rest'. split; [exact Hr | ]. now rewrite Hms.
    + rewrite Hs2, Hs3. destruct done; [reflexivity | ].
      now rewrite <- app_assoc.
    + intros res Hres. destruct (Hok res Hres) as (Hr & Hm & Hf).
      split; [exact Hr | ]. split.
      * rewrite milestones_cons, !milestones_app, (inner_no_milestone _ _ HP1), Hm.
        reflexivity.
      * rewrite Hf. now rewrite <- app_assoc.
Qed.

Lemma existsb_eqb_in x l : existsb (String.eqb x) l = true <-> In x l.
Proof.
  rewrite existsb_exists. split.
  - intros (y & Hy & E). apply String.eqb_eq in E. now subst.
  - intros H. exists x. split; [exact H | apply String.eqb_refl].
Qed.

Lemma fresh_not_processed processed names x :
  In x (fresh processed names) -> ~ In x processed.
Proof.
  unfold fresh. rewrite filter_In. intros [_ H] Hin.
  apply existsb_eqb_in in Hin. rewrite Hin in H. discriminate.
Qed.

(** the comprehension keeps, in order, the candidates whose name is not in
    the processed set *)
Lemma not_processed_names repos processed :
  forall names,
    names_of repos = Ok names ->
    exists todo, not_processed repos processed = Ok todo
                 /\ names_of todo = Ok (fresh processed names).
Proof.
  induction repos as [ | repo repos IH]; intros names Hnames.
  - injection Hnames as <-. now exists [].
  - apply names_of_cons in Hnames as (n & rest & Hn & Hrest & ->).
    destruct (IH rest Hrest) as (todo & Htodo & Hnt).
    cbn [not_processed]. rewrite Hn, Htodo. cbn [obind fresh filter].
    destruct (existsb (String.eqb n) processed); cbn [negb].
    + now exists todo.
    + exists (repo :: todo). split; [reflexivity | ].
      unfold names_of in *. cbn [traverse]. rewrite Hn, Hnt. reflexivity.
Qed.

Lemma not_processed_fresh repos processed :
  forall todo,
    not_processed repos processed = Ok todo ->
    exists names, names_of todo = Ok names /\ forall x, In x names -> ~ In x processed.
Proof.
  induction repos as [ | repo repos IH]; intros todo Htodo.
  - injection Htodo as <-. exists []. split; [reflexivity | intros x []].
  - cbn [not_processed] in Htodo.
    destruct (obind (getitem repo "full_name") text) as [n | | | ] eqn:Hn; try discriminate.
    cbn [obind] in Htodo.
    destruct (not_processed repos processed) as [tail | | | ]; try discriminate.
    cbn [obind] in Htodo. destruct (IH tail eq_refl) as (names & Hnames & Hfresh).
    destruct (existsb (String.eqb n) processed) eqn:E; injection Htodo as <-.
    + now exists names.
    + exists (n :: names). split.
      * unfold names_of in *. cbn [traverse]. now rewrite Hn, Hnames.
      * intros x [<- | Hx]; [ | now apply Hfresh].
        intros Hin. apply existsb_eqb_in in Hin. congruence.
Qed.

(** what [resume] does before the crawl starts *)
Lemma resume_unfold fuel repos w :
  resume server db_fault fuel repos w
  = match not_processed repos (loaded w) with
    | Ok todo =>
        crawl server db_fault fuel todo (loaded w) (Z.of_nat (length repos)) 0%Z
              (after (print (WillProcess (Z.of_nat (length todo))))
                 (after (print (PreviouslyProcessed (Z.of_nat (length (loaded w))))) w))
    | Raise e =>
        (Raise e, after (print (PreviouslyProcessed (Z.of_nat (length (loaded w))))) w)
    | Diverge =>
        (Diverge, after (print (PreviouslyProcessed (Z.of_nat (length (loaded w))))) w)
    | Unmodelled =>
        (Unmodelled, after (print (PreviouslyProcessed (Z.of_nat (length (loaded w))))) w)
    end.
Proof.
  unfold resume, loaded. run. now destruct (not_processed repos _).
Qed.

(** Whatever the candidates, nothing in a run concerns a repository whose
    name was in progress.json when the run started. *)
Lemma resume_skips fuel repos w :
  exists new,
    trace (after (resume server db_fault fuel repos) w) = trace w ++ new
    /\ forall x, In x (loaded w) -> Forall (fun e => ~ concerns x e) new.
Proof.
  unfold after. rewrite resume_unfold.
  destruct (not_processed repos (loaded w)) as [todo | e | | ] eqn:Htodo;
    try (eexists; split; [reflexivity | ];
         intros x _; constructor; [cbn; tauto | constructor]).
  destruct (not_processed_fresh _ _ _ Htodo) as (names & Hnames & Hfresh).
  match goal with |- context [crawl _ _ _ _ ?p ?c ?t ?w2] =>
    destruct (crawl_schedule fuel todo names p c t w2 Hnames)
      as (new & done & rest & Ht & HP & _) end.
  unfold after in *. rewrite Ht. cbn [snd print emit trace].
  eexists. split; [rewrite <- !app_assoc; reflexivity | ].
  intros x Hx. constructor; [cbn; tauto | ]. constructor; [cbn; tauto | ].
  eapply Forall_impl; [ | exact HP]. intros e. apply crawl_event_elsewhere.
  intros Hin. now apply (Hfresh x).
Qed.

Lemma populate_trace fuel repo w :
  trace (after (populate_db_from_prs server db_fault fuel [repo]) w)
  = trace (after (process_repo server db_fault fuel repo 0) (after sqlite_connect w)).
Proof.
  unfold populate_db_from_prs. cbn [process_repos].
  change (after (sqlite_connect ;; ?k) w) with (after k (after sqlite_connect w)).
  rewrite after_bind_silent; [ | intros; reflexivity].
  rewrite after_bind_silent; [ | intros; reflexivity].
  reflexivity.
Qed.

Lemma inner_answers_nothing n x new :
  n <> x -> Forall (inner_event n) new -> answered (languages_url x) new = [].
Proof.
  intros Hne. induction 1 as [ | e new He _ IH]; [reflexivity | ].
  rewrite answered_cons, IH, app_nil_r.
  destruct e as [u r | d | m | row res | | names]; try reflexivity.
  unfold answered. cbn [flat_map app].
  destruct (String.eqb_spec u (languages_url x)) as [-> | ]; [ | reflexivity].
  exfalso. apply (repo_event_elsewhere n x (Get (languages_url x) r) Hne).
  - now apply inner_is_repo_event.
  - now left.
Qed.

Lemma populate_one_lookups fuel repo n w x :
  obind (getitem repo "full_name") text = Ok n ->
  exists new,
    trace (after (populate_db_from_prs server db_fault fuel [repo]) w) = trace w ++ new
    /\ (length (answered (languages_url x) new) <= 1)%nat
    /\ (n <> x -> answered (languages_url x) new = []).
Proof.
  intros Hn.
  destruct (populate_one fuel repo n w Hn) as (new & Ht & HP & _).
  exists (Print (ProcessingRepo n) :: new). split; [exact Ht | ].
  assert (Hother : n <> x -> answered (languages_url x) (Print (ProcessingRepo n) :: new) = []).
  { intros Hne. rewrite answered_cons. now apply inner_answers_nothing with (n := n). }
  split; [ | exact Hother].
  destruct (String.eqb_spec n x) as [<- | Hne]; [ | rewrite (Hother Hne); cbn; lia].
  destruct (process_repo_lookups server db_fault fuel repo n 0 (after sqlite_connect w) Hn)
    as (new' & Ht' & Hc).
  rewrite populate_trace, Ht' in Ht. cbn [after snd sqlite_connect trace] in Ht.
  apply app_inv_head in Ht. now rewrite <- Ht.
Qed.

Lemma crawl_step fuel repo repos processed candidates total w n :
  obind (getitem repo "full_name") text = Ok n ->
  (exists count w3,
      crawl server db_fault fuel (repo :: repos) processed candidates total w
      = crawl server db_fault fuel repos (processed ++ [n]) candidates (total + count)%Z w3
      /\ trace w3
         = trace (after (populate_db_from_prs server db_fault fuel [repo]) w)
           ++ [SaveProgress (processed ++ [n]);
               Print (ProgressSaved (Z.of_nat (length (processed ++ [n]))) candidates)])
  \/ after (crawl server db_fault fuel (repo :: repos) processed candidates total) w
     = after (populate_db_from_prs server db_fault fuel [repo]) w.
Proof.
  intros Hn. unfold after.
  destruct (populate_db_from_prs server db_fault fuel [repo] w) as [r1 w1] eqn:Ep.
  destruct r1 as [count | e | | ].
  - left. exists count. eexists. cbn [crawl]. rewrite (bind_ok _ _ _ _ _ Ep). rewrite Hn. run.
    split; [reflexivity | now rewrite <- app_assoc].
  - right. cbn [crawl]. unfold bind at 1. now rewrite Ep.
  - right. cbn [crawl]. unfold bind at 1. now rewrite Ep.
  - right. cbn [crawl]. unfold bind at 1. now rewrite Ep.
Qed.

Lemma crawl_lookups fuel repos x :
  forall names processed candidates total w,
    names_of repos = Ok names ->
    NoDup names ->
    exists new,
      trace (after (crawl server db_fault fuel repos processed candidates total) w)
      = trace w ++ new
      /\ (length (answered (languages_url x) new) <= 1)%nat
      /\ (~ In x names -> answered (languages_url x) new = []).
Proof.
  induction repos as [ | repo repos IH]; intros names processed candidates total w Hnames Hnd.
  - exists []. cbn. split; [now rewrite app_nil_r | ]. split; [lia | reflexivity].
  - apply names_of_cons in Hnames as (n & names' & Hn & Hrest & ->).
    inversion Hnd as [ | k ks Hnotin Hnd']; subst.
    destruct (populate_one_lookups fuel repo n w x Hn) as (new1 & Ht1 & Hc1 & Ho1).
    destruct (crawl_step fuel repo repos processed candidates total w n Hn)
      as [(count & w3 & Hgo & Ht3) | Hstop].
    + destruct (IH names' (processed ++ [n]) candidates (total + count)%Z w3 Hrest Hnd')
        as (new2 & Ht2 & Hc2 & Ho2).
      unfold after in *. rewrite Hgo, Ht2, Ht3, Ht1.
      eexists. split; [rewrite <- !app_assoc; reflexivity | ].
      rewrite !answered_app.
      change (answered (languages_url x) [SaveProgress _; Print _]) with (@nil Response).
      cbn [app]. rewrite length_app.
      destruct (String.eqb_spec n x) as [<- | Hne].
      * rewrite (Ho2 Hnotin). cbn [length]. split; [lia | ].
        intros Hx. exfalso. apply Hx. now left.
      * rewrite (Ho1 Hne). cbn [length]. split; [exact Hc2 | ].
        intros Hx. apply Ho2. intros Hin. apply Hx. now right.
    + rewrite Hstop. exists new1. split; [exact Ht1 | ]. split; [exact Hc1 | ].
      intros Hx. apply Ho1. intros ->. apply Hx. now left.
Qed.

(** Over a run whose candidates have distinct names, the language endpoint
    of any repository is answered at most once. *)
Lemma resume_lookups fuel repos names w x :
  names_of repos = Ok names ->
  NoDup names ->
  exists new,
    trace (after (resume server db_fault fuel repos) w) = trace w ++ new
    /\ (length (answered (languages_url x) new) <= 1)%nat.
Proof.
  intros Hnames Hnd. unfold after. rewrite resume_unfold.
  destruct (not_processed_names repos (loaded w) names Hnames) as (todo & Htodo & Hfresh).
  rewrite Htodo.
  match goal with |- context [crawl _ _ _ _ ?p ?c ?t ?w2] =>
    destruct (crawl_lookups fuel todo x (fresh (loaded w) names) p c t w2 Hfresh)
      as (new & Ht & Hc & _); [now apply NoDup_filter | ] end.
  unfold after in *. rewrite Ht. cbn [snd print emit trace].
  eexists. split; [rewrite <- !app_assoc; reflexivity | ].
  change (Print ?a :: Print ?b :: new) with ([Print a; Print b] ++ new).
  now rewrite answered_app.
Qed.

End Resume.

Lemma retried_prefix ms more : retried (ms ++ more) = false -> retried ms = false.
Proof.
  induction ms as [ | m ms IH]; [reflexivity | ].
  destruct m as [n | names]; cbn [retried app]; [exact IH | ].
  intros H. apply orb_false_iff in H as [H1 H2].
  rewrite existsb_app in H1. apply orb_false_iff in H1 as [H1 _].
  now rewrite H1, (IH H2).
Qed.

Lemma schedule_started_later (f : Milestone -> bool) names :
  (forall n, In n names -> f (Started n) = false) ->
  (forall l, f (Persisted l) = false) ->
  forall processed, existsb f (schedule processed names) = false.
Proof.
  intros Hs Hp. induction names as [ | n names IH]; intros processed; [reflexivity | ].
  cbn [schedule existsb]. rewrite Hs by now left. rewrite Hp.
  apply IH. intros m Hm. apply Hs. now right.
Qed.

Lemma retried_schedule names :
  NoDup names ->
  forall processed,
    (forall x, In x names -> ~ In x processed) ->
    retried (schedule processed names) = false.
Proof.
  induction 1 as [ | n names Hn Hnd IH]; intros processed Hfresh; [reflexivity | ].
  cbn [schedule retried].
  assert (Hrest : forall x, In x names -> ~ In x (processed ++ [n])).
  { intros x Hx Hin. apply in_app_or in Hin as [Hin | [<- | []]].
    - apply (Hfresh x); [now right | exact Hin].
    - contradiction. }
  rewrite (IH _ Hrest), orb_false_r.
  apply schedule_started_later; [ | reflexivity].
  intros m Hm. destruct (existsb (String.eqb m) (processed ++ [n])) eqn:E; [ | reflexivity].
  apply existsb_eqb_in in E. now destruct (Hrest m Hm).
Qed.

Lemma schedule_app processed done rest :
  schedule processed (done ++ rest)
  = schedule processed done ++ schedule (processed ++ done) rest.
Proof.
  revert processed. induction done as [ | n done IH]; intros processed; cbn [schedule app].
  - now rewrite app_nil_r.
  - rewrite IH. now rewrite <- app_assoc.
Qed.

(** C1 (as amended).  A run of the entry point from the reload of
    progress.json on, over candidates that all carry a name:
    - nothing in the run concerns a repository whose name was in the set
      loaded at startup: its processing is not started, its language
      endpoint and its pull-request pages are not asked for, no row of it
      is handed to the store;
    - the candidates left are taken in order; each one completed ([done])
      was started and then its name was appended to the set and the set
      persisted, before the next one was started; at most one more was
      started and not completed; progress.json ends holding the loaded
      set followed by [done], and a run that returns has completed all;
    - when the candidates' names are distinct, no repository is started
      after a set holding its name was persisted;
    - in any later run, whatever the server and the candidates, nothing
      concerns a name that was loaded or completed in this one. *)
Theorem resume_correct (server : nat -> string -> Response) (db_fault : nat -> option string)
        (fuel : nat) (repos : list json) (names : list string) (w : World) :
  names_of repos = Ok names ->
  exists new done rest,
    trace (after (resume server db_fault fuel repos) w) = trace w ++ new
    /\ (forall x, In x (loaded w) -> Forall (fun e => ~ concerns x e) new)
    /\ fresh (loaded w) names = done ++ rest
    /\ (milestones new = schedule (loaded w) done
        \/ exists n rest', rest = n :: rest'
                           /\ milestones new = schedule (loaded w) done ++ [Started n])
    /\ loaded (after (resume server db_fault fuel repos) w) = loaded w ++ done
    /\ (forall res, fst (resume server db_fault fuel repos w) = Ok res ->
                    rest = [] /\ fst res = loaded w ++ fresh (loaded w) names)
    /\ (NoDup names -> retried (milestones new) = false)
    /\ (forall server' db_fault' fuel' repos' w',
          loaded w' = loaded (after (resume server db_fault fuel repos) w) ->
          exists new',
            trace (after (resume server' db_fault' fuel' repos') w') = trace w' ++ new'
            /\ forall x, In x (loaded w) \/ In x done ->
                         Forall (fun e => ~ concerns x e) new').
Proof.
  intros Hnames.
  destruct (resume_skips server db_fault fuel repos w) as (new0 & Ht0 & Hskip).
  destruct (not_processed_names repos (loaded w) names Hnames) as (todo & Htodo & Hfresh).
  assert (Hrun := resume_unfold server db_fault fuel repos w). rewrite Htodo in Hrun.
  match type of Hrun with _ = crawl _ _ _ _ ?p ?c ?t ?w2 =>
    destruct (crawl_schedule server db_fault fuel todo (fresh (loaded w) names) p c t w2 Hfresh)
      as (new & done & rest & Ht & HP & Hsplit & Hms & Hs & Hok);
    set (start := w2) in * end.
  unfold after in Ht, Hs, Ht0. rewrite <- Hrun in Ht, Hs, Hok.
  assert (Hloaded : loaded (after (resume server db_fault fuel repos) w) = loaded w ++ done).
  { unfold loaded at 1. unfold after. rewrite Hs. subst start.
    cbn [after snd print emit progress_json]. fold (loaded w).
    destruct done; [now rewrite app_nil_r | reflexivity]. }
  assert (Hnew : new0 = [Print (PreviouslyProcessed (Z.of_nat (length (loaded w))));
                         Print (WillProcess (Z.of_nat (length todo)))] ++ new).
  { rewrite Ht in Ht0. subst start. cbn [after snd print emit trace] in Ht0.
    rewrite <- !app_assoc in Ht0. apply app_inv_head in Ht0. now rewrite <- Ht0. }
  assert (Hsame : milestones new0 = milestones new) by now rewrite Hnew, milestones_app.
  exists new0, done, rest.
  split; [exact Ht0 | ]. split; [exact Hskip | ]. split; [exact Hsplit | ].
  split; [now rewrite Hsame | ]. split; [exact Hloaded | ].
  split; [ | split].
  - intros res Hres. destruct (Hok res Hres) as (Hr & _ & Hf). now split.
  - intros Hnd. rewrite Hsame.
    assert (Hall : retried (schedule (loaded w) (fresh (loaded w) names)) = false).
    { apply retried_schedule; [now apply NoDup_filter | ].
      intros x. apply fresh_not_processed. }
    rewrite Hsplit, schedule_app in Hall.
    destruct Hms as [-> | (n & rest' & -> & ->)].
    + now apply retried_prefix in Hall.
    + cbn [schedule] in Hall.
      change (Started n :: ?l) with ([Started n] ++ l) in Hall.
      rewrite app_assoc in Hall. now apply retried_prefix in Hall.
  - intros server' db_fault' fuel' repos' w' Hw'.
    destruct (resume_skips server' db_fault' fuel' repos' w') as (new' & Ht' & Hskip').
    exists new'. split; [exact Ht' | ].
    intros x Hx. apply Hskip'. rewrite Hw', Hloaded. now apply in_or_app.
Qed.

(** ** The reference extractor *)

Import Samples.

(** *** The matcher finds only what the patterns describe *)

Lemma length_append (a b : string) :
  String.length (a ^^ b) = (String.length a + String.length b)%nat.
Proof. induction a as [ | x a IH]; cbn; [reflexivity | now rewrite IH]. Qed.

Lemma substring_prefix (t rest : string) :
  substring 0 (String.length (t ^^ rest) - String.length rest) (t ^^ rest) = t.
Proof.
  rewrite length_append, Nat.add_sub.
  induction t as [ | x t IH]; cbn.
  - now destruct rest.
  - now rewrite IH.
Qed.

Lemma many_sound {A} p s (k : string -> option A) a :
  Re.many p s k = Some a ->
  exists t rest, s = t ^^ rest /\ all_chars p t = true /\ k rest = Some a.
Proof.
  induction s as [ | c s IH]; cbn [Re.many].
  - intros H. now exists "", "".
  - destruct (p c) eqn:Hc; [ | intros H; now exists "", (String c s)].
    destruct (Re.many p s k) as [a' | ] eqn:Hm.
    + intros [= ->]. destruct (IH eq_refl) as (t & rest & -> & Ht & Hk).
      exists (String c t), rest. cbn. now rewrite Hc, Ht.
    + intros H. now exists "", (String c s).
Qed.

Lemma rmatch_sound r :
  forall A s g (k : string -> option string -> option A) a,
    Re.rmatch r s g k = Some a ->
    exists t rest g', s = t ^^ rest /\ derives r t g g' /\ k rest g' = Some a.
Proof.
  induction r as [ | p | r1 IH1 r2 IH2 | r1 IH1 r2 IH2 | r1 IH1 | p | r1 IH1];
    intros A s g k a H; cbn [Re.rmatch] in H.
  - exists "", s, g. repeat split; [constructor | exact H].
  - destruct s as [ | c s]; [discriminate | ]. destruct (p c) eqn:Hc; [ | discriminate].
    exists (String c ""), s, g. repeat split; [now constructor | exact H].
  - apply IH1 in H as (t1 & rest1 & g1 & -> & H1 & H).
    apply IH2 in H as (t2 & rest2 & g2 & -> & H2 & H).
    exists (t1 ^^ t2), rest2, g2. split; [now rewrite append_assoc | ].
    split; [now apply derives_seq with (g1 := g1) | exact H].
  - destruct (Re.rmatch r1 s g k) as [a' | ] eqn:E.
    + injection H as ->. apply IH1 in E as (t & rest & g' & -> & Ht & Hk).
      exists t, rest, g'. repeat split; [now apply derives_alt_left | exact Hk].
    + apply IH2 in H as (t & rest & g' & -> & Ht & Hk).
      exists t, rest, g'. repeat split; [now apply derives_alt_right | exact Hk].
  - destruct (Re.rmatch r1 s g k) as [a' | ] eqn:E.
    + injection H as ->. apply IH1 in E as (t & rest & g' & -> & Ht & Hk).
      exists t, rest, g'. repeat split; [now apply derives_opt_some | exact Hk].
    + exists "", s, g. repeat split; [constructor | exact H].
  - destruct s as [ | c s]; [discriminate | ]. destruct (p c) eqn:Hc; [ | discriminate].
    apply many_sound in H as (t & rest & -> & Ht & Hk).
    exists (String c t), rest, g. repeat split; [now constructor | exact Hk].
  - apply IH1 in H as (t & rest & g' & -> & Ht & Hk).
    rewrite substring_prefix in Hk.
    exists t, rest, (Some t). repeat split; [now apply derives_group with (g1 := g') | exact Hk].
Qed.

Lemma match_here_sound r s found consumed :
  Re.match_here r s = Some (found, consumed) ->
  exists t rest g, s = t ^^ rest /\ derives r t None g /\ found = group_text g.
Proof.
  unfold Re.match_here. intros H.
  apply rmatch_sound in H as (t & rest & g & -> & Ht & [= <- _]).
  now exists t, rest, g.
Qed.

Lemma findall_from_sound r s :
  forall skip found,
    In found (Re.findall_from r s skip) ->
    exists before t rest g,
      s = before ^^ t ^^ rest /\ derives r t None g /\ found = group_text g.
Proof.
  induction s as [ | c s IH]; intros skip found Hin; [destruct Hin | ].
  assert (Hlater : forall n, In found (Re.findall_from r s n) ->
                             exists before t rest g,
                               String c s = before ^^ t ^^ rest
                               /\ derives r t None g /\ found = group_text g).
  { intros n Hn. destruct (IH n found Hn) as (before & t & rest & g & -> & Ht & Hg).
    now exists (String c before), t, rest, g. }
  cbn [Re.findall_from] in Hin. destruct skip as [ | n]; [ | now apply (Hlater n)].
  destruct (Re.match_here r (String c s)) as [[g0 consumed] | ] eqn:E; [ | now apply (Hlater 0%nat)].
  destruct Hin as [<- | Hin]; [ | now apply (Hlater (consumed - 1)%nat)].
  apply match_here_sound in E as (t & rest & g & E & Ht & Hg).
  exists "", t, rest, g. now rewrite E.
Qed.

Lemma lowercase_append a b : lowercase (a ^^ b) = lowercase a ^^ lowercase b.
Proof. induction a as [ | x a IH]; cbn; [reflexivity | now rewrite IH]. Qed.

Lemma derives_word w :
  forall t g g', derives (Re.word w) t g g' -> lowercase t = lowercase w /\ g' = g.
Proof.
  induction w as [ | c w IH]; intros t g g' H; cbn [Re.word] in H.
  - inversion H; subst. now split.
  - inversion H as [ | | r1 r2 s1 s2 g0 g1 g2 H1 H2 | | | | | | ]; subst.
    inversion H1 as [ | p x g3 Hx | | | | | | | ]; subst.
    apply IH in H2 as [H2 ->]. split; [ | reflexivity].
    cbn. rewrite H2. f_equal. unfold Re.same_letter in Hx. now apply Ascii.eqb_eq in Hx.
Qed.

Lemma derives_suffix_letter t g g' :
  derives (Re.Opt (Re.Chr Re.s_or_d)) t g g' ->
  (lowercase t = "" \/ lowercase t = "s" \/ lowercase t = "d") /\ g' = g.
Proof.
  intros H. inversion H as [ | | | | | r g0 | r s g0 g1 H1 | | ]; subst.
  - split; [now left | reflexivity].
  - inversion H1 as [ | p x g3 Hx | | | | | | | ]; subst. split; [ | reflexivity].
    unfold Re.s_or_d, Re.same_letter in Hx. apply orb_prop in Hx as [Hx | Hx];
      apply Ascii.eqb_eq in Hx; cbn; rewrite Hx; auto.
Qed.

Lemma derives_keyword t g g' :
  derives Re.keyword t g g' -> In (lowercase t) keywords /\ g' = g.
Proof.
  unfold Re.keyword. intros H.
  inversion H as [ | | | r1 r2 s g0 g1 H1 | r1 r2 s g0 g1 H1 | | | | ]; subst.
  - inversion H1 as [ | | r1 r2 s1 s2 g0 g1 g2 Hw Hs | | | | | | ]; subst.
    apply (derives_word "close") in Hw as [Hw ->].
    apply derives_suffix_letter in Hs as [Hs ->].
    split; [ | reflexivity]. rewrite lowercase_append, Hw.
    destruct Hs as [-> | [-> | ->]]; cbn; tauto.
  - inversion H1 as [ | | | r1 r2 s g0 g1 H2 | r1 r2 s g0 g1 H2 | | | | ]; subst.
    + inversion H2 as [ | | r1 r2 s1 s2 g0 g1 g2 Hw Hs | | | | | | ]; subst.
      apply (derives_word "fix") in Hw as [Hw ->].
      rewrite lowercase_append, Hw.
      inversion Hs as [ | | | | | r g0 | r s g0 g1 H3 | | ]; subst;
        [split; [cbn; tauto | reflexivity] | ].
      inversion H3 as [ | | r1 r2 s3 s4 g0 g3 g2 He Hd | | | | | | ]; subst.
      apply (derives_word "e") in He as [He ->].
      assert (Hd' : derives (Re.Opt (Re.Chr Re.s_or_d)) s4 g g') by now apply derives_opt_some.
      apply derives_suffix_letter in Hd' as [Hd' ->].
      rewrite lowercase_append, He. split; [ | reflexivity].
      inversion Hd as [ | p x g4 Hx | | | | | | | ]; subst.
      destruct Hd' as [Hd' | [Hd' | Hd']]; [discriminate | | ]; rewrite Hd'; cbn; tauto.
    + inversion H2 as [ | | r1 r2 s1 s2 g0 g1 g2 Hw Hs | | | | | | ]; subst.
      apply (derives_word "resolve") in Hw as [Hw ->].
      apply derives_suffix_letter in Hs as [Hs ->].
      split; [ | reflexivity]. rewrite lowercase_append, Hw.
      destruct Hs as [-> | [-> | ->]]; cbn; tauto.
Qed.

Lemma same_letter_hash x : Re.same_letter "#" x = true -> x = "#"%char.
Proof.
  destruct x as [[] [] [] [] [] [] [] []]; vm_compute; intros H;
    first [discriminate | reflexivity].
Qed.

Lemma derives_reference scope t g :
  derives (Re.reference scope) t None g ->
  exists keyword spaces name number g1 g2,
    t = keyword ^^ spaces ^^ name ^^ "#" ^^ number
    /\ In (lowercase keyword) keywords
    /\ spaces <> "" /\ all_chars Re.is_space spaces = true
    /\ derives scope name g1 g2
    /\ number <> "" /\ all_chars Re.is_digit number = true
    /\ g = Some number.
Proof.
  unfold Re.reference. intros H.
  inversion H as [ | | r1 r2 kw s2 g0 g1 g2 Hkw H2 | | | | | | ]; subst.
  apply derives_keyword in Hkw as [Hkw ->].
  inversion H2 as [ | | r1 r2 sp s3 g0 g1 g2 Hsp H3 | | | | | | ]; subst.
  inversion Hsp as [ | | | | | | | p c ws g0 Hc Hws | ]; subst.
  inversion H3 as [ | | r1 r2 nm s4 g0 g1 g2 Hnm H4 | | | | | | ]; subst.
  inversion H4 as [ | | r1 r2 hs s5 g0 g3 g2 Hhs H5 | | | | | | ]; subst.
  cbn [Re.word] in Hhs.
  inversion Hhs as [ | | r1 r2 h0 h1 g0 g4 g2 Hh0 Hh1 | | | | | | ]; subst.
  inversion Hh0 as [ | p x g5 Hx | | | | | | | ]; subst.
  inversion Hh1; subst. apply same_letter_hash in Hx as ->.
  inversion H5 as [ | | | | | | | | r s g0 g6 Hd ]; subst.
  inversion Hd as [ | | | | | | | p d ds g0 Hd1 Hds | ]; subst.
  exists kw, (String c ws), nm, (String d ds). do 2 eexists.
  split; [reflexivity | ]. split; [exact Hkw | ]. split; [discriminate | ].
  split; [cbn; now rewrite Hc, Hws | ]. split; [exact Hnm | ].
  split; [discriminate | ]. split; [cbn; now rewrite Hd1, Hds | reflexivity].
Qed.

(** every text [findall] returns for a reference pattern is the number of
    a closing reference written in the description *)
Lemma findall_reference_sound scope body number :
  In number (Re.findall (Re.reference scope) body) -> closes scope body number.
Proof.
  intros H. apply findall_from_sound in H as (before & t & rest & g & -> & Ht & ->).
  apply derives_reference in Ht
    as (kw & sp & nm & num & g1 & g2 & -> & Hkw & Hsp & Hspaces & Hnm & Hnum & Hdigits & ->).
  exists before, kw, sp, nm, rest, g1, g2. cbn [group_text].
  split; [now rewrite !append_assoc | ]. now repeat split.
Qed.

Lemma get_issues_from_pr_text pr body repo pats :
  get pr "body" (JStr "") = Ok (JStr body) ->
  body <> "" ->
  patterns repo = Some pats ->
  get_issues_from_pr pr repo
  = Ok (flat_map (fun pattern => map (issue_url_of repo) (Re.findall pattern body)) pats).
Proof.
  intros Hbody Hne Hpats. unfold get_issues_from_pr. rewrite Hbody. cbn [obind truthy].
  destruct (String.eqb_spec body ""); [contradiction | ]. cbn [negb]. now rewrite Hpats.
Qed.

Lemma patterns_owner_repo :
  patterns "owner/repo" = Some [Re.reference Re.Eps; Re.reference (Re.word "owner/repo")].
Proof. reflexivity. Qed.

(** matching ["fixes #1 "] at the head of a text does not look past it *)
Lemma bare_matches_reference rest :
  Re.match_here (Re.reference Re.Eps) ("fixes #1 " ^^ rest) = Some ("1", 8%nat).
Proof.
  unfold Re.match_here, Re.reference, Re.keyword.
  lazy -[String.length Nat.sub substring].
  replace (String.length (String "1" (String " " rest)) - String.length (String " " rest))%nat
    with 1%nat by (cbn [String.length]; lia).
  match goal with |- Some (_, ?n) = _ =>
    replace n with 8%nat by (cbn [String.length]; lia) end.
  reflexivity.
Qed.

Lemma findall_bare_reference rest :
  Re.findall (Re.reference Re.Eps) ("fixes #1 " ^^ rest)
  = "1" :: Re.findall (Re.reference Re.Eps) rest.
Proof.
  unfold Re.findall. cbn [String.append]. cbn [Re.findall_from].
  change (String "f" (String "i" (String "x" (String "e" (String "s" (String " "
            (String "#" (String "1" (String " " rest)))))))))
    with ("fixes #1 " ^^ rest).
  rewrite bare_matches_reference. cbn [Nat.sub Re.findall_from].
  replace (Re.match_here (Re.reference Re.Eps) (String " " rest)) with (@None (string * nat))
    by (unfold Re.match_here, Re.reference, Re.keyword; lazy -[String.length Nat.sub substring];
        reflexivity).
  reflexivity.
Qed.

Lemma findall_scoped_reference rest :
  Re.findall (Re.reference (Re.word "owner/repo")) ("fixes #1 " ^^ rest)
  = Re.findall (Re.reference (Re.word "owner/repo")) rest.
Proof.
  unfold Re.findall. cbn [String.append]. cbn [Re.findall_from].
  repeat match goal with
         | |- context [Re.match_here ?r (String ?c ?s)] =>
             replace (Re.match_here r (String c s)) with (@None (string * nat))
               by (unfold Re.match_here, Re.reference, Re.keyword;
                   lazy -[String.length Nat.sub substring]; reflexivity);
             cbn [Re.findall_from]
         end.
  reflexivity.
Qed.

Lemma get_issues_repeated k :
  get_issues_from_pr (JObj [("body", JStr (repeated (S k)))]) "owner/repo"
  = Ok (repeat (issue_url_of "owner/repo" "1") (S k)).
Proof.
  rewrite (get_issues_from_pr_text (JObj [("body", JStr (repeated (S k)))])
             (repeated (S k)) "owner/repo" _ eq_refl ltac:(discriminate) patterns_owner_repo).
  f_equal. cbn [flat_map]. rewrite app_nil_r.
  assert (Hbare : forall n, Re.findall (Re.reference Re.Eps) (repeated n) = repeat "1" n).
  { induction n as [ | n IH]; [reflexivity | ].
    cbn [repeated]. now rewrite findall_bare_reference, IH. }
  assert (Hscoped : forall n, Re.findall (Re.reference (Re.word "owner/repo")) (repeated n) = []).
  { induction n as [ | n IH]; [reflexivity | ].
    cbn [repeated]. now rewrite findall_scoped_reference. }
  rewrite Hbare, Hscoped, app_nil_r. now rewrite map_repeat.
Qed.

(** C5: the claim as stated fails.  A description that repeats a closing
    reference yields its issue URL as many times: the result has a
    duplicate. *)
Lemma extractor_keeps_duplicates :
  get_issues_from_pr (JObj [("body", JStr "Fixes #42, also fixes #42")]) "owner/repo"
  = Ok ["https://github.com/owner/repo/issues/42"; "https://github.com/owner/repo/issues/42"]
  /\ ~ NoDup ["https://github.com/owner/repo/issues/42";
              "https://github.com/owner/repo/issues/42"].
Proof.
  split; [reflexivity | ].
  intros H. inversion H as [ | x l Hnotin _]; subst. apply Hnotin. now left.
Qed.

(** C5 (as amended).  On a description that is a non-empty text, the
    extractor returns a list with one issue URL per match: the matches of
    the bare [#N] form in the order of the text, then the matches of the
    [owner/repo#N] form in the order of the text.  Every URL returned is
    that of an issue whose number is written in the description in a
    closing reference.  Duplicates are kept: a reference written [k] times
    yields its URL [k] times.  On ["Fixes #42 and closes owner/repo#7"]
    the list is exactly the two issue URLs, without duplicate. *)
Theorem extractor_returns_every_match (pr : json) (body repo : string) (scope : Re.regex) :
  get pr "body" (JStr "") = Ok (JStr body) ->
  body <> "" ->
  Re.parse_name (Re.escape_slashes repo) = Some scope ->
  get_issues_from_pr pr repo
  = Ok (map (issue_url_of repo) (Re.findall (Re.reference Re.Eps) body)
        ++ map (issue_url_of repo) (Re.findall (Re.reference scope) body))
  /\ (forall issues u,
        get_issues_from_pr pr repo = Ok issues ->
        In u issues ->
        exists number,
          u = issue_url_of repo number
          /\ (closes Re.Eps body number \/ closes scope body number))
  /\ (forall k,
        get_issues_from_pr (JObj [("body", JStr (repeated (S k)))]) "owner/repo"
        = Ok (repeat (issue_url_of "owner/repo" "1") (S k)))
  /\ get_issues_from_pr (JObj [("body", JStr "Fixes #42 and closes owner/repo#7")]) "owner/repo"
     = Ok ["https://github.com/owner/repo/issues/42"; "https://github.com/owner/repo/issues/7"]
  /\ NoDup ["https://github.com/owner/repo/issues/42"; "https://github.com/owner/repo/issues/7"].
Proof.
  intros Hbody Hne Hscope.
  assert (Hrun : get_issues_from_pr pr repo
                 = Ok (map (issue_url_of repo) (Re.findall (Re.reference Re.Eps) body)
                       ++ map (issue_url_of repo) (Re.findall (Re.reference scope) body))).
  { rewrite (get_issues_from_pr_text pr body repo
               [Re.reference Re.Eps; Re.reference scope] Hbody Hne).
    - cbn [flat_map]. now rewrite app_nil_r.
    - unfold patterns. now rewrite Hscope. }
  split; [exact Hrun | ]. split; [ | split; [ | split]].
  - intros issues u Hissues Hu. rewrite Hrun in Hissues. injection Hissues as <-.
    apply in_app_or in Hu as [Hu | Hu]; apply in_map_iff in Hu as (number & <- & Hn);
      exists number; (split; [reflexivity | ]).
    + left. now apply findall_reference_sound.
    + right. now apply findall_reference_sound.
  - apply get_issues_repeated.
  - reflexivity.
  - constructor; [ | constructor; [intros [] | constructor]].
    intros [H | []]. discriminate.
Qed.


(** ** One language lookup per repository, over a run *)

(** C6: the claim as stated fails.  A repository listed twice among the
    candidates and not yet in the processed set is processed twice in the
    run, and its language endpoint is answered twice. *)
Lemma languages_looked_up_twice :
  answered (languages_url "o/r")
           (trace (after (resume nine_then_two no_fault 1 [repo "o/r"; repo "o/r"]) start))
  = [ok (JObj [("Python", JNum 1200); ("C", JNum 80)]);
     ok (JObj [("Python", JNum 1200); ("C", JNum 80)])]
  /\ fst (resume nine_then_two no_fault 1 [repo "o/r"; repo "o/r"] start)
     = Ok (["o/r"; "o/r"], 11%Z).
Proof. vm_compute. split; reflexivity. Qed.

(** C6 (as amended).  Each time a repository is processed:
    - the language lookup is one call of [get_languages], made right after
      the line that opens the repository; all the GETs of that call ask
      for the language endpoint, at most one of them is answered (the
      others are rounds of the fetcher waiting), and nothing that follows
      in the processing asks for the endpoint again;
    - when the call returns, exactly one GET of the endpoint was answered;
      the value returned is what that reply holds, the serialized keys of
      a 200's payload or the serialized empty list for a reply that made
      the fetcher give up; every row handed to the store carries that
      value; and the processing goes on with the rest of the body of the
      loop;
    - a lookup that the fetcher gives up, after any number of replies it
      waits on, does return, with the serialized empty list.
    Over a run whose candidates have distinct names, the language endpoint
    of every repository is answered at most once.  For [o/r], whose
    languages cannot be fetched and whose pull request closes two issues,
    the two rows are handed to the store with the serialized empty
    list. *)
Theorem languages_looked_up_once (server : nat -> string -> Response)
        (db_fault : nat -> option string) (fuel : nat) (w : World) :
  (forall repo name total,
      obind (getitem repo "full_name") text = Ok name ->
      exists lookup rest,
        trace (after (get_languages server fuel name) (after (print (ProcessingRepo name)) w))
        = trace w ++ Print (ProcessingRepo name) :: lookup
        /\ trace (after (process_repo server db_fault fuel repo total) w)
           = trace w ++ Print (ProcessingRepo name) :: lookup ++ rest
        /\ Forall (fetch_event (languages_url name)) lookup
        /\ (length (answered (languages_url name) lookup) <= 1)%nat
        /\ ~ In (languages_url name) (urls_got rest)
        /\ forall langs w2,
             get_languages server fuel name (after (print (ProcessingRepo name)) w)
             = (Ok langs, w2) ->
             (exists r, answered (languages_url name) lookup = [r]
                        /\ languages_of r = Ok langs)
             /\ Forall (fun row => languages row = langs) (executed (lookup ++ rest))
             /\ process_repo server db_fault fuel repo total w
                = after_lookup server db_fault fuel name langs total w2)
  /\ (forall name k r,
        (k <= fuel)%nat ->
        replies_after server (now w) (languages_url name) (requests w) k r ->
        gives_up r = true ->
        languages_of r = Ok "[]"
        /\ exists w2,
             get_languages server (S fuel) name (after (print (ProcessingRepo name)) w)
             = (Ok "[]", w2))
  /\ (forall repos names x,
        names_of repos = Ok names ->
        NoDup names ->
        exists new,
          trace (after (resume server db_fault fuel repos) w) = trace w ++ new
          /\ (length (answered (languages_url x) new) <= 1)%nat)
  /\ map languages
         (executed (trace (after (process_repo one_pull no_fault 1 (repo "o/r") 0) start)))
     = ["[]"; "[]"].
Proof.
  split; [ | split; [ | split]].
  - intros repo name total Hname. now apply process_repo_lookup.
  - intros name k r Hk Hrep Hg. split; [now apply languages_of_given_up | ].
    now apply (get_languages_degrades server fuel name
                 (after (print (ProcessingRepo name)) w) k r).
  - intros repos names x Hnames Hnd. now apply resume_lookups with (names := names).
  - vm_compute. reflexivity.
Qed.

(** ** Storage errors *)

(** C8.  Whatever INSERTs raise a storage error:
    - the insert loop of a pull request comes to its end without raising:
      every issue URL of the list is handed to the INSERT statement, in
      order, and every INSERT that raised is reported on the console with
      its message and its URL;
    - over a whole call of [populate_db_from_prs], for any list of
      repositories, the failures change nothing of what is attempted: with
      another pattern of failing INSERTs (none, for one) the call asks the
      API for the same URLs, hands the same rows to the store in the same
      order, and ends in the same way; every failure is on the console.
      (Connecting, committing and closing are taken to succeed, as they
      are throughout the embedding.)
    For [o/r], whose two merged pull requests close nine and two issues:
    when the first INSERT fails, the ten that follow are made and their
    rows committed; when every INSERT fails, over two passes, all
    twenty-two are made and reported, and the call returns 0. *)
Theorem storage_errors_are_contained
        (server : nat -> string -> Response) (db_fault db_fault' : nat -> option string) :
  (forall repo pr langs before_url after_url files urls added total w,
      exists added' total' w' new,
        save_linked_issues db_fault repo pr langs before_url after_url files urls added total w
        = (Ok (added', total'), w')
        /\ trace w' = trace w ++ new
        /\ executed new = map (fun u => mkRow u repo pr langs before_url after_url files) urls
        /\ db_errors new = failures new)
  /\ (forall fuel repos w,
        exists new new',
          trace (after (populate_db_from_prs server db_fault fuel repos) w) = trace w ++ new
          /\ trace (after (populate_db_from_prs server db_fault' fuel repos) w) = trace w ++ new'
          /\ executed new = executed new'
          /\ urls_got new = urls_got new'
          /\ db_errors new = failures new
          /\ alike (fun _ _ => True)
                   (fst (populate_db_from_prs server db_fault fuel repos w))
                   (fst (populate_db_from_prs server db_fault' fuel repos w)))
  /\ (fst (populate_db_from_prs nine_then_two first_fails 1 [repo "o/r"] start) = Ok 10%Z
      /\ map issue_url
             (executed (trace (after (populate_db_from_prs nine_then_two first_fails 1
                                        [repo "o/r"]) start)))
         = map (issue_url_of "o/r") ["1"; "2"; "3"; "4"; "5"; "6"; "7"; "8"; "9"; "10"; "11"]
      /\ db_errors (trace (after (populate_db_from_prs nine_then_two first_fails 1
                                    [repo "o/r"]) start))
         = [("database is locked", issue_url_of "o/r" "1")]
      /\ map issue_url
             (durable (after (populate_db_from_prs nine_then_two first_fails 1 [repo "o/r"])
                         start))
         = map (issue_url_of "o/r") ["2"; "3"; "4"; "5"; "6"; "7"; "8"; "9"; "10"; "11"])
  /\ (fst (populate_db_from_prs nine_then_two disk_full 1 [repo "o/r"; repo "o/r"] start)
      = Ok 0%Z
      /\ length (executed (trace (after (populate_db_from_prs nine_then_two disk_full 1
                                           [repo "o/r"; repo "o/r"]) start)))
         = 22%nat
      /\ length (db_errors (trace (after (populate_db_from_prs nine_then_two disk_full 1
                                            [repo "o/r"; repo "o/r"]) start)))
         = 22%nat).
Proof.
  split; [ | split; [ | split]].
  - intros. apply save_linked_issues_attempts_all.
  - intros fuel repos w.
    destruct (mirrors_populate_db_from_prs server db_fault db_fault' fuel repos w w)
      as (_ & Ha & new & new' & Ht & Ht' & Hx & Hu & He & _); [now split | ].
    exists new, new'. now repeat split.
  - vm_compute. repeat split.
  - vm_compute. repeat split.
Qed.

(** ** Commit batching *)

(** C7.  A repository whose first merged pull request closes nine issues
    and whose second closes two: eleven rows are inserted and the only
    commit is the one that ends the repository.  The check after the
    second pull request sees a count of 11, not a multiple of 10, so the
    tenth insert is not followed by a commit and eleven inserted rows are
    pending at once. *)
Theorem commit_check_skips_tenth_insert :
  fst (populate_db_from_prs nine_then_two no_fault 1 [repo "o/r"] start) = Ok 11%Z
  /\ store_steps (trace (after (populate_db_from_prs nine_then_two no_fault 1 [repo "o/r"]) start))
     = repeat Added 11 ++ [Flushed]
  /\ pending_peak
       (store_steps
          (trace (after (populate_db_from_prs nine_then_two no_fault 1 [repo "o/r"]) start))) 0
     = 11%nat.
Proof. vm_compute. repeat split. Qed.

(** ** The claims at sample inputs *)

(** C1: the claim as stated fails.  With the candidate [o/r] listed twice
    and an empty progress.json, [o/r] is processed, its name is persisted,
    and it is processed again in the same run. *)
Lemma name_retried_in_same_run :
  milestones (trace (after (resume refusing no_fault 1 [repo "o/r"; repo "o/r"]) start))
  = [Started "o/r"; Persisted ["o/r"]; Started "o/r"; Persisted ["o/r"; "o/r"]]
  /\ retried
       (milestones (trace (after (resume refusing no_fault 1 [repo "o/r"; repo "o/r"]) start)))
     = true.
Proof. vm_compute. split; reflexivity. Qed.

Lemma resume_correct_witness :
  names_of [repo "a/a"; repo "o/r"] = Ok ["a/a"; "o/r"]
  /\ exists new,
       trace (after (resume one_pull no_fault 1 [repo "a/a"; repo "o/r"]) resumed)
       = trace resumed ++ new
       /\ Forall (fun e => ~ concerns "a/a" e) new
       /\ (NoDup ["a/a"; "o/r"] -> retried (milestones new) = false).
Proof.
  split; [reflexivity | ].
  destruct (resume_correct one_pull no_fault 1 [repo "a/a"; repo "o/r"] ["a/a"; "o/r"]
              resumed eq_refl)
    as (new & done & rest & Ht & Hskip & _ & _ & _ & _ & Hnd & _).
  exists new. split; [exact Ht | ]. split; [ | exact Hnd].
  apply Hskip. now left.
Defined.

Lemma upsert_idempotent_witness :
  issue_url other_row = issue_url sample_row
  /\ NoDup (map issue_url (table start))
  /\ no_fault (statements start) = None
  /\ no_fault (S (statements start)) = None
  /\ exists c1 w1 w2,
       cursor_execute no_fault sample_row start = (Ok c1, w1)
       /\ cursor_execute no_fault other_row w1 = (Ok 0%Z, w2)
       /\ table w2 = table w1
       /\ count_rows (issue_url sample_row) (table w2) = 1%nat
       /\ (find_row (issue_url sample_row) (table start) = None ->
           c1 = 1%Z /\ find_row (issue_url sample_row) (table w2) = Some sample_row).
Proof.
  split; [reflexivity | ]. split; [constructor | ]. split; [reflexivity | ].
  split; [reflexivity | ].
  apply (upsert_idempotent no_fault sample_row other_row start);
    [reflexivity | constructor | reflexivity | reflexivity].
Defined.

Lemma get_mit_repos_stops_on_failure_witness :
  (length four_slow_pages <= Z.to_nat 1000)%nat
  /\ gives_up (slow_search (requests start + requests_made (map fst four_slow_pages))
                           (search_url "stars:>10000" 100 (Z.of_nat (S (length four_slow_pages)))))
     = true
  /\ exists w',
       get_mit_repos slow_search 2 "stars:>10000" 100 1000 start
       = (Ok [repo "a/a"; repo "b/b"; repo "c/c"; repo "d/d"], w')
       /\ urls_got (trace w')
          = [search_url "stars:>10000" 100 1; search_url "stars:>10000" 100 1;
             search_url "stars:>10000" 100 2;
             search_url "stars:>10000" 100 3; search_url "stars:>10000" 100 3;
             search_url "stars:>10000" 100 4; search_url "stars:>10000" 100 5].
Proof.
  assert (Hlen : (length four_slow_pages <= Z.to_nat 1000)%nat) by (vm_compute; lia).
  split; [exact Hlen | ]. split; [reflexivity | ].
  destruct (get_mit_repos_stops_on_failure slow_search 1 "stars:>10000" 100 1000
              four_slow_pages 0 start Hlen)
    as (w' & Hrun & new & Ht & Hurls).
  - intros i k items.
    destruct i as [ | [ | [ | [ | i]]]]; cbn [nth_error four_slow_pages];
      try (intros [= <- <-]; split; [lia | ]; eexists;
           split; [split; [ | reflexivity] | reflexivity];
           intros j Hj; first [lia | destruct j as [ | j]; [split; reflexivity | lia]]).
    destruct i; discriminate.
  - intros _. split; [lia | ]. eexists. split; [split; [ | reflexivity] | reflexivity].
    intros j Hj. lia.
  - exists w'. split; [exact Hrun | ]. rewrite Ht. exact Hurls.
Defined.



Lemma extractor_returns_every_match_witness :
  get (JObj [("body", JStr "Fixes #42 and closes owner/repo#7")]) "body" (JStr "")
  = Ok (JStr "Fixes #42 and closes owner/repo#7")
  /\ "Fixes #42 and closes owner/repo#7" <> ""
  /\ Re.parse_name (Re.escape_slashes "owner/repo") = Some (Re.word "owner/repo")
  /\ get_issues_from_pr (JObj [("body", JStr "Fixes #42 and closes owner/repo#7")]) "owner/repo"
     = Ok (map (issue_url_of "owner/repo")
               (Re.findall (Re.reference Re.Eps) "Fixes #42 and closes owner/repo#7")
           ++ map (issue_url_of "owner/repo")
                  (Re.findall (Re.reference (Re.word "owner/repo"))
                              "Fixes #42 and closes owner/repo#7")).
Proof.
  split; [reflexivity | ]. split; [discriminate | ]. split; [reflexivity | ].
  apply (extractor_returns_every_match
           (JObj [("body", JStr "Fixes #42 and closes owner/repo#7")])
           "Fixes #42 and closes owner/repo#7" "owner/repo" (Re.word "owner/repo"));
    [reflexivity | discriminate | reflexivity].
Defined.

Lemma languages_looked_up_once_witness :
  obind (getitem (repo "o/r") "full_name") text = Ok "o/r"
  /\ get_languages one_pull 1 "o/r" (after (print (ProcessingRepo "o/r")) start)
     = (Ok "[]", snd (get_languages one_pull 1 "o/r" (after (print (ProcessingRepo "o/r")) start)))
  /\ replies_after one_pull (now start) (languages_url "o/r") (requests start) 0 (status 404)
  /\ gives_up (status 404) = true
  /\ names_of [repo "a/a"; repo "o/r"] = Ok ["a/a"; "o/r"]
  /\ NoDup ["a/a"; "o/r"]
  /\ (exists lookup rest,
         trace (after (process_repo one_pull no_fault 1 (repo "o/r") 0) start)
         = trace start ++ Print (ProcessingRepo "o/r") :: lookup ++ rest
         /\ answered (languages_url "o/r") lookup = [status 404]
         /\ ~ In (languages_url "o/r") (urls_got rest)
         /\ Forall (fun row => languages row = "[]") (executed (lookup ++ rest)))
  /\ (exists w2,
         get_languages one_pull 1 "o/r" (after (print (ProcessingRepo "o/r")) start)
         = (Ok "[]", w2))
  /\ (exists new,
         trace (after (resume one_pull no_fault 1 [repo "a/a"; repo "o/r"]) start)
         = trace start ++ new
         /\ (length (answered (languages_url "o/r") new) <= 1)%nat).
Proof.
  assert (Hnd : NoDup ["a/a"; "o/r"]).
  { constructor; [intros [H | []]; discriminate | ].
    constructor; [intros [] | constructor]. }
  assert (Hget : get_languages one_pull 1 "o/r" (after (print (ProcessingRepo "o/r")) start)
                 = (Ok "[]", snd (get_languages one_pull 1 "o/r"
                                    (after (print (ProcessingRepo "o/r")) start))))
    by (vm_compute; reflexivity).
  assert (Hrefused : replies_after one_pull (now start) (languages_url "o/r")
                                   (requests start) 0 (status 404)).
  { split; [intros j Hj; lia | reflexivity]. }
  destruct (languages_looked_up_once one_pull no_fault 1 start) as (Hone & _ & Hrun & _).
  destruct (languages_looked_up_once one_pull no_fault 0 start) as (_ & Hdeg & _).
  split; [reflexivity | ]. split; [exact Hget | ]. split; [exact Hrefused | ].
  split; [reflexivity | ]. split; [reflexivity | ]. split; [exact Hnd | ].
  split; [ | split].
  - destruct (Hone (repo "o/r") "o/r" 0%Z eq_refl)
      as (lookup & rest & Hl & Ht & _ & _ & Hrest & Hreturned).
    destruct (Hreturned _ _ Hget) as ((r & Ha & Hr) & Hrows & _).
    exists lookup, rest. split; [exact Ht | ]. split; [ | split; [exact Hrest | exact Hrows]].
    rewrite Ha. f_equal.
    assert (E : answered (languages_url "o/r")
                  (trace (after (get_languages one_pull 1 "o/r")
                            (after (print (ProcessingRepo "o/r")) start)))
                = [status 404]) by (vm_compute; reflexivity).
    rewrite Hl in E. cbn [trace start app] in E.
    rewrite answered_cons in E. cbn [answered flat_map app] in E. rewrite Ha in E.
    now injection E.
  - exact (proj2 (Hdeg "o/r" 0%nat (status 404) (Nat.le_refl 0) Hrefused eq_refl)).
  - exact (Hrun [repo "a/a"; repo "o/r"] ["a/a"; "o/r"] "o/r" eq_refl Hnd).
Defined.



(** ** The issue-driven script, slim/slim.py, at sample inputs *)

(** A storage error on the first INSERT leaves [populate_db]: the second
    issue of the repository is never handed to the store. *)
Example slim_populate_db_aborts :
  fst (Slim.populate_db issue_driven disk_full 1 [repo "o/r"] start)
  = Raise (SqliteError "database or disk is full")
  /\ map issue_url
         (executed (trace (after (Slim.populate_db issue_driven disk_full 1 [repo "o/r"]) start)))
     = ["https://github.com/o/r/issues/1"].
Proof. vm_compute. split; reflexivity. Qed.

(** The languages of a repository are looked up once per issue stored. *)
Example slim_populate_db_looks_up_per_issue :
  fst (Slim.populate_db issue_driven no_fault 1 [repo "o/r"] start) = Ok tt
  /\ length (executed
               (trace (after (Slim.populate_db issue_driven no_fault 1 [repo "o/r"]) start)))
     = 2%nat
  /\ length (answered (languages_url "o/r")
               (trace (after (Slim.populate_db issue_driven no_fault 1 [repo "o/r"]) start)))
     = 2%nat.
Proof. vm_compute. repeat split. Qed.

(** * Further properties of the crawler *)

Import More Cases.

(** ** Relations every step keeps *)

Lemma respects_same {A} R (m : M A) :
  reflexive R -> (forall w, after m w = w) -> respects R m.
Proof. intros Hr H w. rewrite H. apply Hr. Qed.

Lemma respects_ret {A} R (a : A) : reflexive R -> respects R (ret a).
Proof. intros Hr. now apply respects_same. Qed.

Lemma respects_lift {A} R (o : Outcome A) : reflexive R -> respects R (lift o).
Proof. intros Hr. now apply respects_same. Qed.

Lemma respects_raise {A} R e : reflexive R -> respects R (@raise A e).
Proof. intros Hr. now apply respects_same. Qed.

Lemma respects_time_time R : reflexive R -> respects R time_time.
Proof. intros Hr. now apply respects_same. Qed.

Lemma respects_load_progress R : reflexive R -> respects R load_progress.
Proof. intros Hr. now apply respects_same. Qed.

Lemma respects_response_json R r : reflexive R -> respects R (response_json r).
Proof. intros Hr. unfold response_json. destruct (payload r); now apply respects_same. Qed.

Lemma respects_print R m : io_blind R -> respects R (print m).
Proof. intros H w. apply H. Qed.

Lemma respects_time_sleep R d : io_blind R -> respects R (time_sleep d).
Proof.
  intros H w. unfold after.
  destruct (time_sleep_cases d w) as [E | (e & _ & E)]; rewrite E; apply H.
Qed.

Lemma respects_requests_get R server url : io_blind R -> respects R (requests_get server url).
Proof. intros H w. apply H. Qed.

Lemma respects_bind {A B} R (m : M A) (k : A -> M B) :
  transitive R -> respects R m -> (forall a, respects R (k a)) -> respects R (bind m k).
Proof.
  intros Ht Hm Hk w. specialize (Hm w). unfold after, bind in *.
  destruct (m w) as [[a | e | | ] w1]; cbn [snd] in *; try exact Hm.
  eapply Ht; [exact Hm | apply Hk].
Qed.

Lemma respects_try_sqlite {A} R (body : M A) (handler : string -> M A) :
  transitive R -> respects R body -> (forall msg, respects R (handler msg)) ->
  respects R (try_sqlite body handler).
Proof.
  intros Ht Hb Hh w. specialize (Hb w). unfold after, try_sqlite in *.
  destruct (body w) as [[a | e | | ] w1]; cbn [snd] in *; try exact Hb.
  destruct e; try exact Hb. eapply Ht; [exact Hb | apply Hh].
Qed.

Create HintDb respects.
#[local] Hint Resolve respects_ret respects_lift respects_raise respects_time_time
  respects_load_progress respects_response_json respects_print respects_time_sleep
  respects_requests_get : respects.

Ltac respects_steps :=
  repeat first
    [ progress auto with respects
    | apply respects_bind; [assumption | | intros ? ]
    | match goal with
      | |- respects _ (match ?x with _ => _ end) => destruct x
      | |- respects _ (if ?b then _ else _) => destruct b
      end ].

Section Frame.

Variable server : nat -> string -> Response.
Variable R : World -> World -> Prop.
Hypothesis R_refl : reflexive R.
Hypothesis R_trans : transitive R.
Hypothesis R_io : io_blind R.

Lemma respects_make_request fuel url : respects R (make_request server fuel url).
Proof.
  induction fuel as [ | fuel IH]; cbn [make_request]; respects_steps.
Qed.

#[local] Hint Resolve respects_make_request : respects.

Lemma respects_get_mit_repos_loop fuel query per_page pages todo :
  forall repos, respects R (get_mit_repos_loop server fuel query per_page pages todo repos).
Proof.
  induction todo as [ | page todo IH]; intros repos; cbn [get_mit_repos_loop]; respects_steps.
Qed.

Lemma respects_get_mit_repos fuel query per_page pages :
  respects R (get_mit_repos server fuel query per_page pages).
Proof. apply respects_get_mit_repos_loop. Qed.

Lemma respects_get_languages fuel name : respects R (get_languages server fuel name).
Proof. unfold get_languages. respects_steps. Qed.

Lemma respects_get_affected_files fuel pr_url :
  respects R (get_affected_files server fuel pr_url).
Proof. unfold get_affected_files. respects_steps. Qed.

Lemma respects_get_merged_prs_loop fuel name per_page todo :
  forall prs total,
    respects R (get_merged_prs_loop server fuel name per_page todo prs total).
Proof.
  induction todo as [ | page todo IH]; intros prs total; cbn [get_merged_prs_loop];
    respects_steps.
Qed.

#[local] Hint Resolve respects_get_merged_prs_loop : respects.

Lemma respects_get_merged_prs fuel name per_page pages :
  respects R (get_merged_prs server fuel name per_page pages).
Proof. unfold get_merged_prs. respects_steps. Qed.

#[local] Hint Resolve respects_get_languages respects_get_affected_files
  respects_get_merged_prs respects_get_mit_repos : respects.

Variable db_fault : nat -> option string.
Hypothesis R_execute : forall r, respects R (cursor_execute db_fault r).
Hypothesis R_commit : respects R conn_commit.
Hypothesis R_connect : respects R sqlite_connect.

Lemma respects_save_linked_issues name pr_url langs before after files urls :
  forall added total,
    respects R (save_linked_issues db_fault name pr_url langs before after files urls
                                   added total).
Proof.
  induction urls as [ | u urls IH]; intros added total; cbn [save_linked_issues];
    [now apply respects_ret | ].
  apply respects_bind; [assumption | | intros [a t]; apply IH].
  apply respects_try_sqlite; [assumption | | intros msg]; respects_steps.
Qed.

#[local] Hint Resolve respects_save_linked_issues : respects.

Lemma respects_process_pr fuel name langs pr added total :
  respects R (process_pr server db_fault fuel name langs pr added total).
Proof. unfold process_pr. respects_steps. Qed.

#[local] Hint Resolve respects_process_pr : respects.

Lemma respects_process_prs fuel name langs prs :
  forall added total, respects R (process_prs server db_fault fuel name langs prs added total).
Proof.
  induction prs as [ | pr prs IH]; intros added total; cbn [process_prs]; respects_steps.
Qed.

#[local] Hint Resolve respects_process_prs : respects.

Lemma respects_process_repo fuel repo total :
  respects R (process_repo server db_fault fuel repo total).
Proof. unfold process_repo. respects_steps. Qed.

#[local] Hint Resolve respects_process_repo : respects.

Lemma respects_process_repos fuel repos :
  forall total, respects R (process_repos server db_fault fuel repos total).
Proof.
  induction repos as [ | repo repos IH]; intros total; cbn [process_repos]; respects_steps.
Qed.

#[local] Hint Resolve respects_process_repos : respects.

Lemma respects_populate_db_from_prs fuel repos :
  respects R (populate_db_from_prs server db_fault fuel repos).
Proof. unfold populate_db_from_prs, conn_close. respects_steps. Qed.

Lemma respects_check_db : respects R check_db.
Proof.
  unfold check_db. apply respects_bind; [assumption | assumption | intros _].
  intros w. apply R_io.
Qed.

End Frame.

(** the entry point, for relations that the processing of a batch keeps *)
Section Run.

Variable server : nat -> string -> Response.
Variable db_fault : nat -> option string.
Variable R : World -> World -> Prop.
Hypothesis R_refl : reflexive R.
Hypothesis R_trans : transitive R.
Hypothesis R_io : io_blind R.
Hypothesis R_populate :
  forall fuel repos, respects R (populate_db_from_prs server db_fault fuel repos).
Hypothesis R_connect : respects R sqlite_connect.
Hypothesis R_save : forall names, respects R (save_progress names).

Lemma respects_crawl fuel candidates todo :
  forall processed total,
    respects R (crawl server db_fault fuel todo processed candidates total).
Proof.
  induction todo as [ | repo todo IH]; intros processed total; cbn [crawl]; respects_steps.
Qed.

#[local] Hint Resolve respects_crawl : respects.

Lemma respects_resume fuel repos : respects R (resume server db_fault fuel repos).
Proof. unfold resume. respects_steps. Qed.

#[local] Hint Resolve respects_resume respects_get_mit_repos respects_check_db : respects.

Lemma respects_main fuel : respects R (main server db_fault fuel).
Proof. unfold main, create_db. respects_steps. Qed.

End Run.

(** ** The store across a run *)

Lemma same_store_refl : reflexive same_store.
Proof. intros w. now repeat split. Qed.

Lemma same_store_trans : transitive same_store.
Proof.
  intros a b c (H1 & H2 & H3 & H4) (K1 & K2 & K3 & K4).
  repeat split; congruence.
Qed.

Lemma same_store_io : io_blind same_store.
Proof. intros w tr nw rq. now repeat split. Qed.

(** X1.  Fetching never touches the store or the progress file: whatever
    the API answers and however the call ends, [make_request],
    [get_mit_repos], [get_languages], [get_merged_prs] and
    [get_affected_files] leave the table, the committed rows, the count of
    statements and progress.json as they found them. *)
Theorem fetching_leaves_the_store_alone
        (server : nat -> string -> Response) (fuel : nat) (url query name : string)
        (per_page pages : Z) (pr_url : option string) (w : World) :
  same_store w (after (make_request server fuel url) w)
  /\ same_store w (after (get_mit_repos server fuel query per_page pages) w)
  /\ same_store w (after (get_languages server fuel name) w)
  /\ same_store w (after (get_merged_prs server fuel name per_page pages) w)
  /\ same_store w (after (get_affected_files server fuel pr_url) w).
Proof.
  pose proof same_store_refl as Hr. pose proof same_store_trans as Ht.
  pose proof same_store_io as Hio.
  split; [now apply respects_make_request | ].
  split; [now apply respects_get_mit_repos | ].
  split; [now apply respects_get_languages | ].
  split; [now apply respects_get_merged_prs | now apply respects_get_affected_files].
Qed.

Lemma unique_execute db_fault r :
  respects (fun w w' => unique_keys w -> unique_keys w') (cursor_execute db_fault r).
Proof.
  intros w [Ht Hd]. unfold after, cursor_execute.
  destruct (db_fault (statements w)) as [msg | ]; [now split | ].
  pose proof (insert_or_ignore_unique r _ Ht) as Hu.
  destruct (insert_or_ignore r (table w)) as [rows rowcount]. now split.
Qed.

(** X2.  The primary key holds across a run: when no two rows of the table
    share an [issue_url], none do after [populate_db_from_prs], after the
    crawl of lines 281-297 or after the whole entry point, whatever the API
    answers, whichever INSERTs fail and however the run ends. *)
Theorem rows_stay_unique
        (server : nat -> string -> Response) (db_fault : nat -> option string)
        (fuel : nat) (repos : list json) (w : World) :
  unique_keys w ->
  unique_keys (after (populate_db_from_prs server db_fault fuel repos) w)
  /\ unique_keys (after (resume server db_fault fuel repos) w)
  /\ unique_keys (after (main server db_fault fuel) w).
Proof.
  set (R := fun w w' : World => unique_keys w -> unique_keys w').
  assert (Hr : reflexive R) by (intros a H; exact H).
  assert (Ht : transitive R) by (intros a b c H1 H2 H; exact (H2 (H1 H))).
  assert (Hio : io_blind R) by (intros a tr nw rq H; exact H).
  assert (Hc : respects R conn_commit) by (intros a [H _]; now split).
  assert (Hn : respects R sqlite_connect) by (intros a [_ H]; now split).
  assert (Hs : forall names, respects R (save_progress names)) by (intros names a H; exact H).
  assert (Hp : forall fuel repos, respects R (populate_db_from_prs server db_fault fuel repos)).
  { intros f rs. apply respects_populate_db_from_prs; try assumption.
    intros r. apply unique_execute. }
  intros H. split; [exact (Hp fuel repos w H) | ].
  split; [now apply (respects_resume server db_fault R) | now apply (respects_main server db_fault R)].
Qed.

Lemma rows_stay_unique_witness :
  unique_keys stored
  /\ unique_keys (after (populate_db_from_prs one_pull no_fault 1 [repo "o/r"]) stored)
  /\ unique_keys (after (main search no_fault 1) stored).
Proof.
  assert (H : unique_keys stored).
  { split; (constructor; [cbn; tauto | constructor]). }
  split; [exact H | ].
  destruct (rows_stay_unique one_pull no_fault 1 [repo "o/r"] stored H) as (Hp & _ & _).
  destruct (rows_stay_unique search no_fault 1 [] stored H) as (_ & _ & Hm).
  split; [exact Hp | exact Hm].
Defined.

Lemma insert_or_ignore_cases r rows :
  insert_or_ignore r rows = (rows, 0%Z) \/ insert_or_ignore r rows = (rows ++ [r], 1%Z).
Proof. unfold insert_or_ignore. destruct (find_row _ _); auto. Qed.

Lemma keeps_committed_trans : transitive keeps_committed.
Proof.
  intros a b c [m1 H1] [m2 H2]. exists (m1 ++ m2). now rewrite H2, H1, app_assoc.
Qed.

Lemma keeps_committed_same w w' : durable w' = durable w -> keeps_committed w w'.
Proof. intros H. exists []. now rewrite app_nil_r. Qed.

Lemma populate_keeps_committed server db_fault fuel repos :
  respects keeps_committed (populate_db_from_prs server db_fault fuel repos).
Proof.
  set (R := fun w w' : World =>
              pending_on_top w -> pending_on_top w' /\ keeps_committed w w').
  assert (Hr : reflexive R).
  { intros a H. split; [exact H | now apply keeps_committed_same]. }
  assert (Ht : transitive R).
  { intros a b c H1 H2 H. destruct (H1 H) as [Hb K1]. destruct (H2 Hb) as [Hc K2].
    split; [exact Hc | exact (keeps_committed_trans _ _ _ K1 K2)]. }
  assert (Hio : io_blind R).
  { intros a tr nw rq H. split; [exact H | now apply keeps_committed_same]. }
  assert (Hc : respects R conn_commit).
  { intros a [pending H]. split; [exists []; cbn; now rewrite app_nil_r | ].
    exists pending. exact H. }
  assert (Hn : respects R sqlite_connect).
  { intros a _. split; [exists []; cbn; now rewrite app_nil_r | now apply keeps_committed_same]. }
  assert (He : forall r, respects R (cursor_execute db_fault r)).
  { intros r a [pending H]. unfold after, cursor_execute.
    destruct (db_fault (statements a)) as [msg | ].
    - split; [now exists pending | now apply keeps_committed_same].
    - destruct (insert_or_ignore_cases r (table a)) as [-> | ->].
      + split; [now exists pending | now apply keeps_committed_same].
      + split; [ | now apply keeps_committed_same].
        exists (pending ++ [r]). cbn. now rewrite H, app_assoc. }
  intros w.
  pose proof (respects_populate_db_from_prs server R Hr Ht Hio db_fault He Hc Hn fuel repos
                (after sqlite_connect w)) as H.
  destruct H as [_ [more H]].
  - exists []. cbn. now rewrite app_nil_r.
  - exists more. exact H.
Qed.

(** X3.  What was committed stays: the committed rows a run starts with are
    still there, unchanged and in their places, after
    [populate_db_from_prs], after the crawl of lines 281-297 and after the
    whole entry point, however each of them ends. *)
Theorem committed_rows_are_kept
        (server : nat -> string -> Response) (db_fault : nat -> option string)
        (fuel : nat) (repos : list json) (w : World) :
  keeps_committed w (after (populate_db_from_prs server db_fault fuel repos) w)
  /\ keeps_committed w (after (resume server db_fault fuel repos) w)
  /\ keeps_committed w (after (main server db_fault fuel) w).
Proof.
  assert (Hr : reflexive keeps_committed) by (intros a; now apply keeps_committed_same).
  pose proof keeps_committed_trans as Ht.
  assert (Hio : io_blind keeps_committed) by (intros a tr nw rq; now apply keeps_committed_same).
  assert (Hn : respects keeps_committed sqlite_connect)
    by (intros a; now apply keeps_committed_same).
  assert (Hs : forall names, respects keeps_committed (save_progress names))
    by (intros names a; now apply keeps_committed_same).
  pose proof (populate_keeps_committed server db_fault) as Hp.
  split; [apply Hp | ].
  split; [now apply (respects_resume server db_fault) | now apply (respects_main server db_fault)].
Qed.

Lemma bind_returns {A B} (m : M A) (k : A -> M B) (w w' : World) (b : B) :
  bind m k w = (Ok b, w') -> exists a w1, m w = (Ok a, w1) /\ k a w1 = (Ok b, w').
Proof.
  unfold bind. destruct (m w) as [[a | e | | ] w1]; try discriminate.
  intros H. now exists a, w1.
Qed.

Lemma bind_lift_returns {A B} (o : Outcome A) (k : A -> M B) (w w' : World) (b : B) :
  bind (lift o) k w = (Ok b, w') -> exists a, o = Ok a /\ k a w = (Ok b, w').
Proof. destruct o as [a | e | | ]; try discriminate. intros H. now exists a. Qed.

Lemma respects_run {A} R (m : M A) (w w' : World) (o : Outcome A) :
  respects R m -> m w = (o, w') -> R w w'.
Proof. intros H E. specialize (H w). unfold after in H. now rewrite E in H. Qed.

Ltac run_in H :=
  repeat first
    [ rewrite bind_bind in H
    | progress cbn [bind ret lift raise print emit time_sleep time_time conn_commit
                    sqlite_connect conn_close save_progress load_progress requests_get
                    after fst snd
                    trace now requests statements table durable progress_json
                    sleep_max negb Qle_bool Qnum Qden Z.leb Z.compare Z.mul
                    Pos.mul Pos.add Pos.add_carry Pos.succ Pos.compare Pos.compare_cont] in H ].

Section Counting.

Variable server : nat -> string -> Response.
Variable db_fault : nat -> option string.

Lemma save_linked_issues_counts name pr_url langs before after files urls :
  forall added total w added1 total1 w1,
    save_linked_issues db_fault name pr_url langs before after files urls added total w
    = (Ok (added1, total1), w1) ->
    durable w1 = durable w
    /\ (total1 - total = added1 - added)%Z
    /\ exists rows, table w1 = table w ++ rows /\ Z.of_nat (length rows) = (added1 - added)%Z.
Proof.
  induction urls as [ | u urls IH]; intros added total w added1 total1 w1;
    cbn [save_linked_issues].
  - intros [= <- <- <-]. split; [reflexivity | ]. split; [lia | ].
    exists []. split; [now rewrite app_nil_r | cbn; lia].
  - intros H. apply bind_returns in H. destruct H as ([a t] & w2 & Hstep & Hrest).
    apply IH in Hrest. destruct Hrest as (Hd & Ht & rows & Hrows & Hlen).
    assert (Hone : durable w2 = durable w
                   /\ (t - total = a - added)%Z
                   /\ exists rows, table w2 = table w ++ rows
                                   /\ Z.of_nat (length rows) = (a - added)%Z).
    { clear - Hstep. unfold try_sqlite, bind, cursor_execute in Hstep.
      destruct (db_fault (statements w)) as [msg | ].
      - cbn in Hstep. injection Hstep as <- <- <-. split; [reflexivity | ]. split; [lia | ].
        exists []. split; [cbn; now rewrite app_nil_r | cbn; lia].
      - destruct (insert_or_ignore_cases
                    (mkRow u name pr_url langs before after files) (table w)) as [E | E];
          rewrite E in Hstep; cbn in Hstep; injection Hstep as <- <- <-.
        + split; [reflexivity | ]. split; [lia | ].
          exists []. split; [cbn; now rewrite app_nil_r | cbn; lia].
        + split; [reflexivity | ]. split; [lia | ].
          eexists. split; [reflexivity | cbn; lia]. }
    destruct Hone as (Hd2 & Ht2 & rows2 & Hrows2 & Hlen2).
    split; [congruence | ]. split; [lia | ].
    exists (rows2 ++ rows). split; [now rewrite Hrows, Hrows2, app_assoc | ].
    rewrite length_app. lia.
Qed.

Lemma process_pr_counts fuel name langs pr added total w added1 total1 w1 :
  process_pr server db_fault fuel name langs pr added total w = (Ok (added1, total1), w1) ->
  (total1 - total = added1 - added)%Z
  /\ exists rows, table w1 = table w ++ rows /\ Z.of_nat (length rows) = (added1 - added)%Z.
Proof.
  unfold process_pr. intros H.
  apply bind_lift_returns in H. destruct H as (pr_url & _ & H).
  apply bind_lift_returns in H. destruct H as (issues & _ & H).
  apply bind_returns in H. destruct H as ([a t] & w2 & Hbody & Htail).
  assert (Hb : (t - total = a - added)%Z
               /\ exists rows, table w2 = table w ++ rows
                               /\ Z.of_nat (length rows) = (a - added)%Z).
  { destruct issues as [ | i issues].
    - injection Hbody as <- <- <-. split; [lia | ].
      exists []. split; [now rewrite app_nil_r | cbn; lia].
    - apply bind_lift_returns in Hbody. destruct Hbody as (number & _ & Hbody).
      apply bind_returns in Hbody. destruct Hbody as ([] & wp & [= <-] & Hbody).
      apply bind_lift_returns in Hbody. destruct Hbody as (base_sha & _ & Hbody).
      apply bind_lift_returns in Hbody. destruct Hbody as (head_sha & _ & Hbody).
      apply bind_lift_returns in Hbody. destruct Hbody as (before & _ & Hbody).
      apply bind_lift_returns in Hbody. destruct Hbody as (after' & _ & Hbody).
      apply bind_returns in Hbody. destruct Hbody as (files & w3 & Hfiles & Hsave).
      apply (respects_run same_store) in Hfiles;
        [ | apply respects_get_affected_files;
            [apply same_store_refl | apply same_store_trans | apply same_store_io]].
      destruct Hfiles as (Htab & _). cbn [table] in Htab.
      apply save_linked_issues_counts in Hsave.
      destruct Hsave as (_ & Ht & rows & Hrows & Hlen).
      split; [exact Ht | ]. exists rows. split; [now rewrite Hrows, Htab | exact Hlen]. }
  destruct Hb as (Ht & rows & Hrows & Hlen).
  assert (Hw : table w1 = table w2 /\ added1 = a /\ total1 = t).
  { destruct ((a >? 0)%Z && (a mod 10 =? 0)%Z)%bool; run_in Htail;
      injection Htail as <- <- <-; now repeat split. }
  destruct Hw as (Hw & -> & ->).
  split; [exact Ht | ]. exists rows. split; [now rewrite Hw | exact Hlen].
Qed.

Lemma process_prs_counts fuel name langs prs :
  forall added total w added1 total1 w1,
    process_prs server db_fault fuel name langs prs added total w
    = (Ok (added1, total1), w1) ->
    (total1 - total = added1 - added)%Z
    /\ exists rows, table w1 = table w ++ rows /\ Z.of_nat (length rows) = (added1 - added)%Z.
Proof.
  induction prs as [ | pr prs IH]; intros added total w added1 total1 w1; cbn [process_prs].
  - intros [= <- <- <-]. split; [lia | ].
    exists []. split; [now rewrite app_nil_r | cbn; lia].
  - intros H. apply bind_returns in H. destruct H as ([a t] & w2 & Hpr & Hrest).
    apply process_pr_counts in Hpr. destruct Hpr as (Ht2 & rows2 & Hrows2 & Hlen2).
    apply IH in Hrest. destruct Hrest as (Ht & rows & Hrows & Hlen).
    split; [lia | ]. exists (rows2 ++ rows).
    split; [now rewrite Hrows, Hrows2, app_assoc | rewrite length_app; lia].
Qed.

(** a repository's rows are committed by the time its processing returns *)
Lemma process_repo_counts fuel repo total w total1 w1 :
  process_repo server db_fault fuel repo total w = (Ok total1, w1) ->
  table w = durable w ->
  table w1 = durable w1
  /\ exists rows, durable w1 = durable w ++ rows /\ Z.of_nat (length rows) = (total1 - total)%Z.
Proof.
  unfold process_repo. intros H Hclean.
  assert (Hsame : forall A (m : M A) o a b, m a = (o, b) -> respects same_store m ->
                    table b = table a /\ durable b = durable a).
  { intros A m o a b E Hm. destruct (respects_run _ _ _ _ _ Hm E) as (K1 & K2 & _). now split. }
  pose proof same_store_refl as Hr. pose proof same_store_trans as Htr.
  pose proof same_store_io as Hio.
  apply bind_lift_returns in H. destruct H as (repo_name & _ & H).
  run_in H.
  apply bind_returns in H. destruct H as (languages & w2 & Hlangs & H).
  apply Hsame in Hlangs; [ | now apply respects_get_languages].
  cbn [table durable] in Hlangs. destruct Hlangs as [Ht2 Hd2].
  run_in H.
  apply bind_returns in H. destruct H as (prs & w3 & Hprs & H).
  apply Hsame in Hprs; [ | now apply respects_get_merged_prs].
  cbn [table durable] in Hprs. destruct Hprs as [Ht3 Hd3].
  destruct prs as [ | pr prs].
  - run_in H. injection H as <- <-. cbn [table durable].
    split; [congruence | ]. exists []. split; [rewrite app_nil_r; congruence | cbn; lia].
  - run_in H.
    apply bind_returns in H. destruct H as ([a t] & w4 & Hrun & H).
    apply process_prs_counts in Hrun. cbn [table] in Hrun.
    destruct Hrun as (Ht & rows & Hrows & Hlen).
    run_in H. injection H as <- <-. cbn [table durable].
    split; [reflexivity | ]. exists rows.
    split; [rewrite Hrows; congruence | lia].
Qed.

Lemma process_repos_counts fuel repos :
  forall total w total1 w1,
    process_repos server db_fault fuel repos total w = (Ok total1, w1) ->
    table w = durable w ->
    table w1 = durable w1
    /\ exists rows, durable w1 = durable w ++ rows
                    /\ Z.of_nat (length rows) = (total1 - total)%Z.
Proof.
  induction repos as [ | repo repos IH]; intros total w total1 w1; cbn [process_repos].
  - intros [= <- <-] Hclean. split; [exact Hclean | ].
    exists []. split; [now rewrite app_nil_r | cbn; lia].
  - intros H Hclean. apply bind_returns in H. destruct H as (t & w2 & Hrepo & Hrest).
    apply process_repo_counts in Hrepo; [ | exact Hclean].
    destruct Hrepo as (Hclean2 & rows2 & Hrows2 & Hlen2).
    apply IH in Hrest; [ | exact Hclean2]. destruct Hrest as (Hclean1 & rows & Hrows & Hlen).
    split; [exact Hclean1 | ]. exists (rows2 ++ rows).
    split; [now rewrite Hrows, Hrows2, app_assoc | rewrite length_app; lia].
Qed.

Lemma populate_counts fuel repos w total w1 :
  populate_db_from_prs server db_fault fuel repos w = (Ok total, w1) ->
  exists rows, durable w1 = durable w ++ rows /\ Z.of_nat (length rows) = total.
Proof.
  unfold populate_db_from_prs. intros H. run_in H.
  apply bind_returns in H. destruct H as (t & w2 & Hrun & H).
  apply process_repos_counts in Hrun; [ | reflexivity].
  cbn [table durable] in Hrun. destruct Hrun as (_ & rows & Hrows & Hlen).
  run_in H. injection H as <- <-. cbn [durable].
  exists rows. split; [exact Hrows | lia].
Qed.

Lemma crawl_counts fuel candidates todo :
  forall processed total w names total1 w1,
    crawl server db_fault fuel todo processed candidates total w = (Ok (names, total1), w1) ->
    exists rows, durable w1 = durable w ++ rows
                 /\ Z.of_nat (length rows) = (total1 - total)%Z.
Proof.
  induction todo as [ | repo todo IH]; intros processed total w names total1 w1; cbn [crawl].
  - intros [= <- <- <-]. exists []. split; [now rewrite app_nil_r | cbn; lia].
  - intros H. apply bind_returns in H. destruct H as (count & w2 & Hpop & H).
    apply populate_counts in Hpop. destruct Hpop as (rows2 & Hrows2 & Hlen2).
    apply bind_lift_returns in H. destruct H as (name & _ & H).
    run_in H. apply IH in H. cbn [durable] in H. destruct H as (rows & Hrows & Hlen).
    exists (rows2 ++ rows).
    split; [now rewrite Hrows, Hrows2, app_assoc | rewrite length_app; lia].
Qed.

End Counting.

(** X4.  The count a batch returns is the number of rows it added for good:
    when [populate_db_from_prs] returns [total], the committed table is the
    one it started from followed by exactly [total] new rows; the total that
    the crawl of lines 281-297 accumulates is likewise the number of rows
    the crawl appended to the committed table. *)
Theorem returned_count_is_rows_committed
        (server : nat -> string -> Response) (db_fault : nat -> option string)
        (fuel : nat) (repos : list json) (w w' : World) (names : list string) (total : Z) :
  (populate_db_from_prs server db_fault fuel repos w = (Ok total, w') ->
   exists rows, durable w' = durable w ++ rows /\ Z.of_nat (length rows) = total)
  /\ (resume server db_fault fuel repos w = (Ok (names, total), w') ->
      exists rows, durable w' = durable w ++ rows /\ Z.of_nat (length rows) = total).
Proof.
  split; [apply populate_counts | ].
  rewrite resume_unfold. intros H.
  destruct (not_processed repos (loaded w)) as [todo | e | | ]; try discriminate H.
  apply crawl_counts in H. run_in H. destruct H as (rows & Hrows & Hlen).
  exists rows. split; [exact Hrows | lia].
Qed.

Lemma returned_count_is_rows_committed_witness :
  exists w',
    populate_db_from_prs nine_then_two no_fault 1 [repo "o/r"] stored = (Ok 11%Z, w')
    /\ exists rows, durable w' = durable stored ++ rows /\ Z.of_nat (length rows) = 11%Z.
Proof.
  set (run := populate_db_from_prs nine_then_two no_fault 1 [repo "o/r"] stored).
  assert (E : run = (Ok 11%Z, snd run)) by (vm_compute; reflexivity).
  exists (snd run). split; [exact E | ].
  exact (proj1 (returned_count_is_rows_committed nine_then_two no_fault 1 [repo "o/r"]
                  stored (snd run) [] 11%Z) E).
Defined.

(** ** Pauses *)

Lemma emits_save_progress (P : Event -> Prop) names :
  P (SaveProgress names) -> emits P (save_progress names).
Proof. apply emits_one. intros w. split; reflexivity. Qed.

#[local] Hint Resolve emits_ret emits_lift emits_time_time emits_load_progress
  emits_response_json emits_sqlite_connect : emits.

Ltac timely_steps :=
  repeat first
    [ progress auto with emits
    | apply emits_bind_lift; intros ? ?
    | apply emits_bind; [ | intros ? ]
    | apply emits_print; exact I
    | apply emits_time_sleep; solve [apply max0_nonneg | unfold timely, Qle; cbn; lia]
    | apply emits_conn_commit; exact I
    | apply emits_requests_get; intros ?; exact I
    | apply emits_cursor_execute; intros ?; exact I
    | apply emits_save_progress; exact I
    | apply emits_try_sqlite; [ | intros ? ]
    | match goal with
      | |- emits _ (match ?x with _ => _ end) => destruct x
      | |- emits _ (if ?b then _ else _) => destruct b
      end ].

Section Pauses.

Variable server : nat -> string -> Response.
Variable db_fault : nat -> option string.

Lemma timely_make_request fuel url : emits timely (make_request server fuel url).
Proof.
  induction fuel as [ | fuel IH]; cbn [make_request]; timely_steps.
Qed.

#[local] Hint Resolve timely_make_request : emits.

Lemma timely_get_mit_repos_loop fuel query per_page pages todo :
  forall repos, emits timely (get_mit_repos_loop server fuel query per_page pages todo repos).
Proof.
  induction todo as [ | page todo IH]; intros repos; cbn [get_mit_repos_loop]; timely_steps.
Qed.

Lemma timely_get_merged_prs_loop fuel name per_page todo :
  forall prs total,
    emits timely (get_merged_prs_loop server fuel name per_page todo prs total).
Proof.
  induction todo as [ | page todo IH]; intros prs total; cbn [get_merged_prs_loop];
    timely_steps.
Qed.

Lemma timely_save_linked_issues name pr_url langs before after files urls :
  forall added total,
    emits timely
          (save_linked_issues db_fault name pr_url langs before after files urls added total).
Proof.
  induction urls as [ | u urls IH]; intros added total; cbn [save_linked_issues];
    timely_steps.
Qed.

#[local] Hint Resolve timely_get_mit_repos_loop timely_get_merged_prs_loop
  timely_save_linked_issues : emits.

Lemma timely_process_prs fuel name langs prs :
  forall added total,
    emits timely (process_prs server db_fault fuel name langs prs added total).
Proof.
  induction prs as [ | pr prs IH]; intros added total; cbn [process_prs];
    unfold process_pr, get_affected_files; timely_steps.
Qed.

#[local] Hint Resolve timely_process_prs : emits.

Lemma timely_process_repos fuel repos :
  forall total, emits timely (process_repos server db_fault fuel repos total).
Proof.
  induction repos as [ | repo repos IH]; intros total; cbn [process_repos];
    unfold process_repo, get_languages, get_merged_prs; timely_steps.
Qed.

#[local] Hint Resolve timely_process_repos : emits.

Lemma timely_crawl fuel candidates todo :
  forall processed total,
    emits timely (crawl server db_fault fuel todo processed candidates total).
Proof.
  induction todo as [ | repo todo IH]; intros processed total; cbn [crawl];
    unfold populate_db_from_prs, conn_close; timely_steps.
Qed.

#[local] Hint Resolve timely_crawl : emits.

Lemma timely_main fuel : emits timely (main server db_fault fuel).
Proof.
  unfold main, create_db, get_mit_repos, resume, check_db, raise. timely_steps.
  intros w. exists [Print (DbContains (Z.of_nat (length (table w))))].
  split; [reflexivity | ]. split; [repeat constructor | reflexivity].
Qed.

End Pauses.

(** X5.  No pause is ever asked for a negative time (which [time.sleep]
    would reject with a [ValueError]): whatever the API answers, says about
    the reset time or the clock shows, every [time.sleep] of a run of the
    entry point gets a duration of zero or more. *)
Theorem no_negative_sleep
        (server : nat -> string -> Response) (db_fault : nat -> option string)
        (fuel : nat) (w : World) :
  exists new,
    trace (after (main server db_fault fuel) w) = trace w ++ new
    /\ Forall (fun d => (0 <= d)%Q) (sleeps new).
Proof.
  destruct (timely_main server db_fault fuel w) as (new & Ht & Hall & _).
  exists new. split; [exact Ht | ].
  clear Ht. induction Hall as [ | e new He Hall IH]; [constructor | ].
  destruct e; cbn; try exact IH. constructor; [exact He | exact IH].
Qed.

(** ** How a call of the fetcher can end *)




(** ** The pull requests collected *)

Lemma merged_only_sound data :
  forall prs, merged_only data = Ok prs -> Forall merged prs.
Proof.
  induction data as [ | pr data IH]; intros prs; cbn [merged_only].
  - intros [= <-]. constructor.
  - destruct (get pr "merged_at" JNull) as [v | e | | ] eqn:Ev; try discriminate.
    cbn [obind]. destruct (merged_only data) as [tail | e | | ]; try discriminate.
    cbn [obind]. intros [= <-]. specialize (IH tail eq_refl).
    destruct (truthy v) eqn:Et; [ | exact IH].
    constructor; [now exists v | exact IH].
Qed.

Lemma get_merged_prs_loop_merged server fuel name per_page todo :
  forall prs total w res total1 w1,
    Forall merged prs ->
    get_merged_prs_loop server fuel name per_page todo prs total w = (Ok (res, total1), w1) ->
    Forall merged res
    /\ (total1 - total = Z.of_nat (length res) - Z.of_nat (length prs))%Z.
Proof.
  induction todo as [ | page todo IH]; intros prs total w res total1 w1 Hprs;
    cbn [get_merged_prs_loop].
  - intros [= <- <- <-]. split; [exact Hprs | lia].
  - intros H. apply bind_returns in H. destruct H as ([r | ] & w2 & _ & H).
    + apply bind_returns in H. destruct H as (data & w3 & _ & H).
      apply bind_lift_returns in H. destruct H as (elems & _ & H).
      apply bind_lift_returns in H. destruct H as (page_prs & Hm & H).
      run_in H. apply IH in H.
      * destruct H as [Hres Hcount]. split; [exact Hres | ].
        rewrite length_app in Hcount. lia.
      * apply Forall_app. split; [exact Hprs | now apply merged_only_sound with elems].
    + run_in H. injection H as <- <- <-. split; [exact Hprs | lia].
Qed.

(** X8.  [get_merged_prs] returns merged pull requests only: every element
    of the list it returns carries a [merged_at] that is neither [null] nor
    empty, whatever the pages held; and the total it prints is the length
    of that list. *)
Theorem get_merged_prs_returns_merged_only
        (server : nat -> string -> Response) (fuel : nat) (name : string)
        (per_page pages : Z) (w w' : World) (prs : list json) :
  get_merged_prs server fuel name per_page pages w = (Ok prs, w') ->
  Forall merged prs
  /\ exists before,
       trace w' = trace w ++ before ++ [Print (TotalMerged (Z.of_nat (length prs)) name)].
Proof.
  unfold get_merged_prs. intros H.
  apply bind_returns in H. destruct H as ([] & w1 & [= <-] & H).
  apply bind_returns in H. destruct H as ([res total] & w2 & Hloop & H).
  pose proof Hloop as Hrun.
  apply get_merged_prs_loop_merged in Hloop; [ | constructor].
  destruct Hloop as [Hres Hcount]. run_in H. injection H as <- <-.
  split; [exact Hres | ].
  assert (Hgrow : exists new, trace w2 = trace w ++ [Print (FetchingPRs name)] ++ new).
  { destruct (timely_get_merged_prs_loop server fuel name per_page (range1 pages) [] 0%Z
                (after (print (FetchingPRs name)) w)) as (new & Hnew & _).
    unfold after in Hnew. cbn [print emit snd] in Hnew. rewrite Hrun in Hnew.
    cbn [snd trace] in Hnew.
    exists new. rewrite Hnew. cbn [trace]. now rewrite <- app_assoc. }
  destruct Hgrow as [new Hnew]. exists ([Print (FetchingPRs name)] ++ new).
  cbn [trace]. rewrite Hnew. cbn [length] in Hcount.
  replace total with (Z.of_nat (length res)) by lia. now rewrite <- !app_assoc.
Qed.

Lemma get_merged_prs_returns_merged_only_witness :
  exists w',
    get_merged_prs mixed_pulls 1 "o/r" 30 3 start = (Ok [bare_pull; quiet_pull], w')
    /\ Forall merged [bare_pull; quiet_pull].
Proof.
  set (run := get_merged_prs mixed_pulls 1 "o/r" 30 3 start).
  assert (E : run = (Ok [bare_pull; quiet_pull], snd run)) by (vm_compute; reflexivity).
  exists (snd run). split; [exact E | ].
  exact (proj1 (get_merged_prs_returns_merged_only mixed_pulls 1 "o/r" 30 3 start (snd run)
                  [bare_pull; quiet_pull] E)).
Defined.

(** ** When the API refuses *)

Section Refusals.

Variable server : nat -> string -> Response.
Variable db_fault : nat -> option string.

Lemma get_languages_refused fuel name w :
  gives_up (server (requests w) (languages_url name)) = true ->
  get_languages server (S fuel) name w
  = (Ok "[]",
     after (print (RequestFailed (status_code (server (requests w) (languages_url name)))
                                 (languages_url name)))
       (after (requests_get server (languages_url name)) w)).
Proof.
  intros H. unfold get_languages.
  now rewrite (bind_ok _ _ _ _ _ (make_request_gives_up server fuel _ w H)).
Qed.

Lemma get_merged_prs_refused fuel name w :
  gives_up (server (requests w) (pulls_url name 30 1)) = true ->
  exists w1,
    get_merged_prs server (S fuel) name 30 3 w = (Ok [], w1)
    /\ same_store w w1 /\ requests w1 = S (requests w)
    /\ exists new, trace w1 = trace w ++ new /\ executed new = []
                   /\ urls_got new = [pulls_url name 30 1].
Proof.
  intros H. unfold get_merged_prs. change (range1 3) with [1; 2; 3]%Z.
  cbn [get_merged_prs_loop]. run.
  match goal with
  | |- context [bind (make_request _ _ _) _ ?w0] =>
      rewrite (bind_ok _ _ _ _ _ (make_request_gives_up server fuel _ w0 H))
  end.
  run.
  eexists. split; [reflexivity | ]. split; [now repeat split | ]. split; [reflexivity | ].
  eexists. cbn [trace]. split; [rewrite <- !app_assoc; reflexivity | ]. now split.
Qed.

(** a repository for which both lookups are refused: nothing is stored *)
Lemma populate_refused fuel repo name w :
  obind (getitem repo "full_name") text = Ok name ->
  gives_up (server (requests w) (languages_url name)) = true ->
  gives_up (server (S (requests w)) (pulls_url name 30 1)) = true ->
  exists w1,
    populate_db_from_prs server db_fault (S fuel) [repo] w = (Ok 0%Z, w1)
    /\ durable w1 = durable w /\ progress_json w1 = progress_json w
    /\ requests w1 = S (S (requests w))
    /\ exists new, trace w1 = trace w ++ new /\ executed new = [].
Proof.
  intros Hname Hlangs Hpulls.
  unfold populate_db_from_prs. cbn [process_repos]. unfold process_repo. run.
  rewrite Hname. run.
  match goal with
  | |- context [bind (get_languages _ _ _) _ ?w0] =>
      rewrite (bind_ok _ _ _ _ _ (get_languages_refused fuel name w0 Hlangs))
  end.
  run.
  match goal with
  | |- context [bind (get_merged_prs _ _ _ _ _) _ ?w0] =>
      destruct (get_merged_prs_refused fuel name w0 Hpulls)
        as (w1 & Hrun & (_ & Hd & _ & Hp) & Hreq & new & Ht & Hex & _)
  end.
  rewrite (bind_ok _ _ _ _ _ Hrun). run.
  eexists. split; [reflexivity | ]. cbn [durable progress_json requests trace] in *.
  split; [exact Hd | ]. split; [exact Hp | ]. split; [exact Hreq | ].
  eexists. split; [rewrite Ht, <- !app_assoc; reflexivity | ].
  rewrite !executed_app, Hex. reflexivity.
Qed.

Lemma crawl_refused fuel candidates todo :
  forall names processed total w,
    names_of todo = Ok names ->
    (forall n u, (requests w <= n)%nat -> gives_up (server n u) = true) ->
    exists w1,
      crawl server db_fault (S fuel) todo processed candidates total w
      = (Ok (processed ++ names, total), w1)
      /\ durable w1 = durable w
      /\ progress_json w1
         = match names with [] => progress_json w | _ :: _ => Some (processed ++ names) end
      /\ (requests w <= requests w1)%nat
      /\ exists new, trace w1 = trace w ++ new /\ executed new = [].
Proof.
  induction todo as [ | repo todo IH]; intros names processed total w Hnames Hdown.
  - injection Hnames as <-. exists w. cbn [crawl ret]. rewrite app_nil_r.
    repeat split; try reflexivity. exists []. now rewrite app_nil_r.
  - cbn [names_of traverse] in Hnames.
    destruct (obind (getitem repo "full_name") text) as [name | | | ] eqn:Hname;
      try discriminate.
    cbn [obind] in Hnames. fold (names_of todo) in Hnames.
    destruct (names_of todo) as [rest | | | ] eqn:Hrest; try discriminate.
    injection Hnames as <-.
    destruct (populate_refused fuel repo name w Hname) as (w1 & Hrun & Hd & Hp & Hreq & new & Ht & Hex).
    { apply Hdown. lia. }
    { apply Hdown. lia. }
    cbn [crawl]. rewrite (bind_ok _ _ _ _ _ Hrun), Hname. run.
    match goal with
    | |- context [crawl _ _ _ _ _ _ _ ?w0] =>
        destruct (IH rest (processed ++ [name]) (total + 0)%Z w0 eq_refl)
          as (w2 & Hrun2 & Hd2 & Hp2 & Hreq2 & new2 & Ht2 & Hex2)
    end.
    { intros n u Hn. apply Hdown. cbn [requests] in Hn. lia. }
    assert (E : (processed ++ [name]) ++ rest = processed ++ name :: rest)
      by now rewrite <- app_assoc.
    exists w2. rewrite Hrun2. cbn [durable progress_json requests trace] in *.
    rewrite Z.add_0_r, E. split; [reflexivity | ].
    split; [congruence | ]. split; [destruct rest; [exact Hp2 | now rewrite Hp2, E] | ].
    split; [lia | ].
    eexists. split; [rewrite Ht2, Ht, <- ?app_assoc; reflexivity | ].
    rewrite !executed_app, Hex, Hex2. reflexivity.
Qed.

End Refusals.

(** X9.  An outage uses the candidates up.  When the API refuses every
    request from some point of a run on (a revoked token, say), the crawl of
    lines 281-297 still goes through every candidate that was not yet
    processed, stores nothing, and records each of them in progress.json as
    processed. *)
Theorem refused_candidates_are_recorded_as_processed
        (server : nat -> string -> Response) (db_fault : nat -> option string)
        (fuel : nat) (repos : list json) (names : list string) (w : World) :
  names_of repos = Ok names ->
  (forall n u, (requests w <= n)%nat -> gives_up (server n u) = true) ->
  exists w',
    resume server db_fault (S fuel) repos w
    = (Ok (loaded w ++ fresh (loaded w) names, 0%Z), w')
    /\ durable w' = durable w
    /\ (fresh (loaded w) names <> [] ->
        progress_json w' = Some (loaded w ++ fresh (loaded w) names))
    /\ exists new, trace w' = trace w ++ new /\ executed new = [].
Proof.
  intros Hnames Hdown. rewrite resume_unfold.
  destruct (not_processed_names repos (loaded w) names Hnames) as (todo & -> & Htodo).
  match goal with
  | |- context [crawl _ _ _ _ _ _ _ ?w0] =>
      destruct (crawl_refused server db_fault fuel (Z.of_nat (length repos)) todo
                  (fresh (loaded w) names) (loaded w) 0%Z w0 Htodo)
        as (w1 & Hrun & Hd & Hp & _ & new & Ht & Hex)
  end.
  { intros n u Hn. apply Hdown. exact Hn. }
  exists w1. split; [exact Hrun | ]. cbn [durable progress_json trace] in *.
  split; [exact Hd | ]. split.
  - intros Hne. destruct (fresh (loaded w) names); [now destruct Hne | exact Hp].
  - run_in Ht. eexists. split; [rewrite Ht, <- !app_assoc; reflexivity | ].
    rewrite !executed_app, Hex. reflexivity.
Qed.

Lemma refused_candidates_are_recorded_as_processed_witness :
  names_of [repo "a/a"; repo "o/r"; repo "b/b"] = Ok ["a/a"; "o/r"; "b/b"]
  /\ (forall n u, (requests resumed <= n)%nat -> gives_up (refusing n u) = true)
  /\ exists w',
       resume refusing no_fault 1 [repo "a/a"; repo "o/r"; repo "b/b"] resumed
       = (Ok (["a/a"; "o/r"; "b/b"], 0%Z), w')
       /\ progress_json w' = Some ["a/a"; "o/r"; "b/b"].
Proof.
  assert (Hdown : forall n u, (requests resumed <= n)%nat -> gives_up (refusing n u) = true)
    by (intros n u _; reflexivity).
  split; [reflexivity | ]. split; [exact Hdown | ].
  destruct (refused_candidates_are_recorded_as_processed refusing no_fault 0
              [repo "a/a"; repo "o/r"; repo "b/b"] ["a/a"; "o/r"; "b/b"] resumed
              eq_refl Hdown)
    as (w' & Hrun & _ & Hp & _).
  exists w'. split; [exact Hrun | ]. apply Hp. discriminate.
Defined.

(** ** Runs that end before the crawl *)

(** X10.  No candidates, no run: when the first page of the search is
    refused, the entry point makes that one request, prints what failed and
    that no repository was found, and exits; progress.json and the store
    are left as they were. *)
Theorem main_exits_without_candidates
        (server : nat -> string -> Response) (db_fault : nat -> option string)
        (fuel : nat) (w : World) :
  let url := search_url "stars:>10000" 100 1 in
  gives_up (server (requests w) url) = true ->
  exists w',
    main server db_fault (S fuel) w = (Raise SystemExit, w')
    /\ same_store w w'
    /\ requests w' = S (requests w)
    /\ trace w'
       = trace w ++ [Print Starting;
                     Get url (server (requests w) url);
                     Print (RequestFailed (status_code (server (requests w) url)) url);
                     Print (FetchReposFailed 1);
                     Print (ReposFound 0);
                     Print NoReposFound].
Proof.
  intros url H. unfold main, create_db, get_mit_repos, range1.
  destruct (Z.to_nat 1000) as [ | pages] eqn:E; [lia | ].
  cbn [seq map get_mit_repos_loop]. change (Z.of_nat 1) with 1%Z. fold url. run.
  match goal with
  | |- context [bind (make_request _ _ _) _ ?w0] =>
      rewrite (bind_ok _ _ _ _ _ (make_request_gives_up server fuel url w0 H))
  end.
  run. eexists. split; [reflexivity | ]. split; [now repeat split | ].
  split; [reflexivity | ]. cbn [trace]. now rewrite <- !app_assoc.
Qed.

Lemma main_exits_without_candidates_witness :
  gives_up (refusing (requests start) (search_url "stars:>10000" 100 1)) = true
  /\ fst (main refusing no_fault 1 start) = Raise SystemExit.
Proof.
  split; [reflexivity | ].
  destruct (main_exits_without_candidates refusing no_fault 0 start eq_refl)
    as (w' & Hrun & _).
  now rewrite Hrun.
Defined.

Lemma not_processed_missing_name good fields rest processed :
  forall names,
    names_of good = Ok names ->
    assoc "full_name" fields = None ->
    not_processed (good ++ JObj fields :: rest) processed = Raise (KeyError "full_name").
Proof.
  induction good as [ | repo good IH]; intros names Hnames Hmiss.
  - cbn [app not_processed getitem]. now rewrite Hmiss.
  - cbn [names_of traverse] in Hnames. cbn [app not_processed].
    destruct (obind (getitem repo "full_name") text) as [name | | | ]; try discriminate.
    cbn [obind] in *. fold (names_of good) in Hnames.
    destruct (names_of good) as [ns | | | ]; try discriminate.
    now rewrite (IH ns eq_refl Hmiss).
Qed.

(** X11.  One candidate without a name stops the crawl before it starts:
    when an element of the candidate list has no [full_name], the filter of
    line 285 raises [KeyError], and no repository is processed, not even
    those listed before it; nothing is requested, stored or written to
    progress.json. *)
Theorem candidate_without_name_stops_the_crawl
        (server : nat -> string -> Response) (db_fault : nat -> option string)
        (fuel : nat) (good rest : list json) (fields : list (string * json))
        (names : list string) (w : World) :
  names_of good = Ok names ->
  assoc "full_name" fields = None ->
  exists w',
    resume server db_fault fuel (good ++ JObj fields :: rest) w
    = (Raise (KeyError "full_name"), w')
    /\ same_store w w'
    /\ requests w' = requests w
    /\ trace w' = trace w ++ [Print (PreviouslyProcessed (Z.of_nat (length (loaded w))))].
Proof.
  intros Hnames Hmiss. rewrite resume_unfold.
  rewrite (not_processed_missing_name good fields rest (loaded w) names Hnames Hmiss).
  eexists. split; [reflexivity | ]. run. now repeat split.
Qed.

Lemma candidate_without_name_stops_the_crawl_witness :
  names_of [repo "a/a"] = Ok ["a/a"]
  /\ assoc "full_name" [("id", JNum 2)] = None
  /\ fst (resume nine_then_two no_fault 1 [repo "a/a"; JObj [("id", JNum 2)]; repo "o/r"] start)
     = Raise (KeyError "full_name").
Proof.
  split; [reflexivity | ]. split; [reflexivity | ].
  destruct (candidate_without_name_stops_the_crawl nine_then_two no_fault 1
              [repo "a/a"] [repo "o/r"] [("id", JNum 2)] ["a/a"] start eq_refl eq_refl)
    as (w' & Hrun & _).
  cbn [app] in Hrun. now rewrite Hrun.
Defined.

(** ** The address of a pull request's file list *)

Lemma split_segment (a b : string) :
  slashless a = true -> split "/" (a ^^ String "/" b) = a :: split "/" b.
Proof.
  induction a as [ | c a IH]; intros H.
  - reflexivity.
  - cbn [slashless all_chars] in H. apply andb_prop in H as [Hc Ha].
    apply negb_true_iff in Hc.
    cbn [String.append split]. rewrite Hc. now rewrite (IH Ha).
Qed.

Lemma split_last (a : string) : slashless a = true -> split "/" a = [a].
Proof.
  induction a as [ | c a IH]; intros H.
  - reflexivity.
  - cbn [slashless all_chars] in H. apply andb_prop in H as [Hc Ha].
    apply negb_true_iff in Hc. cbn [split]. rewrite Hc. now rewrite (IH Ha).
Qed.

Lemma split_html_url owner repo number :
  slashless owner = true -> slashless repo = true -> slashless number = true ->
  split "/" ("https://github.com/" ^^ owner ^^ "/" ^^ repo ^^ "/pull/" ^^ number)
  = ["https:"; ""; "github.com"; owner; repo; "pull"; number].
Proof.
  intros Ho Hr Hn.
  change ("https://github.com/" ^^ owner ^^ "/" ^^ repo ^^ "/pull/" ^^ number)
    with ("https:" ^^ String "/" ("" ^^ String "/" ("github.com" ^^ String "/"
            (owner ^^ String "/" (repo ^^ String "/" ("pull" ^^ String "/" number)))))).
  rewrite !split_segment by (assumption || reflexivity).
  now rewrite (split_last number Hn).
Qed.

Lemma split_api_url owner repo number :
  slashless owner = true -> slashless repo = true -> slashless number = true ->
  split "/" ("https://api.github.com/repos/" ^^ owner ^^ "/" ^^ repo ^^ "/pulls/" ^^ number)
  = ["https:"; ""; "api.github.com"; "repos"; owner; repo; "pulls"; number].
Proof.
  intros Ho Hr Hn.
  change ("https://api.github.com/repos/" ^^ owner ^^ "/" ^^ repo ^^ "/pulls/" ^^ number)
    with ("https:" ^^ String "/" ("" ^^ String "/" ("api.github.com" ^^ String "/"
            ("repos" ^^ String "/" (owner ^^ String "/" (repo ^^ String "/"
               ("pulls" ^^ String "/" number))))))).
  rewrite !split_segment by (assumption || reflexivity).
  now rewrite (split_last number Hn).
Qed.

(** X12.  The address of the file list.  For the page address of a pull
    request, [https://github.com/<owner>/<repo>/pull/<number>],
    [get_affected_files] asks the API at
    [https://api.github.com/repos/<owner>/<repo>/pulls/<number>/files]; an
    address that is already the API's contains [github.com] too, goes
    through the same rewriting and comes out as itself followed by
    [/files]. *)
Theorem files_url_of_pull_request (owner repo number : string) :
  slashless owner = true -> slashless repo = true -> slashless number = true ->
  let files_url :=
    "https://api.github.com/repos/" ^^ owner ^^ "/" ^^ repo ^^ "/pulls/" ^^ number ^^ "/files" in
  files_url_of ("https://github.com/" ^^ owner ^^ "/" ^^ repo ^^ "/pull/" ^^ number)
  = Ok files_url
  /\ files_url_of ("https://api.github.com/repos/" ^^ owner ^^ "/" ^^ repo ^^ "/pulls/" ^^ number)
     = Ok files_url.
Proof.
  intros Ho Hr Hn files_url. unfold files_url_of. split.
  - replace (contains "github.com" _) with true by reflexivity.
    rewrite (split_html_url owner repo number Ho Hr Hn). reflexivity.
  - replace (contains "github.com" _) with true by reflexivity.
    rewrite (split_api_url owner repo number Ho Hr Hn). reflexivity.
Qed.

Lemma files_url_of_pull_request_witness :
  slashless "o" = true /\ slashless "r" = true /\ slashless "5" = true
  /\ files_url_of "https://github.com/o/r/pull/5"
     = Ok "https://api.github.com/repos/o/r/pulls/5/files".
Proof.
  split; [reflexivity | ]. split; [reflexivity | ]. split; [reflexivity | ].
  exact (proj1 (files_url_of_pull_request "o" "r" "5" eq_refl eq_refl eq_refl)).
Defined.

(** ** Letter case in the body of a pull request *)

Lemma lower_lower c : Re.lower (Re.lower c) = Re.lower c.
Proof. destruct c as [[] [] [] [] [] [] [] []]; reflexivity. Qed.

Lemma is_space_lower c : Re.is_space (Re.lower c) = Re.is_space c.
Proof. destruct c as [[] [] [] [] [] [] [] []]; reflexivity. Qed.

Lemma is_digit_lower c : Re.is_digit (Re.lower c) = Re.is_digit c.
Proof. destruct c as [[] [] [] [] [] [] [] []]; reflexivity. Qed.

Lemma not_newline_lower c : Re.not_newline (Re.lower c) = Re.not_newline c.
Proof. destruct c as [[] [] [] [] [] [] [] []]; reflexivity. Qed.

Lemma digit_is_lower c : Re.is_digit c = true -> Re.lower c = c.
Proof. destruct c as [[] [] [] [] [] [] [] []]; (reflexivity || discriminate). Qed.

Lemma same_letter_lower c x : Re.same_letter c (Re.lower x) = Re.same_letter c x.
Proof. unfold Re.same_letter. now rewrite lower_lower. Qed.

Lemma s_or_d_lower x : Re.s_or_d (Re.lower x) = Re.s_or_d x.
Proof. unfold Re.s_or_d. now rewrite !same_letter_lower. Qed.

Lemma length_lowercase s : String.length (lowercase s) = String.length s.
Proof. induction s as [ | c s IH]; cbn; [reflexivity | now rewrite IH]. Qed.

Lemma substring_lowercase s :
  forall n m, substring n m (lowercase s) = lowercase (substring n m s).
Proof.
  induction s as [ | c s IH]; intros [ | n] [ | m]; cbn; try reflexivity;
    now rewrite IH.
Qed.

Lemma lowercase_digits s : all_chars Re.is_digit s = true -> lowercase s = s.
Proof.
  induction s as [ | c s IH]; cbn [all_chars lowercase]; [reflexivity | ].
  intros H. apply andb_prop in H as [Hc Hs]. now rewrite (digit_is_lower c Hc), (IH Hs).
Qed.

Lemma many_lower {A B} (g : A -> B) p s :
  (forall c, p (Re.lower c) = p c) ->
  forall (k : string -> option A) (k2 : string -> option B),
    (forall s', k2 (lowercase s') = option_map g (k s')) ->
    Re.many p (lowercase s) k2 = option_map g (Re.many p s k).
Proof.
  intros Hp. induction s as [ | c s IH]; intros k k2 Hk; cbn [lowercase Re.many].
  - apply (Hk "").
  - rewrite Hp. destruct (p c); [ | apply (Hk (String c s))].
    rewrite (IH k k2 Hk). destruct (Re.many p s k) as [a | ]; [reflexivity | ].
    apply (Hk (String c s)).
Qed.

Lemma rmatch_lower {A B} (g : A -> B) r :
  case_blind r ->
  forall s cap (k : string -> option string -> option A)
         (k2 : string -> option string -> option B),
    (forall s' cap', k2 (lowercase s') (option_map lowercase cap') = option_map g (k s' cap')) ->
    Re.rmatch r (lowercase s) (option_map lowercase cap) k2
    = option_map g (Re.rmatch r s cap k).
Proof.
  induction r as [ | p | r1 IH1 r2 IH2 | r1 IH1 r2 IH2 | r1 IH1 | p | r1 IH1];
    intros Hr s cap k k2 Hk; cbn [Re.rmatch case_blind] in *.
  - apply Hk.
  - destruct s as [ | c s]; cbn [lowercase]; [reflexivity | ].
    rewrite Hr. destruct (p c); [apply Hk | reflexivity].
  - destruct Hr as [H1 H2]. apply (IH1 H1). intros s' cap'. now apply (IH2 H2).
  - destruct Hr as [H1 H2]. rewrite (IH1 H1 s cap k k2 Hk).
    destruct (Re.rmatch r1 s cap k) as [a | ]; [reflexivity | ]. now apply (IH2 H2).
  - rewrite (IH1 Hr s cap k k2 Hk).
    destruct (Re.rmatch r1 s cap k) as [a | ]; [reflexivity | ]. apply Hk.
  - destruct s as [ | c s]; cbn [lowercase]; [reflexivity | ].
    rewrite Hr. destruct (p c); [ | reflexivity].
    apply (many_lower g p s Hr). intros s'. apply Hk.
  - apply (IH1 Hr). intros s' cap'.
    rewrite !length_lowercase, substring_lowercase.
    apply (Hk s' (Some (substring 0 (String.length s - String.length s') s))).
Qed.

Lemma match_here_lower r s :
  case_blind r ->
  Re.match_here r (lowercase s)
  = option_map (fun gn => (lowercase (fst gn), snd gn)) (Re.match_here r s).
Proof.
  intros Hr. unfold Re.match_here.
  apply (rmatch_lower (fun gn : string * nat => (lowercase (fst gn), snd gn)) r Hr s None).
  intros s' cap'. cbn [option_map fst snd]. rewrite !length_lowercase.
  now destruct cap'.
Qed.

Lemma findall_from_lower r s :
  case_blind r ->
  forall skip, Re.findall_from r (lowercase s) skip = map lowercase (Re.findall_from r s skip).
Proof.
  intros Hr. induction s as [ | c s IH]; intros skip; [reflexivity | ].
  change (lowercase (String c s)) with (String (Re.lower c) (lowercase s)).
  cbn [Re.findall_from]. destruct skip as [ | n]; [ | apply IH].
  change (String (Re.lower c) (lowercase s)) with (lowercase (String c s)).
  rewrite (match_here_lower r (String c s) Hr).
  destruct (Re.match_here r (String c s)) as [[g consumed] | ]; cbn [option_map fst snd map].
  - now rewrite IH.
  - apply IH.
Qed.

Lemma case_blind_word w : case_blind (Re.word w).
Proof.
  induction w as [ | c w IH]; cbn [Re.word case_blind]; [exact I | ].
  split; [intros x; apply same_letter_lower | exact IH].
Qed.

Lemma case_blind_reference scope : case_blind scope -> case_blind (Re.reference scope).
Proof.
  intros Hs. unfold Re.reference, Re.keyword. cbn [case_blind].
  repeat match goal with |- _ /\ _ => split end;
    first [apply case_blind_word | exact Hs | exact s_or_d_lower | exact is_space_lower
          | exact is_digit_lower].
Qed.

Lemma case_blind_parse_name n :
  forall text r,
    (String.length text <= n)%nat -> Re.parse_name text = Some r -> case_blind r.
Proof.
  induction n as [ | n IH]; intros text r Hlen.
  - destruct text; [ | cbn in Hlen; lia]. intros [= <-]. exact I.
  - destruct text as [ | c rest]; [intros [= <-]; exact I | ].
    cbn [String.length] in Hlen. cbn [Re.parse_name].
    destruct (Ascii.eqb c Re.backslash).
    + destruct rest as [ | c2 rest2]; [discriminate | ].
      destruct (Ascii.eqb c2 "/"); [ | discriminate].
      destruct (Re.parse_name rest2) as [r2 | ] eqn:E; [ | discriminate].
      intros [= <-]. cbn [case_blind]. split; [intros x; apply same_letter_lower | ].
      apply (IH rest2 r2); [cbn [String.length] in Hlen; lia | exact E].
    + destruct (Ascii.eqb c ".").
      * destruct (Re.parse_name rest) as [r2 | ] eqn:E; [ | discriminate].
        intros [= <-]. cbn [case_blind]. split; [exact not_newline_lower | ].
        apply (IH rest r2); [lia | exact E].
      * destruct (Re.name_char c); [ | discriminate].
        destruct (Re.parse_name rest) as [r2 | ] eqn:E; [ | discriminate].
        intros [= <-]. cbn [case_blind]. split; [intros x; apply same_letter_lower | ].
        apply (IH rest r2); [lia | exact E].
Qed.

Lemma map_lowercase_numbers l :
  (forall number, In number l -> all_chars Re.is_digit number = true) ->
  map lowercase l = l.
Proof.
  induction l as [ | x l IH]; intros H; cbn [map]; [reflexivity | ].
  rewrite (lowercase_digits x) by (apply H; now left).
  rewrite IH; [reflexivity | ]. intros number Hin. apply H. now right.
Qed.

(** the numbers found do not change when the text is put in small letters *)
Lemma findall_reference_lowercase scope body :
  case_blind scope ->
  Re.findall (Re.reference scope) (lowercase body) = Re.findall (Re.reference scope) body.
Proof.
  intros Hs. unfold Re.findall.
  rewrite (findall_from_lower _ body (case_blind_reference scope Hs) 0).
  apply map_lowercase_numbers. intros number Hin.
  apply findall_reference_sound in Hin.
  destruct Hin as (before & keyword & spaces & name & after' & g & g' & _ & _ & _ & _ & _ & _ & Hd).
  exact Hd.
Qed.

(** X13.  The extractor does not look at letter case: two pull requests
    whose bodies differ only in the case of their letters ([Fixes #12],
    [FIXES #12], [fixes #12]) give the same list of issue URLs. *)
Theorem extractor_ignores_case (pr1 pr2 : json) (body1 body2 repo : string) :
  get pr1 "body" (JStr "") = Ok (JStr body1) ->
  get pr2 "body" (JStr "") = Ok (JStr body2) ->
  lowercase body1 = lowercase body2 ->
  get_issues_from_pr pr1 repo = get_issues_from_pr pr2 repo.
Proof.
  intros H1 H2 Hsame. unfold get_issues_from_pr. rewrite H1, H2. cbn [obind truthy].
  destruct body1 as [ | c1 b1], body2 as [ | c2 b2]; try discriminate Hsame;
    [reflexivity | ].
  cbn [String.eqb negb]. unfold patterns.
  destruct (Re.parse_name (Re.escape_slashes repo)) as [scope | ] eqn:E; [ | reflexivity].
  cbn [option_map flat_map]. rewrite !app_nil_r.
  pose proof (case_blind_parse_name _ _ _ (Nat.le_refl _) E) as Hscope.
  rewrite <- (findall_reference_lowercase Re.Eps (String c1 b1) I).
  rewrite <- (findall_reference_lowercase scope (String c1 b1) Hscope).
  rewrite <- (findall_reference_lowercase Re.Eps (String c2 b2) I).
  rewrite <- (findall_reference_lowercase scope (String c2 b2) Hscope).
  now rewrite Hsame.
Qed.

Lemma extractor_ignores_case_witness :
  lowercase "FIXES #12 and Closes o/r#7" = lowercase "fixes #12 and closes O/R#7"
  /\ get_issues_from_pr (JObj [("body", JStr "FIXES #12 and Closes o/r#7")]) "o/r"
     = get_issues_from_pr (JObj [("body", JStr "fixes #12 and closes O/R#7")]) "o/r".
Proof.
  split; [reflexivity | ].
  exact (extractor_ignores_case
           (JObj [("body", JStr "FIXES #12 and Closes o/r#7")])
           (JObj [("body", JStr "fixes #12 and closes O/R#7")])
           "FIXES #12 and Closes o/r#7" "fixes #12 and closes O/R#7" "o/r"
           eq_refl eq_refl eq_refl).
Defined.

(** ** A reference at the head of the body *)

(** the longest run of a class is taken when what follows can go on from
    there *)
Lemma many_longest {A} p (a b : string) (k : string -> option A) x :
  all_chars p a = true -> starts_with p b = false -> k b = Some x ->
  Re.many p (a ^^ b) k = Some x.
Proof.
  intros Ha Hb Hk. induction a as [ | c a IH]; cbn [String.append].
  - destruct b as [ | c b]; cbn [Re.many]; [exact Hk | ].
    cbn [starts_with] in Hb. now rewrite Hb.
  - cbn [all_chars] in Ha. apply andb_prop in Ha as [Hc Ha].
    cbn [Re.many]. rewrite Hc. now rewrite (IH Ha).
Qed.

Lemma rmatch_word {A} w t cap (k : string -> option string -> option A) :
  Re.rmatch (Re.word w) (w ^^ t) cap k = k t cap.
Proof.
  induction w as [ | c w IH]; cbn [Re.word Re.rmatch String.append]; [reflexivity | ].
  unfold Re.same_letter at 1. now rewrite Ascii.eqb_refl.
Qed.

Lemma space_is_no_letter c :
  Re.is_space c = true -> Re.s_or_d c = false /\ Re.same_letter "e" c = false.
Proof. destruct c as [[] [] [] [] [] [] [] []]; (discriminate || (intros _; now split)). Qed.

Lemma rmatch_word_other {A} w s cap (k : string -> option string -> option A) :
  match w, s with
  | String a _, String b _ => negb (Re.same_letter a b)
  | _, _ => false
  end = true ->
  Re.rmatch (Re.word w) s cap k = None.
Proof.
  destruct w as [ | a w], s as [ | b s]; try discriminate.
  intros H. apply negb_true_iff in H. cbn [Re.word Re.rmatch]. now rewrite H.
Qed.

(** a closing keyword in small letters, followed by white space, is
    matched whole *)
Lemma rmatch_keyword {A} kw c t cap (k : string -> option string -> option A) x :
  In kw keywords -> Re.is_space c = true -> k (String c t) cap = Some x ->
  Re.rmatch Re.keyword (kw ^^ String c t) cap k = Some x.
Proof.
  intros Hin Hc Hk. destruct (space_is_no_letter c Hc) as [Hsd He].
  unfold Re.keyword. cbn [Re.rmatch].
  unfold keywords in Hin. cbn [In] in Hin.
  destruct Hin as [<- | [<- | [<- | [<- | [<- | [<- | [<- | [<- | [<- | []]]]]]]]]].
  - rewrite rmatch_word. cbv beta. now rewrite Hsd, Hk.
  - change ("closes" ^^ String c t) with ("close" ^^ String "s" (String c t)).
    rewrite rmatch_word. cbv beta. change (Re.s_or_d "s") with true. cbv iota.
    now rewrite Hk.
  - change ("closed" ^^ String c t) with ("close" ^^ String "d" (String c t)).
    rewrite rmatch_word. cbv beta. change (Re.s_or_d "d") with true. cbv iota.
    now rewrite Hk.
  - rewrite (rmatch_word_other "close") by reflexivity.
    rewrite rmatch_word. cbv beta.
    rewrite (rmatch_word_other "e") by (cbn [negb]; now rewrite He).
    now rewrite Hk.
  - rewrite (rmatch_word_other "close") by reflexivity.
    change ("fixes" ^^ String c t) with ("fix" ^^ "e" ^^ String "s" (String c t)).
    rewrite rmatch_word. cbv beta. rewrite rmatch_word. cbv beta.
    change (Re.s_or_d "s") with true. cbv iota. now rewrite Hk.
  - rewrite (rmatch_word_other "close") by reflexivity.
    change ("fixed" ^^ String c t) with ("fix" ^^ "e" ^^ String "d" (String c t)).
    rewrite rmatch_word. cbv beta. rewrite rmatch_word. cbv beta.
    change (Re.s_or_d "d") with true. cbv iota. now rewrite Hk.
  - rewrite (rmatch_word_other "close") by reflexivity.
    rewrite (rmatch_word_other "fix") by reflexivity.
    rewrite rmatch_word. cbv beta. now rewrite Hsd, Hk.
  - rewrite (rmatch_word_other "close") by reflexivity.
    rewrite (rmatch_word_other "fix") by reflexivity.
    change ("resolves" ^^ String c t) with ("resolve" ^^ String "s" (String c t)).
    rewrite rmatch_word. cbv beta. change (Re.s_or_d "s") with true. cbv iota.
    now rewrite Hk.
  - rewrite (rmatch_word_other "close") by reflexivity.
    rewrite (rmatch_word_other "fix") by reflexivity.
    change ("resolved" ^^ String c t) with ("resolve" ^^ String "d" (String c t)).
    rewrite rmatch_word. cbv beta. change (Re.s_or_d "d") with true. cbv iota.
    now rewrite Hk.
Qed.

Lemma all_chars_lowercase p s :
  (forall c, p (Re.lower c) = p c) -> all_chars p (lowercase s) = all_chars p s.
Proof.
  intros Hp. induction s as [ | c s IH]; cbn [lowercase all_chars]; [reflexivity | ].
  now rewrite Hp, IH.
Qed.

Lemma starts_with_lowercase p s :
  (forall c, p (Re.lower c) = p c) -> starts_with p (lowercase s) = starts_with p s.
Proof. intros Hp. destruct s as [ | c s]; cbn [lowercase starts_with]; [reflexivity | apply Hp]. Qed.

(** a keyword in small letters, white space, [#] and a number at the head
    of a text: the pattern matches there and the group is the number *)
Lemma match_here_reference kw ws number rest :
  In kw keywords ->
  ws <> "" -> all_chars Re.is_space ws = true ->
  number <> "" -> all_chars Re.is_digit number = true ->
  starts_with Re.is_digit rest = false ->
  exists consumed,
    Re.match_here (Re.reference Re.Eps) (kw ^^ ws ^^ "#" ^^ number ^^ rest)
    = Some (number, consumed).
Proof.
  intros Hkw Hws Hspaces Hnum Hdigits Hrest.
  destruct ws as [ | c ws]; [now destruct Hws | ].
  destruct number as [ | d number]; [now destruct Hnum | ].
  cbn [all_chars] in Hspaces, Hdigits.
  apply andb_prop in Hspaces as [Hc Hspaces]. apply andb_prop in Hdigits as [Hd Hdigits].
  eexists. unfold Re.match_here, Re.reference. cbn [Re.rmatch].
  change (String c ws ^^ "#" ^^ String d number ^^ rest)
    with (String c (ws ^^ String "#" (String d (number ^^ rest)))).
  apply rmatch_keyword; [exact Hkw | exact Hc | ].
  rewrite Hc. apply many_longest; [exact Hspaces | reflexivity | ].
  change (Re.word "#") with (Re.Seq (Re.Chr (Re.same_letter "#")) Re.Eps).
  cbn [Re.rmatch]. change (Re.same_letter "#" "#") with true. cbv iota.
  rewrite Hd. apply many_longest; [exact Hdigits | exact Hrest | ].
  change (String d (number ^^ rest)) with (String d number ^^ rest).
  rewrite (substring_prefix (String d number) rest). reflexivity.
Qed.

Lemma findall_leading_reference kw ws number rest :
  In kw keywords ->
  ws <> "" -> all_chars Re.is_space ws = true ->
  number <> "" -> all_chars Re.is_digit number = true ->
  starts_with Re.is_digit rest = false ->
  exists more,
    Re.findall (Re.reference Re.Eps) (kw ^^ ws ^^ "#" ^^ number ^^ rest) = number :: more.
Proof.
  intros Hkw Hws Hspaces Hnum Hdigits Hrest.
  destruct (match_here_reference kw ws number rest Hkw Hws Hspaces Hnum Hdigits Hrest)
    as [consumed Hm].
  unfold Re.findall.
  destruct (kw ^^ ws ^^ "#" ^^ number ^^ rest) as [ | c0 s'] eqn:E.
  - destruct kw; [ | discriminate E].
    unfold keywords in Hkw. cbn [In] in Hkw. intuition discriminate.
  - cbn [Re.findall_from]. rewrite Hm. eexists. reflexivity.
Qed.

(** X14.  A reference at the head of the body is found first: when the
    body of a pull request starts with a closing keyword (in any letter
    case), white space, [#] and a number, the URL of that issue is the
    first element of the list the extractor returns. *)
Theorem leading_reference_is_found
        (pr : json) (repo kw ws number rest : string) (scope : Re.regex) :
  get pr "body" (JStr "") = Ok (JStr (kw ^^ ws ^^ "#" ^^ number ^^ rest)) ->
  Re.parse_name (Re.escape_slashes repo) = Some scope ->
  In (lowercase kw) keywords ->
  ws <> "" -> all_chars Re.is_space ws = true ->
  number <> "" -> all_chars Re.is_digit number = true ->
  starts_with Re.is_digit rest = false ->
  exists more, get_issues_from_pr pr repo = Ok (issue_url_of repo number :: more).
Proof.
  intros Hbody Hscope Hkw Hws Hspaces Hnum Hdigits Hrest.
  assert (Hpats : patterns repo = Some [Re.reference Re.Eps; Re.reference scope])
    by (unfold patterns; now rewrite Hscope).
  assert (Hne : kw ^^ ws ^^ "#" ^^ number ^^ rest <> "").
  { destruct kw; [ | discriminate].
    unfold keywords in Hkw. cbn [In lowercase] in Hkw. intuition discriminate. }
  rewrite (get_issues_from_pr_text pr _ repo _ Hbody Hne Hpats).
  cbn [flat_map]. rewrite <- (findall_reference_lowercase Re.Eps _ I).
  rewrite !lowercase_append. change (lowercase "#") with "#".
  rewrite (lowercase_digits number Hdigits).
  destruct (findall_leading_reference (lowercase kw) (lowercase ws) number (lowercase rest))
    as [more Hfound]; try assumption.
  - destruct ws; [now destruct Hws | discriminate].
  - now rewrite (all_chars_lowercase _ ws is_space_lower).
  - now rewrite (starts_with_lowercase _ rest is_digit_lower).
  - rewrite Hfound. cbn [map app]. eexists. reflexivity.
Qed.

Lemma leading_reference_is_found_witness :
  In (lowercase "Fixes") keywords
  /\ all_chars Re.is_space " " = true /\ all_chars Re.is_digit "42" = true
  /\ starts_with Re.is_digit " and closes o/r#7" = false
  /\ exists more,
       get_issues_from_pr (JObj [("body", JStr "Fixes #42 and closes o/r#7")]) "o/r"
       = Ok ("https://github.com/o/r/issues/42" :: more).
Proof.
  assert (Hkw : In (lowercase "Fixes") keywords) by (cbn; tauto).
  split; [exact Hkw | ]. split; [reflexivity | ]. split; [reflexivity | ].
  split; [reflexivity | ].
  apply (leading_reference_is_found (JObj [("body", JStr "Fixes #42 and closes o/r#7")])
           "o/r" "Fixes" " " "42" " and closes o/r#7" (Re.word "o/r") eq_refl eq_refl Hkw);
    (discriminate || reflexivity).
Defined.

(** ** A page of the search that cannot be read *)

Section Malformed.

Variable server : nat -> string -> Response.

Lemma get_mit_repos_loop_raises fuel query per_page pages taken e :
  forall m s repos w,
    (length taken < m)%nat ->
    (forall i items, nth_error taken i = Some items ->
       page_of (server (requests w + i)%nat (search_url query per_page (Z.of_nat (s + i)%nat)))
       = Some items) ->
    let r := server (requests w + length taken)%nat
                    (search_url query per_page (Z.of_nat (s + length taken)%nat)) in
    status_code r = 200%Z ->
    match payload r with
    | None => Raise JSONDecodeError
    | Some data => obind (get data "items" (JArr [])) iter
    end = Raise e ->
    fst (get_mit_repos_loop server (S fuel) query per_page pages (map Z.of_nat (seq s m)) repos w)
    = Raise e.
Proof.
  induction taken as [ | items taken IH]; intros m s repos w Hlen Hok r H200 Hbad.
  - destruct m as [ | m]; [cbn in Hlen; lia | ].
    subst r. cbn [length] in H200, Hbad. rewrite !Nat.add_0_r in H200, Hbad.
    cbn [seq map get_mit_repos_loop].
    rewrite (bind_ok _ _ _ _ _ (make_request_200 server fuel _ w H200)).
    unfold response_json.
    destruct (payload (server (requests w) (search_url query per_page (Z.of_nat s))))
      as [data | ].
    + run. destruct (get data "items" (JArr [])) as [v | e1 | | ]; cbn [obind] in Hbad;
        try discriminate Hbad.
      * run. rewrite Hbad. reflexivity.
      * run. now injection Hbad as ->.
    + run. now injection Hbad as ->.
  - destruct m as [ | m]; [cbn in Hlen; lia | ].
    assert (H0 := Hok 0%nat items eq_refl). rewrite !Nat.add_0_r in H0.
    apply page_of_some in H0 as (Hfirst & fields & Hpay & Hitems).
    cbn [seq map get_mit_repos_loop].
    rewrite (bind_ok _ _ _ _ _ (make_request_200 server fuel _ w Hfirst)).
    unfold response_json. rewrite Hpay. run.
    rewrite Hitems. cbn [iter len]. run.
    apply IH.
    + cbn in Hlen. lia.
    + intros i its Hi. cbn [requests].
      replace (S (requests w) + i)%nat with (requests w + S i)%nat by lia.
      replace (S s + i)%nat with (s + S i)%nat by lia.
      now apply Hok.
    + cbn [requests]. subst r. cbn [length] in H200.
      replace (S (requests w) + length taken)%nat with (requests w + S (length taken))%nat by lia.
      now replace (S s + length taken)%nat with (s + S (length taken))%nat by lia.
    + cbn [requests]. subst r. cbn [length] in Hbad.
      replace (S (requests w) + length taken)%nat with (requests w + S (length taken))%nat by lia.
      now replace (S s + length taken)%nat with (s + S (length taken))%nat by lia.
Qed.

End Malformed.

(** X15.  A page that cannot be read ends the collection with an
    exception, and what the earlier pages gave is lost with it: after any
    number of pages taken, a reply with status 200 makes [get_mit_repos]
    raise [JSONDecodeError] when its body is not JSON, [AttributeError]
    when the body is JSON but not an object, and [TypeError] when [items]
    is [null]. *)
Theorem unreadable_page_aborts_collection
        (server : nat -> string -> Response) (fuel : nat) (query : string)
        (per_page pages : Z) (taken : list (list json)) (w : World) :
  (length taken < Z.to_nat pages)%nat ->
  (forall i items, nth_error taken i = Some items ->
     page_of (server (requests w + i)%nat (search_url query per_page (Z.of_nat (S i))))
     = Some items) ->
  let r := server (requests w + length taken)%nat
                  (search_url query per_page (Z.of_nat (S (length taken)))) in
  status_code r = 200%Z ->
  (payload r = None ->
   fst (get_mit_repos server (S fuel) query per_page pages w) = Raise JSONDecodeError)
  /\ (forall data, payload r = Some data -> (forall fields, data <> JObj fields) ->
      fst (get_mit_repos server (S fuel) query per_page pages w) = Raise AttributeError)
  /\ (forall fields, payload r = Some (JObj fields) -> assoc "items" fields = Some JNull ->
      fst (get_mit_repos server (S fuel) query per_page pages w) = Raise TypeError).
Proof.
  intros Hlen Hok r H200. unfold get_mit_repos, range1.
  pose proof (fun e => get_mit_repos_loop_raises server fuel query per_page pages taken e
                         (Z.to_nat pages) 1 [] w Hlen Hok H200) as Hloop.
  cbv zeta in Hloop. subst r. split; [ | split].
  - intros Hpay. apply Hloop. cbn [Nat.add]. now rewrite Hpay.
  - intros data Hpay Hnot. apply Hloop. cbn [Nat.add]. rewrite Hpay.
    destruct data; try reflexivity. now destruct (Hnot fields).
  - intros fields Hpay Hitems. apply Hloop. cbn [Nat.add]. rewrite Hpay. cbn [get obind].
    now rewrite Hitems.
Qed.

Lemma unreadable_page_aborts_collection_witness :
  (length [[repo "a/a"; repo "b/b"]] < Z.to_nat 1000)%nat
  /\ status_code (garbled (requests start + 1)%nat (search_url "stars:>10000" 100 2)) = 200%Z
  /\ payload (garbled (requests start + 1)%nat (search_url "stars:>10000" 100 2)) = None
  /\ fst (get_mit_repos garbled 1 "stars:>10000" 100 1000 start) = Raise JSONDecodeError.
Proof.
  assert (Hlen : (length [[repo "a/a"; repo "b/b"]] < Z.to_nat 1000)%nat)
    by (vm_compute; lia).
  split; [exact Hlen | ]. split; [reflexivity | ]. split; [reflexivity | ].
  refine (proj1 (unreadable_page_aborts_collection garbled 0 "stars:>10000" 100 1000
                   [[repo "a/a"; repo "b/b"]] start Hlen _ eq_refl) eq_refl).
  intros i items. destruct i as [ | i]; cbn [nth_error].
  - intros [= <-]. reflexivity.
  - destruct i; discriminate.
Defined.

(** ** slim/slim.py: a storage error is not caught *)

Lemma fails_last_plain {A} (m : M A) :
  (forall w, exists new,
      trace (after m w) = trace w ++ new /\ failures new = [] /\ quiet (fst (m w))) ->
  fails_last m.
Proof.
  intros H w. destruct (H w) as (new & Ht & Hf & Hq). exists new. split; [exact Ht | ].
  destruct (fst (m w)) as [a | e | | ]; try exact Hf.
  destruct e; try exact Hf. now destruct (Hq msg).
Qed.

Lemma fails_last_ret {A} (a : A) : fails_last (ret a).
Proof.
  apply fails_last_plain. intros w. exists []. cbn. rewrite app_nil_r.
  repeat split. intros msg. discriminate.
Qed.

Lemma fails_last_lift {A} (o : Outcome A) : quiet o -> fails_last (lift o).
Proof.
  intros Hq. apply fails_last_plain. intros w. exists []. cbn. rewrite app_nil_r.
  now repeat split.
Qed.

Lemma fails_last_response_json r : fails_last (response_json r).
Proof.
  unfold response_json. destruct (payload r); [apply fails_last_ret | ].
  apply fails_last_lift. intros msg. discriminate.
Qed.

Lemma fails_last_emit e :
  match e with Execute _ _ => False | _ => True end -> fails_last (emit e).
Proof.
  intros He. apply fails_last_plain. intros w. exists [e]. cbn [after emit snd fst trace].
  split; [reflexivity | ]. split; [now destruct e | intros msg; discriminate].
Qed.

Lemma fails_last_print m : fails_last (print m).
Proof. now apply fails_last_emit. Qed.

Lemma fails_last_time_sleep d : fails_last (time_sleep d).
Proof.
  apply fails_last_plain. intros w. exists [Sleep d]. unfold after.
  destruct (time_sleep_cases d w) as [E | (e & [-> | ->] & E)]; rewrite E; cbn;
    repeat split; intros msg; discriminate.
Qed.

Lemma fails_last_time_time : fails_last time_time.
Proof.
  apply fails_last_plain. intros w. exists []. cbn. rewrite app_nil_r.
  repeat split. intros msg. discriminate.
Qed.

Lemma fails_last_conn_commit : fails_last conn_commit.
Proof.
  apply fails_last_plain. intros w. exists [Commit]. cbn.
  repeat split. intros msg. discriminate.
Qed.

Lemma fails_last_sqlite_connect : fails_last sqlite_connect.
Proof.
  apply fails_last_plain. intros w. exists []. cbn. rewrite app_nil_r.
  repeat split. intros msg. discriminate.
Qed.

Lemma fails_last_requests_get server url : fails_last (requests_get server url).
Proof.
  apply fails_last_plain. intros w. eexists. cbn [after requests_get snd fst trace].
  split; [reflexivity | ]. split; [reflexivity | intros msg; discriminate].
Qed.

Lemma fails_last_cursor_execute db_fault r : fails_last (cursor_execute db_fault r).
Proof.
  intros w. unfold after, cursor_execute.
  destruct (db_fault (statements w)) as [msg | ].
  - eexists. split; [reflexivity | ]. cbn [fst]. exists [], r. now split.
  - destruct (insert_or_ignore r (table w)) as [rows rowcount].
    eexists. split; [reflexivity | ]. cbn [fst]. now destruct (rowcount >? 0)%Z.
Qed.

Lemma fails_last_bind {A B} (m : M A) (k : A -> M B) :
  fails_last m -> (forall a, fails_last (k a)) -> fails_last (bind m k).
Proof.
  intros Hm Hk w. destruct (Hm w) as (new1 & Ht1 & H1).
  unfold after, bind in *. destruct (m w) as [[a | e | | ] w1]; cbn [fst snd] in *;
    try (exists new1; now split).
  destruct (Hk a w1) as (new2 & Ht2 & H2). unfold after in *.
  exists (new1 ++ new2). split; [now rewrite Ht2, Ht1, app_assoc | ].
  destruct (fst (k a w1)) as [b | e | | ]; try (now rewrite failures_app, H1, H2).
  destruct e; try (now rewrite failures_app, H1, H2).
  destruct H2 as (before & r & -> & Hb). exists (new1 ++ before), r.
  split; [now rewrite app_assoc | now rewrite failures_app, H1, Hb].
Qed.

Lemma quiet_replaced old new v : quiet (Slim.replaced old new v).
Proof. unfold Slim.replaced. quiet_by_cases. Qed.

Lemma quiet_text_in s v : quiet (text_in s v).
Proof. unfold text_in. quiet_by_cases. Qed.

Lemma quiet_source_url event : quiet (Slim.source_url event).
Proof.
  unfold Slim.source_url. apply quiet_obind; [apply quiet_get | intros source].
  apply quiet_obind; [apply quiet_get | intros issue; apply quiet_get].
Qed.

Lemma quiet_first_cross_reference timeline : quiet (Slim.first_cross_reference timeline).
Proof.
  induction timeline as [ | event timeline IH]; cbn [Slim.first_cross_reference].
  - intros msg. discriminate.
  - apply quiet_obind; [apply quiet_get | intros kind].
    destruct (equals_text kind "cross-referenced"); [ | exact IH].
    apply quiet_obind; [apply quiet_source_url | intros url].
    apply quiet_obind; [apply quiet_text_in | intros [ | ]]; [ | exact IH].
    apply quiet_obind; [apply quiet_getitem | intros source].
    apply quiet_obind; [apply quiet_getitem | intros issue; apply quiet_getitem].
Qed.

Create HintDb fails_last.
#[local] Hint Resolve quiet_get quiet_getitem quiet_iter quiet_keys quiet_len quiet_str
  quiet_text quiet_text_or_none quiet_int_header quiet_index_from_end quiet_ok
  quiet_traverse quiet_obind quiet_sha_of quiet_replaced quiet_text_in quiet_source_url
  quiet_first_cross_reference : quiet.
#[local] Hint Resolve fails_last_ret fails_last_response_json fails_last_print
  fails_last_time_sleep fails_last_time_time fails_last_conn_commit fails_last_sqlite_connect
  fails_last_requests_get fails_last_cursor_execute : fails_last.
#[local] Hint Extern 2 (fails_last (lift _)) =>
  apply fails_last_lift; auto with quiet : fails_last.

Ltac fails_last_steps :=
  repeat first
    [ progress auto with fails_last
    | apply fails_last_bind; [ | intros ? ]
    | match goal with
      | |- fails_last (match ?x with _ => _ end) => destruct x
      | |- fails_last (if ?b then _ else _) => destruct b
      end ].

Section SlimStore.

Variable server : nat -> string -> Response.
Variable db_fault : nat -> option string.

Lemma fails_last_make_request fuel url : fails_last (make_request server fuel url).
Proof.
  induction fuel as [ | fuel IH]; cbn [make_request].
  - apply fails_last_lift. intros msg. discriminate.
  - fails_last_steps.
Qed.

#[local] Hint Resolve fails_last_make_request : fails_last.

Lemma fails_last_get_languages fuel name : fails_last (get_languages server fuel name).
Proof. unfold get_languages. fails_last_steps. Qed.

Lemma fails_last_get_issues fuel name : fails_last (Slim.get_issues server fuel name).
Proof. unfold Slim.get_issues. fails_last_steps. Qed.

Lemma fails_last_get_pull_request_from_issue fuel name number :
  fails_last (Slim.get_pull_request_from_issue server fuel name number).
Proof. unfold Slim.get_pull_request_from_issue. fails_last_steps. Qed.

Lemma fails_last_get_code_before_after fuel pr_url :
  fails_last (Slim.get_code_before_after server fuel pr_url).
Proof. unfold Slim.get_code_before_after. fails_last_steps. Qed.

Lemma fails_last_slim_get_affected_files fuel pr_url :
  fails_last (Slim.get_affected_files server fuel pr_url).
Proof. unfold Slim.get_affected_files. fails_last_steps. Qed.

#[local] Hint Resolve fails_last_get_languages fails_last_get_issues
  fails_last_get_pull_request_from_issue fails_last_get_code_before_after
  fails_last_slim_get_affected_files : fails_last.

Lemma fails_last_store_issue fuel name issue :
  fails_last (Slim.store_issue server db_fault fuel name issue).
Proof. unfold Slim.store_issue. fails_last_steps. Qed.

#[local] Hint Resolve fails_last_store_issue : fails_last.

Lemma fails_last_store_issues fuel name issues :
  fails_last (Slim.store_issues server db_fault fuel name issues).
Proof.
  induction issues as [ | issue issues IH]; cbn [Slim.store_issues]; fails_last_steps.
Qed.

#[local] Hint Resolve fails_last_store_issues : fails_last.

Lemma fails_last_populate_repos fuel repos :
  fails_last (Slim.populate_repos server db_fault fuel repos).
Proof.
  induction repos as [ | repo repos IH]; cbn [Slim.populate_repos]; fails_last_steps.
Qed.

End SlimStore.

(** X16.  [populate_db] of slim/slim.py does not catch a storage error: an
    INSERT that fails is the last thing the call does (no commit follows
    it) and its error is what [populate_db] raises; when [populate_db] ends
    in any other way, no INSERT of the call has failed. *)
Theorem slim_storage_error_escapes
        (server : nat -> string -> Response) (db_fault : nat -> option string)
        (fuel : nat) (repos : list json) (w : World) :
  exists new,
    trace (after (Slim.populate_db server db_fault fuel repos) w) = trace w ++ new
    /\ match fst (Slim.populate_db server db_fault fuel repos w) with
       | Raise (SqliteError msg) =>
           exists before r, new = before ++ [Execute r (Failed msg)] /\ failures before = []
       | _ => failures new = []
       end.
Proof.
  assert (H : fails_last (Slim.populate_db server db_fault fuel repos)).
  { unfold Slim.populate_db, conn_close.
    apply fails_last_bind; [apply fails_last_sqlite_connect | intros _].
    apply fails_last_bind; [apply fails_last_populate_repos | intros _].
    apply fails_last_sqlite_connect. }
  exact (H w).
Qed.

(** ** slim/slim.py: the commits of a pull request *)

(** X17.  [get_code_before_after] of slim/slim.py gives both commit URLs or
    none: the pair it returns is [(None, None)], or two URLs of commits of
    one and the same repository (the base repository of the pull
    request). *)
Theorem slim_code_urls_come_in_pairs
        (server : nat -> string -> Response) (fuel : nat) (pr_url : json)
        (w w' : World) (before_code_url after_code_url : option string) :
  Slim.get_code_before_after server fuel pr_url w
  = (Ok (before_code_url, after_code_url), w') ->
  (before_code_url = None /\ after_code_url = None)
  \/ exists name base head,
       before_code_url = Some ("https://github.com/" ^^ name ^^ "/commit/" ^^ base)
       /\ after_code_url = Some ("https://github.com/" ^^ name ^^ "/commit/" ^^ head).
Proof.
  unfold Slim.get_code_before_after. intros H.
  destruct (negb (truthy pr_url)); [injection H as <- <- <-; now left | ].
  apply bind_lift_returns in H. destruct H as (api_url & _ & H).
  apply bind_returns in H. destruct H as ([r | ] & w1 & _ & H);
    [ | injection H as <- <- <-; now left].
  apply bind_returns in H. destruct H as (pr_data & w2 & _ & H).
  apply bind_lift_returns in H. destruct H as (base_sha & _ & H).
  apply bind_lift_returns in H. destruct H as (head_sha & _ & H).
  apply bind_lift_returns in H. destruct H as (base & _ & H).
  apply bind_lift_returns in H. destruct H as (base_repo & _ & H).
  apply bind_lift_returns in H. destruct H as (repo_name & _ & H).
  destruct (negb (truthy base_sha) || negb (truthy head_sha) || negb (truthy repo_name))%bool;
    [injection H as <- <- <-; now left | ].
  apply bind_lift_returns in H. destruct H as (name & _ & H).
  apply bind_lift_returns in H. destruct H as (base_text & _ & H).
  apply bind_lift_returns in H. destruct H as (head_text & _ & H).
  injection H as <- <- <-. right. now exists name, base_text, head_text.
Qed.

Lemma slim_code_urls_come_in_pairs_witness :
  exists w',
    Slim.get_code_before_after pull_record 1 (JStr "https://github.com/o/r/pull/9") start
    = (Ok (Some "https://github.com/o/r/commit/aaa111",
           Some "https://github.com/o/r/commit/bbb222"), w')
    /\ exists name base head,
         Some "https://github.com/o/r/commit/aaa111"
         = Some ("https://github.com/" ^^ name ^^ "/commit/" ^^ base)
         /\ Some "https://github.com/o/r/commit/bbb222"
            = Some ("https://github.com/" ^^ name ^^ "/commit/" ^^ head).
Proof.
  set (run := Slim.get_code_before_after pull_record 1
                (JStr "https://github.com/o/r/pull/9") start).
  assert (E : run = (Ok (Some "https://github.com/o/r/commit/aaa111",
                         Some "https://github.com/o/r/commit/bbb222"), snd run))
    by (vm_compute; reflexivity).
  exists (snd run). split; [exact E | ].
  destruct (slim_code_urls_come_in_pairs pull_record 1 (JStr "https://github.com/o/r/pull/9")
              start (snd run) _ _ E) as [[H _] | H]; [discriminate H | exact H].
Defined.

(** ** slim/slim.py: the candidates *)

Section SlimCollector.

Variable server : nat -> string -> Response.

Lemma slim_get_mit_repos_loop_run fuel query per_page taken :
  forall m s repos w,
    (length taken <= m)%nat ->
    (forall i items, nth_error taken i = Some items ->
       page_of (server (requests w + i)%nat
                       (Slim.search_url query per_page (Z.of_nat (s + i)%nat)))
       = Some items) ->
    ((length taken < m)%nat ->
       gives_up (server (requests w + length taken)%nat
                        (Slim.search_url query per_page (Z.of_nat (s + length taken)%nat)))
       = true) ->
    fst (Slim.get_mit_repos_loop server (S fuel) query per_page (map Z.of_nat (seq s m)) repos w)
    = Ok (if (length taken <? m)%nat then [] else repos ++ concat taken).
Proof.
  induction taken as [ | items taken IH]; intros m s repos w Hlen Hok Hfail.
  - destruct m as [ | m]; [cbn; now rewrite app_nil_r | ].
    cbn [length] in Hfail. rewrite !Nat.add_0_r in Hfail. specialize (Hfail ltac:(lia)).
    cbn [seq map Slim.get_mit_repos_loop].
    now rewrite (bind_ok _ _ _ _ _ (make_request_gives_up server fuel _ w Hfail)).
  - destruct m as [ | m]; [cbn in Hlen; lia | ].
    assert (H0 := Hok 0%nat items eq_refl). rewrite !Nat.add_0_r in H0.
    apply page_of_some in H0 as (H200 & fields & Hpay & Hitems).
    cbn [seq map Slim.get_mit_repos_loop].
    rewrite (bind_ok _ _ _ _ _ (make_request_200 server fuel _ w H200)).
    unfold response_json. rewrite Hpay. run. rewrite Hitems. cbn [iter]. run.
    rewrite (IH m (S s)).
    + cbn [length concat]. rewrite <- app_assoc.
      change (S (length taken) <? S m)%nat with (length taken <? m)%nat. reflexivity.
    + cbn in Hlen. lia.
    + intros i its Hi. cbn [requests].
      replace (S (requests w) + i)%nat with (requests w + S i)%nat by lia.
      replace (S s + i)%nat with (s + S i)%nat by lia.
      now apply Hok.
    + intros Hlt. cbn [requests].
      replace (S (requests w) + length taken)%nat
        with (requests w + length (items :: taken))%nat by (cbn; lia).
      replace (S s + length taken)%nat with (s + length (items :: taken))%nat by (cbn; lia).
      apply Hfail. cbn. lia.
Qed.

End SlimCollector.

(** X18.  [get_mit_repos] of slim/slim.py is all or nothing: when every
    page up to the limit is taken it returns their items in order, and when
    a page is refused it returns the empty list, whatever the pages before
    it gave. *)
Theorem slim_get_mit_repos_all_or_nothing
        (server : nat -> string -> Response) (fuel : nat) (query : string)
        (per_page pages : Z) (taken : list (list json)) (w : World) :
  (length taken <= Z.to_nat pages)%nat ->
  (forall i items, nth_error taken i = Some items ->
     page_of (server (requests w + i)%nat (Slim.search_url query per_page (Z.of_nat (S i))))
     = Some items) ->
  ((length taken < Z.to_nat pages)%nat ->
     gives_up (server (requests w + length taken)%nat
                      (Slim.search_url query per_page (Z.of_nat (S (length taken))))) = true) ->
  fst (Slim.get_mit_repos server (S fuel) query per_page pages w)
  = Ok (if (length taken <? Z.to_nat pages)%nat then [] else concat taken).
Proof.
  intros Hlen Hok Hfail. unfold Slim.get_mit_repos, range1.
  apply (slim_get_mit_repos_loop_run server fuel query per_page taken
           (Z.to_nat pages) 1 [] w Hlen Hok Hfail).
Qed.

Lemma slim_get_mit_repos_all_or_nothing_witness :
  (length [[repo "a/a"; repo "b/b"]; [repo "c/c"]] <= Z.to_nat 10)%nat
  /\ gives_up (slim_search (requests start + 2)%nat (Slim.search_url "stars:>100" 100 3)) = true
  /\ fst (Slim.get_mit_repos slim_search 1 "stars:>100" 100 10 start) = Ok [].
Proof.
  assert (Hlen : (length [[repo "a/a"; repo "b/b"]; [repo "c/c"]] <= Z.to_nat 10)%nat)
    by (vm_compute; lia).
  split; [exact Hlen | ]. split; [reflexivity | ].
  refine (slim_get_mit_repos_all_or_nothing slim_search 0 "stars:>100" 100 10
            [[repo "a/a"; repo "b/b"]; [repo "c/c"]] start Hlen _ (fun _ => eq_refl)).
  intros i items. destruct i as [ | [ | i]]; cbn [nth_error].
  - intros [= <-]. reflexivity.
  - intros [= <-]. reflexivity.
  - destruct i; discriminate.
Defined.

(** ** A pull request that links nothing *)

(** X19.  A pull request without a body costs nothing: when [body] is
    missing, [null] or empty, the loop body of [populate_db_from_prs] makes
    no request and no INSERT for it and leaves the counters as they were.
    Its [html_url] is read first all the same: a pull request without one
    raises [KeyError] even when it would have linked nothing. *)
Theorem pull_request_without_body
        (server : nat -> string -> Response) (db_fault : nat -> option string)
        (fuel : nat) (repo_name languages : string) (fields : list (string * json))
        (added total : Z) (w : World) :
  (forall v, assoc "body" fields = Some v -> truthy v = false) ->
  (forall html pr_url,
      assoc "html_url" fields = Some html -> text_or_none html = Ok pr_url ->
      exists w',
        process_pr server db_fault fuel repo_name languages (JObj fields) added total w
        = (Ok (added, total), w')
        /\ requests w' = requests w /\ statements w' = statements w
        /\ table w' = table w)
  /\ (assoc "html_url" fields = None ->
      process_pr server db_fault fuel repo_name languages (JObj fields) added total w
      = (Raise (KeyError "html_url"), w)).
Proof.
  intros Hbody. split.
  - intros html pr_url Hhtml Hurl. unfold process_pr. cbn [getitem]. rewrite Hhtml.
    cbn [obind]. rewrite Hurl. run.
    assert (Hnone : get_issues_from_pr (JObj fields) repo_name = Ok []).
    { unfold get_issues_from_pr. cbn [get obind].
      destruct (assoc "body" fields) as [v | ].
      - now rewrite (Hbody v eq_refl).
      - reflexivity. }
    rewrite Hnone. run.
    destruct ((added >? 0)%Z && (added mod 10 =? 0)%Z)%bool; run;
      eexists; (split; [reflexivity | now repeat split]).
  - intros Hmiss. unfold process_pr. cbn [getitem]. rewrite Hmiss. reflexivity.
Qed.

Lemma pull_request_without_body_witness :
  (forall v, assoc "body" [("html_url", JStr "https://github.com/o/r/pull/8"); ("body", JNull)]
             = Some v -> truthy v = false)
  /\ exists w',
       process_pr nine_then_two no_fault 1 "o/r" "[]"
                  (JObj [("html_url", JStr "https://github.com/o/r/pull/8"); ("body", JNull)])
                  3 3 start
       = (Ok (3%Z, 3%Z), w')
       /\ requests w' = requests start.
Proof.
  assert (H : forall v, assoc "body" [("html_url", JStr "https://github.com/o/r/pull/8");
                                      ("body", JNull)] = Some v -> truthy v = false)
    by (intros v [= <-]; reflexivity).
  split; [exact H | ].
  destruct (proj1 (pull_request_without_body nine_then_two no_fault 1 "o/r" "[]"
                     [("html_url", JStr "https://github.com/o/r/pull/8"); ("body", JNull)]
                     3 3 start H)
                  (JStr "https://github.com/o/r/pull/8")
                  (Some "https://github.com/o/r/pull/8") eq_refl eq_refl)
    as (w' & Hrun & Hreq & _).
  exists w'. split; [exact Hrun | exact Hreq].
Defined.

(** ** slim/slim.py: the pull request behind an issue *)

Lemma getitem_get d k v default : getitem d k = Ok v -> get d k default = Ok v.
Proof.
  destruct d; try discriminate. cbn [getitem get].
  destruct (assoc k fields); [now intros [= <-] | discriminate].
Qed.

Lemma first_cross_reference_pull timeline :
  forall v, Slim.first_cross_reference timeline = Ok v ->
            v = JNull \/ text_in "pull" v = Ok true.
Proof.
  induction timeline as [ | event timeline IH]; intros v; cbn [Slim.first_cross_reference].
  - intros [= <-]. now left.
  - destruct (get event "event" JNull) as [kind | | | ]; try discriminate. cbn [obind].
    destruct (equals_text kind "cross-referenced"); [ | apply IH].
    destruct (Slim.source_url event) as [url | | | ] eqn:Eurl; try discriminate. cbn [obind].
    destruct (text_in "pull" url) as [[ | ] | | | ] eqn:Epull; try discriminate; cbn [obind];
      [ | apply IH].
    destruct (getitem event "source") as [source | | | ] eqn:Es; try discriminate.
    cbn [obind].
    destruct (getitem source "issue") as [issue | | | ] eqn:Ei; try discriminate.
    cbn [obind]. intros Hv. right.
    unfold Slim.source_url in Eurl.
    rewrite (getitem_get _ _ _ (JObj []) Es) in Eurl. cbn [obind] in Eurl.
    rewrite (getitem_get _ _ _ (JObj []) Ei) in Eurl. cbn [obind] in Eurl.
    rewrite (getitem_get _ _ _ (JStr "") Hv) in Eurl. injection Eurl as <-. exact Epull.
Qed.

(** X20.  What [get_pull_request_from_issue] of slim/slim.py returns is
    [None] or the address of a cross-reference, and that address contains
    [pull]. *)
Theorem slim_pull_request_of_issue
        (server : nat -> string -> Response) (fuel : nat) (repo_name : string)
        (issue_number v : json) (w w' : World) :
  Slim.get_pull_request_from_issue server fuel repo_name issue_number w = (Ok v, w') ->
  v = JNull \/ text_in "pull" v = Ok true.
Proof.
  unfold Slim.get_pull_request_from_issue. intros H.
  apply bind_lift_returns in H. destruct H as (number & _ & H).
  apply bind_returns in H. destruct H as ([r | ] & w1 & _ & H).
  - apply bind_returns in H. destruct H as (timeline & w2 & _ & H).
    apply bind_lift_returns in H. destruct H as (events & _ & H).
    unfold lift in H. injection H as Hfound _.
    now apply first_cross_reference_pull with events.
  - injection H as <- <-. now left.
Qed.

Lemma slim_pull_request_of_issue_witness :
  exists w',
    Slim.get_pull_request_from_issue issue_driven 1 "o/r" (JNum 1) start
    = (Ok (JStr "https://github.com/o/r/pull/9"), w')
    /\ text_in "pull" (JStr "https://github.com/o/r/pull/9") = Ok true.
Proof.
  set (run := Slim.get_pull_request_from_issue issue_driven 1 "o/r" (JNum 1) start).
  assert (E : run = (Ok (JStr "https://github.com/o/r/pull/9"), snd run))
    by (vm_compute; reflexivity).
  exists (snd run). split; [exact E | ].
  destruct (slim_pull_request_of_issue issue_driven 1 "o/r" (JNum 1) _ start (snd run) E)
    as [H | H]; [discriminate H | exact H].
Defined.

(** ** Processing the same repositories again *)

Lemma same_rows_ret {A B} (E : A -> B -> Prop) a b : E a b -> same_rows E (ret a) (ret b).
Proof.
  intros H w1 w2 a1 v1 [= <- <-]. exists b, w2, [], []. rewrite !app_nil_r. now repeat split.
Qed.

Lemma same_rows_lift {A} (o : Outcome A) : same_rows eq (lift o) (lift o).
Proof.
  intros w1 w2 a1 v1 [= -> <-]. exists a1, w2, [], []. rewrite !app_nil_r. now repeat split.
Qed.

Lemma same_rows_response_json r : same_rows eq (response_json r) (response_json r).
Proof.
  unfold response_json. destruct (payload r); [now apply same_rows_ret | apply same_rows_lift].
Qed.

Lemma same_rows_print m1 m2 : same_rows eq (print m1) (print m2).
Proof.
  intros w1 w2 a1 v1 [= <- <-]. eexists tt, _, [Print m1], [Print m2]. now repeat split.
Qed.

Lemma same_rows_time_sleep d : same_rows eq (time_sleep d) (time_sleep d).
Proof.
  intros w1 w2 a1 v1. unfold time_sleep.
  destruct (negb (Qle_bool 0 d)); [discriminate | ].
  destruct (negb (Qle_bool d sleep_max)); [discriminate | ].
  intros [= <- <-]. eexists tt, _, [Sleep d], [Sleep d]. now repeat split.
Qed.

Lemma same_rows_time_time : same_rows (fun _ _ => True) time_time time_time.
Proof.
  intros w1 w2 a1 v1 [= <- <-]. exists (now w2), w2, [], []. rewrite !app_nil_r.
  now repeat split.
Qed.

Lemma same_rows_conn_commit : same_rows eq conn_commit conn_commit.
Proof.
  intros w1 w2 a1 v1 [= <- <-]. eexists tt, _, [Commit], [Commit]. now repeat split.
Qed.

Lemma same_rows_sqlite_connect : same_rows eq sqlite_connect sqlite_connect.
Proof.
  intros w1 w2 a1 v1 [= <- <-]. eexists tt, _, [], []. cbn. rewrite !app_nil_r.
  now repeat split.
Qed.

Lemma same_rows_cursor_execute db_fault r :
  (forall n, db_fault n = None) ->
  same_rows (fun _ _ => True) (cursor_execute db_fault r) (cursor_execute db_fault r).
Proof.
  intros Hn w1 w2 a1 v1. unfold cursor_execute. rewrite !Hn.
  destruct (insert_or_ignore r (table w1)) as [rows1 c1].
  destruct (insert_or_ignore r (table w2)) as [rows2 c2].
  intros [= <- <-]. eexists _, _, _, _. split; [reflexivity | ]. now repeat split.
Qed.

Lemma same_rows_bind {A1 A2 B1 B2} (E : A1 -> A2 -> Prop) (E' : B1 -> B2 -> Prop)
      (m1 : M A1) (m2 : M A2) (k1 : A1 -> M B1) (k2 : A2 -> M B2) :
  same_rows E m1 m2 ->
  (forall a1 a2, E a1 a2 -> same_rows E' (k1 a1) (k2 a2)) ->
  same_rows E' (bind m1 k1) (bind m2 k2).
Proof.
  intros Hm Hk w1 w2 b1 v1 H. apply bind_returns in H. destruct H as (a1 & u1 & Hm1 & Hk1).
  destruct (Hm w1 w2 a1 u1 Hm1) as (a2 & u2 & n1 & n2 & Hm2 & Ha & Ht1 & Ht2 & Hx).
  destruct (Hk a1 a2 Ha u1 u2 b1 v1 Hk1) as (b2 & v2 & p1 & p2 & Hk2 & Hb & Hu1 & Hu2 & Hy).
  exists b2, v2, (n1 ++ p1), (n2 ++ p2).
  split; [now rewrite (bind_ok _ _ _ _ _ Hm2) | ]. split; [exact Hb | ].
  split; [now rewrite Hu1, Ht1, app_assoc | ]. split; [now rewrite Hu2, Ht2, app_assoc | ].
  now rewrite !executed_app, Hx, Hy.
Qed.

(** a body that raises no storage error runs as if it had no [try] *)
Lemma same_rows_try_sqlite {A B} (E : A -> B -> Prop)
      (b1 : M A) (b2 : M B) (h1 : string -> M A) (h2 : string -> M B) :
  contained b1 -> same_rows E b1 b2 -> same_rows E (try_sqlite b1 h1) (try_sqlite b2 h2).
Proof.
  intros Hc Hb w1 w2 a1 v1 H. unfold try_sqlite in *. specialize (Hc w1).
  destruct (b1 w1) as [[a | e | | ] u1] eqn:E1; try discriminate.
  - destruct (Hb w1 w2 a u1 E1) as (a2 & v2 & n1 & n2 & H2 & Ha & Ht1 & Ht2 & Hx).
    injection H as <- <-. exists a2, v2, n1, n2. rewrite H2. now repeat split.
  - destruct e; try discriminate. now destruct (Hc msg).
Qed.

Lemma same_rows_any {A B} (E : A -> B -> Prop) (m1 : M A) (m2 : M B) :
  same_rows E m1 m2 -> same_rows (fun _ _ => True) m1 m2.
Proof.
  intros H w1 w2 a1 v1 H1. destruct (H w1 w2 a1 v1 H1) as (a2 & v2 & n1 & n2 & H2 & _ & Ht).
  exists a2, v2, n1, n2. now repeat split.
Qed.

Create HintDb same_rows.
#[local] Hint Resolve same_rows_lift same_rows_response_json same_rows_print
  same_rows_time_sleep same_rows_time_time same_rows_conn_commit same_rows_sqlite_connect
  : same_rows.

Lemma replay_app a b s : replay (a ++ b) s = replay b (replay a s).
Proof. revert s. induction a as [ | e a IH]; intros s; cbn [app replay]; [reflexivity | apply IH]. Qed.

Lemma tracked_plain {A} (m : M A) :
  (forall w, exists new,
      trace (after m w) = trace w ++ new /\ store (after m w) = store w
      /\ replay new (store w) = store w /\ failures new = []) ->
  tracked m.
Proof.
  intros H w. destruct (H w) as (new & Ht & Hs & Hr & Hf). exists new.
  split; [exact Ht | ]. split; [now rewrite Hr | exact Hf].
Qed.

Lemma tracked_ret {A} (a : A) : tracked (ret a).
Proof. apply tracked_plain. intros w. exists []. cbn. rewrite app_nil_r. now repeat split. Qed.

Lemma tracked_lift {A} (o : Outcome A) : tracked (lift o).
Proof. apply tracked_plain. intros w. exists []. cbn. rewrite app_nil_r. now repeat split. Qed.

Lemma tracked_response_json r : tracked (response_json r).
Proof. unfold response_json. destruct (payload r); [apply tracked_ret | apply tracked_lift]. Qed.

Lemma tracked_print m : tracked (print m).
Proof. apply tracked_plain. intros w. exists [Print m]. now repeat split. Qed.

Lemma tracked_time_sleep d : tracked (time_sleep d).
Proof.
  apply tracked_plain. intros w. exists [Sleep d]. unfold after.
  destruct (time_sleep_cases d w) as [E | (e & _ & E)]; rewrite E; now repeat split.
Qed.

Lemma tracked_time_time : tracked time_time.
Proof. apply tracked_plain. intros w. exists []. cbn. rewrite app_nil_r. now repeat split. Qed.

Lemma tracked_requests_get server url : tracked (requests_get server url).
Proof. apply tracked_plain. intros w. eexists. now repeat split. Qed.

Lemma tracked_conn_commit : tracked conn_commit.
Proof. intros w. exists [Commit]. now repeat split. Qed.

Lemma tracked_cursor_execute db_fault r :
  (forall n, db_fault n = None) -> tracked (cursor_execute db_fault r).
Proof.
  intros Hn w. unfold after, cursor_execute, store. rewrite Hn.
  destruct (insert_or_ignore r (table w)) as [rows c] eqn:E.
  eexists. cbn [snd trace table durable]. split; [reflexivity | ].
  cbn [replay fst snd]. rewrite E. now destruct (c >? 0)%Z.
Qed.

Lemma tracked_bind {A B} (m : M A) (k : A -> M B) :
  tracked m -> (forall a, tracked (k a)) -> tracked (bind m k).
Proof.
  intros Hm Hk w. destruct (Hm w) as (n1 & Ht1 & Hs1 & Hf1).
  unfold after, bind in *. destruct (m w) as [[a | e | | ] w1]; cbn [snd] in *;
    try (exists n1; now repeat split).
  destruct (Hk a w1) as (n2 & Ht2 & Hs2 & Hf2). unfold after in *.
  exists (n1 ++ n2). split; [now rewrite Ht2, Ht1, app_assoc | ].
  split; [now rewrite replay_app, <- Hs1 | now rewrite failures_app, Hf1, Hf2].
Qed.

Lemma tracked_try_sqlite {A} (body : M A) (handler : string -> M A) :
  tracked body -> (forall msg, tracked (handler msg)) -> tracked (try_sqlite body handler).
Proof.
  intros Hb Hh w. destruct (Hb w) as (n1 & Ht1 & Hs1 & Hf1).
  unfold after, try_sqlite in *. destruct (body w) as [[a | e | | ] w1]; cbn [snd] in *;
    try (exists n1; now repeat split).
  destruct e; try (exists n1; now repeat split).
  destruct (Hh msg w1) as (n2 & Ht2 & Hs2 & Hf2). unfold after in *.
  exists (n1 ++ n2). split; [now rewrite Ht2, Ht1, app_assoc | ].
  split; [now rewrite replay_app, <- Hs1 | now rewrite failures_app, Hf1, Hf2].
Qed.

Create HintDb tracked.
#[local] Hint Resolve tracked_ret tracked_lift tracked_response_json tracked_print
  tracked_time_sleep tracked_time_time tracked_requests_get tracked_conn_commit : tracked.

Ltac tracked_steps :=
  repeat first
    [ progress auto with tracked
    | apply tracked_bind; [ | intros ? ]
    | apply tracked_try_sqlite; [ | intros ? ]
    | match goal with
      | |- tracked (match ?x with _ => _ end) => destruct x
      | |- tracked (if ?b then _ else _) => destruct b
      end ].

Ltac same_rows_steps :=
  repeat first
    [ solve [eauto with same_rows]
    | apply same_rows_ret; solve [reflexivity | exact I]
    | eapply same_rows_bind; [solve [eauto with same_rows] | intros ? ? ?; try subst]
    | match goal with
      | |- same_rows _ (match ?x with _ => _ end) _ => destruct x
      | |- same_rows _ _ (match ?x with _ => _ end) => destruct x
      | |- same_rows _ (if ?b then _ else _) _ => destruct b
      | |- same_rows _ _ (if ?b then _ else _) => destruct b
      end ].

Section Again.

Variable server : nat -> string -> Response.
Variable db_fault : nat -> option string.
Hypothesis server_stateless : stateless server.
Hypothesis store_sound : forall n, db_fault n = None.

(** against a server that answers by URL alone, a call of the fetcher that
    waits once never returns *)
Lemma make_request_never_returns fuel url :
  waits (server 0%nat url) = true ->
  forall w a v, make_request server fuel url w <> (Ok a, v).
Proof.
  intros Hw. induction fuel as [ | fuel IH]; intros w a v; [discriminate | ].
  assert (Hw' : waits (server (requests w) url) = true) by now rewrite server_stateless.
  destruct (make_request_round server fuel url w Hw')
    as (w2 & m & d & _ & _ & [[-> _] | [-> _]]); [apply IH | discriminate].
Qed.

Lemma make_request_returns fuel url w a v :
  make_request server fuel url w = (Ok a, v) ->
  exists fuel',
    fuel = S fuel'
    /\ (status_code (server 0%nat url) = 200%Z /\ a = Some (server 0%nat url)
        \/ gives_up (server 0%nat url) = true /\ a = None).
Proof.
  destruct fuel as [ | fuel]; [discriminate | ]. intros H. exists fuel. split; [reflexivity | ].
  assert (Hr : server (requests w) url = server 0%nat url) by apply server_stateless.
  destruct (reply_cases (server 0%nat url)) as [H200 | [Hw | [Hg | [H403 Hbad]]]].
  - left. split; [exact H200 | ]. rewrite <- Hr in H200.
    rewrite (make_request_200 server fuel url w H200), Hr in H. now injection H as <- _.
  - now destruct (make_request_never_returns (S fuel) url Hw w a v).
  - right. split; [exact Hg | ]. rewrite <- Hr in Hg.
    rewrite (make_request_gives_up server fuel url w Hg) in H. now injection H as <- _.
  - rewrite <- Hr in H403, Hbad.
    rewrite (make_request_bad_header server fuel url w H403 Hbad) in H. discriminate.
Qed.

Lemma same_rows_make_request fuel url :
  same_rows eq (make_request server fuel url) (make_request server fuel url).
Proof.
  intros w1 w2 a v1 H.
  destruct (emits_make_request server fuel url w1) as (n1 & Ht1 & Hf1 & _).
  destruct (emits_make_request server fuel url w2) as (n2 & Ht2 & Hf2 & _).
  unfold after in Ht1, Ht2. rewrite H in Ht1. cbn [snd] in Ht1.
  assert (H2 : exists v2, make_request server fuel url w2 = (Ok a, v2)).
  { destruct (make_request_returns fuel url w1 a v1 H) as (fuel' & -> & [[H200 ->] | [Hg ->]]).
    - rewrite <- (server_stateless (requests w2)) in H200.
      rewrite (make_request_200 server fuel' url w2 H200), server_stateless. now eexists.
    - rewrite <- (server_stateless (requests w2)) in Hg.
      rewrite (make_request_gives_up server fuel' url w2 Hg). now eexists. }
  destruct H2 as (v2 & H2). rewrite H2 in Ht2. cbn [snd] in Ht2.
  exists a, v2, n1, n2. split; [exact H2 | ]. split; [reflexivity | ].
  split; [exact Ht1 | ]. split; [exact Ht2 | ].
  now rewrite (executed_of_fetch _ _ Hf1), (executed_of_fetch _ _ Hf2).
Qed.

#[local] Hint Resolve same_rows_make_request : same_rows.

Lemma same_rows_get_languages fuel name :
  same_rows eq (get_languages server fuel name) (get_languages server fuel name).
Proof. unfold get_languages. same_rows_steps. Qed.

Lemma same_rows_get_affected_files fuel pr_url :
  same_rows eq (get_affected_files server fuel pr_url) (get_affected_files server fuel pr_url).
Proof. unfold get_affected_files. same_rows_steps. Qed.

Lemma same_rows_get_merged_prs_loop fuel name per_page todo :
  forall prs total,
    same_rows eq (get_merged_prs_loop server fuel name per_page todo prs total)
              (get_merged_prs_loop server fuel name per_page todo prs total).
Proof.
  induction todo as [ | page todo IH]; intros prs total; cbn [get_merged_prs_loop];
    same_rows_steps.
Qed.

#[local] Hint Resolve same_rows_get_merged_prs_loop : same_rows.

Lemma same_rows_get_merged_prs fuel name per_page pages :
  same_rows eq (get_merged_prs server fuel name per_page pages)
            (get_merged_prs server fuel name per_page pages).
Proof. unfold get_merged_prs. same_rows_steps. Qed.

#[local] Hint Resolve same_rows_get_languages same_rows_get_affected_files
  same_rows_get_merged_prs : same_rows.

Lemma contained_insert r (a1 t1 : Z) :
  contained (rowcount <- cursor_execute db_fault r ;;
             if (rowcount >? 0)%Z then ret ((a1 + 1)%Z, (t1 + 1)%Z) else ret (a1, t1)).
Proof.
  intros w msg. unfold bind, cursor_execute. rewrite store_sound.
  destruct (insert_or_ignore r (table w)) as [rows c]. now destruct (c >? 0)%Z.
Qed.

Lemma same_rows_save_linked_issues name pr_url langs before after files urls :
  forall a1 t1 a2 t2,
    same_rows (fun _ _ => True)
      (save_linked_issues db_fault name pr_url langs before after files urls a1 t1)
      (save_linked_issues db_fault name pr_url langs before after files urls a2 t2).
Proof.
  induction urls as [ | u urls IH]; intros a1 t1 a2 t2; cbn [save_linked_issues].
  - now apply same_rows_ret.
  - eapply same_rows_bind with (E := fun _ _ => True).
    + apply same_rows_try_sqlite; [apply contained_insert | ].
      eapply same_rows_bind; [now apply same_rows_cursor_execute | intros c1 c2 _].
      destruct (c1 >? 0)%Z, (c2 >? 0)%Z; now apply same_rows_ret.
    + intros [b1 u1] [b2 u2] _. apply IH.
Qed.

(** the periodic commit and the pause that end the body of the loop *)
Lemma same_rows_commit_check (a1 a2 : Z) (name : string) :
  same_rows (fun _ _ => True)
    (if ((a1 >? 0) && (a1 mod 10 =? 0))%Z
     then conn_commit ;; print (Committed a1 name) else ret tt)
    (if ((a2 >? 0) && (a2 mod 10 =? 0))%Z
     then conn_commit ;; print (Committed a2 name) else ret tt).
Proof.
  intros w1 w2 a v1.
  destruct ((a1 >? 0) && (a1 mod 10 =? 0))%Z, ((a2 >? 0) && (a2 mod 10 =? 0))%Z;
    cbn [bind conn_commit print emit ret]; intros [= <- <-].
  - eexists tt, _, [Commit; Print (Committed a1 name)], [Commit; Print (Committed a2 name)].
    split; [reflexivity | ]. cbn [trace]. rewrite <- !app_assoc. now repeat split.
  - eexists tt, _, [Commit; Print (Committed a1 name)], [].
    split; [reflexivity | ]. cbn [trace]. rewrite <- !app_assoc, app_nil_r. now repeat split.
  - eexists tt, _, [], [Commit; Print (Committed a2 name)].
    split; [reflexivity | ]. cbn [trace]. rewrite <- !app_assoc, app_nil_r. now repeat split.
  - eexists tt, _, [], []. split; [reflexivity | ]. rewrite !app_nil_r. now repeat split.
Qed.

Lemma same_rows_process_pr_tail (a1 t1 a2 t2 : Z) (name : string) :
  same_rows (fun _ _ => True)
    ((if ((a1 >? 0) && (a1 mod 10 =? 0))%Z
      then conn_commit ;; print (Committed a1 name) else ret tt) ;;
     time_sleep (1 # 2) ;; ret (a1, t1))
    ((if ((a2 >? 0) && (a2 mod 10 =? 0))%Z
      then conn_commit ;; print (Committed a2 name) else ret tt) ;;
     time_sleep (1 # 2) ;; ret (a2, t2)).
Proof.
  eapply same_rows_bind; [apply same_rows_commit_check | intros _ _ _].
  eapply same_rows_bind; [apply same_rows_time_sleep | intros _ _ _].
  now apply same_rows_ret.
Qed.

Lemma same_rows_process_pr fuel name langs pr a1 t1 a2 t2 :
  same_rows (fun _ _ => True)
    (process_pr server db_fault fuel name langs pr a1 t1)
    (process_pr server db_fault fuel name langs pr a2 t2).
Proof.
  unfold process_pr.
  eapply same_rows_bind; [apply same_rows_lift | intros pr_url ? <-].
  eapply same_rows_bind; [apply same_rows_lift | intros issues ? <-].
  eapply same_rows_bind with (E := fun _ _ => True).
  - destruct issues as [ | i issues]; [now apply same_rows_ret | ].
    eapply same_rows_bind; [apply same_rows_lift | intros number ? <-].
    eapply same_rows_bind; [apply same_rows_print | intros ? ? _].
    eapply same_rows_bind; [apply same_rows_lift | intros base_sha ? <-].
    eapply same_rows_bind; [apply same_rows_lift | intros head_sha ? <-].
    eapply same_rows_bind; [apply same_rows_lift | intros before ? <-].
    eapply same_rows_bind; [apply same_rows_lift | intros after' ? <-].
    eapply same_rows_bind; [apply same_rows_get_affected_files | intros files ? <-].
    apply same_rows_save_linked_issues.
  - intros [b1 u1] [b2 u2] _. apply same_rows_process_pr_tail.
Qed.

Lemma same_rows_process_prs fuel name langs prs :
  forall a1 t1 a2 t2,
    same_rows (fun _ _ => True)
      (process_prs server db_fault fuel name langs prs a1 t1)
      (process_prs server db_fault fuel name langs prs a2 t2).
Proof.
  induction prs as [ | pr prs IH]; intros a1 t1 a2 t2; cbn [process_prs].
  - now apply same_rows_ret.
  - eapply same_rows_bind; [apply same_rows_process_pr | intros [b1 u1] [b2 u2] _].
    apply IH.
Qed.

Lemma same_rows_process_repo fuel repo t1 t2 :
  same_rows (fun _ _ => True)
    (process_repo server db_fault fuel repo t1) (process_repo server db_fault fuel repo t2).
Proof.
  unfold process_repo.
  eapply same_rows_bind; [apply same_rows_lift | intros name ? <-].
  eapply same_rows_bind; [apply same_rows_print | intros ? ? _].
  eapply same_rows_bind; [apply same_rows_get_languages | intros langs ? <-].
  eapply same_rows_bind; [apply same_rows_print | intros ? ? _].
  eapply same_rows_bind; [apply same_rows_get_merged_prs | intros prs ? <-].
  destruct prs as [ | pr prs].
  - eapply same_rows_bind; [apply same_rows_print | intros ? ? _]. now apply same_rows_ret.
  - eapply same_rows_bind; [apply same_rows_print | intros ? ? _].
    eapply same_rows_bind; [apply same_rows_process_prs | intros [b1 u1] [b2 u2] _].
    eapply same_rows_bind; [apply same_rows_conn_commit | intros ? ? _].
    eapply same_rows_bind; [apply same_rows_print | intros ? ? _]. now apply same_rows_ret.
Qed.

Lemma same_rows_process_repos fuel repos :
  forall t1 t2,
    same_rows (fun _ _ => True)
      (process_repos server db_fault fuel repos t1) (process_repos server db_fault fuel repos t2).
Proof.
  induction repos as [ | repo repos IH]; intros t1 t2; cbn [process_repos].
  - now apply same_rows_ret.
  - eapply same_rows_bind; [apply same_rows_process_repo | intros u1 u2 _]. apply IH.
Qed.

Lemma tracked_make_request fuel url : tracked (make_request server fuel url).
Proof. induction fuel as [ | fuel IH]; cbn [make_request]; tracked_steps. Qed.

#[local] Hint Resolve tracked_make_request : tracked.

Lemma tracked_get_merged_prs_loop fuel name per_page todo :
  forall prs total, tracked (get_merged_prs_loop server fuel name per_page todo prs total).
Proof.
  induction todo as [ | page todo IH]; intros prs total; cbn [get_merged_prs_loop];
    tracked_steps.
Qed.

Lemma tracked_save_linked_issues name pr_url langs before after files urls :
  forall added total,
    tracked (save_linked_issues db_fault name pr_url langs before after files urls added total).
Proof.
  pose proof (tracked_cursor_execute db_fault) as He.
  induction urls as [ | u urls IH]; intros added total; cbn [save_linked_issues];
    tracked_steps.
Qed.

#[local] Hint Resolve tracked_get_merged_prs_loop tracked_save_linked_issues : tracked.

Lemma tracked_process_prs fuel name langs prs :
  forall added total, tracked (process_prs server db_fault fuel name langs prs added total).
Proof.
  induction prs as [ | pr prs IH]; intros added total; cbn [process_prs];
    unfold process_pr, get_affected_files; tracked_steps.
Qed.

#[local] Hint Resolve tracked_process_prs : tracked.

Lemma tracked_process_repos fuel repos :
  forall total, tracked (process_repos server db_fault fuel repos total).
Proof.
  induction repos as [ | repo repos IH]; intros total; cbn [process_repos];
    unfold process_repo, get_languages, get_merged_prs; tracked_steps.
Qed.

Lemma replay_present events :
  forall t d,
    failures events = [] ->
    (forall r, In r (executed events) -> find_row (issue_url r) t <> None) ->
    fst (replay events (t, d)) = t
    /\ (snd (replay events (t, d)) = d \/ snd (replay events (t, d)) = t).
Proof.
  induction events as [ | e events IH]; intros t d Hf Hin; [cbn; auto | ].
  destruct e as [u r | x | m | r res | | names]; cbn [replay fst snd];
    try (apply IH; [exact Hf | exact Hin]).
  - destruct res as [ | | msg]; [ | | discriminate Hf].
    + assert (Hr : find_row (issue_url r) t <> None) by (apply Hin; now left).
      unfold insert_or_ignore. destruct (find_row (issue_url r) t); [ | now destruct Hr].
      apply IH; [exact Hf | intros r' Hr'; apply Hin; now right].
    + assert (Hr : find_row (issue_url r) t <> None) by (apply Hin; now left).
      unfold insert_or_ignore. destruct (find_row (issue_url r) t); [ | now destruct Hr].
      apply IH; [exact Hf | intros r' Hr'; apply Hin; now right].
  - destruct (IH t t Hf Hin) as [H1 H2]. split; [exact H1 | right; now destruct H2].
Qed.

Lemma insert_or_ignore_keeps r rows k :
  find_row k rows <> None -> find_row k (fst (insert_or_ignore r rows)) <> None.
Proof.
  intros H. destruct (insert_or_ignore_cases r rows) as [-> | ->]; [exact H | ].
  cbn [fst]. rewrite find_row_app. now destruct (find_row k rows).
Qed.

Lemma replay_mono events :
  forall s k, find_row k (fst s) <> None -> find_row k (fst (replay events s)) <> None.
Proof.
  induction events as [ | e events IH]; intros s k H; [exact H | ].
  cbn [replay]. apply IH.
  destruct e as [u r | x | m | r res | | names]; try exact H.
  destruct res; [now apply insert_or_ignore_keeps | now apply insert_or_ignore_keeps | exact H].
Qed.

Lemma replay_keeps events :
  forall s r,
    failures events = [] -> In r (executed events) ->
    find_row (issue_url r) (fst (replay events s)) <> None.
Proof.
  induction events as [ | e events IH]; intros s r Hf Hin; [now destruct Hin | ].
  destruct e as [u r0 | x | m | r0 res | | names]; cbn [replay];
    try (apply IH; [exact Hf | exact Hin]).
  destruct res as [ | | msg]; [ | | discriminate Hf].
  - destruct Hin as [<- | Hin]; [ | now apply IH].
    apply replay_mono. cbn [fst]. rewrite insert_or_ignore_present.
    now destruct (find_row (issue_url r0) (fst s)).
  - destruct Hin as [<- | Hin]; [ | now apply IH].
    apply replay_mono. cbn [fst]. rewrite insert_or_ignore_present.
    now destruct (find_row (issue_url r0) (fst s)).
Qed.

End Again.

(** X21.  Processing the same repositories again adds nothing: when the API
    answers a request by its URL alone and no INSERT fails, a call of
    [populate_db_from_prs] that follows one that returned, on the same
    repositories, returns 0 and leaves the committed table as it was. *)
Theorem processing_again_adds_nothing
        (server : nat -> string -> Response) (db_fault : nat -> option string)
        (fuel : nat) (repos : list json) (w w1 : World) (total : Z) :
  stateless server ->
  (forall n, db_fault n = None) ->
  populate_db_from_prs server db_fault fuel repos w = (Ok total, w1) ->
  exists w2,
    populate_db_from_prs server db_fault fuel repos w1 = (Ok 0%Z, w2)
    /\ durable w2 = durable w1.
Proof.
  intros Hs Hn H. unfold populate_db_from_prs in H. run_in H.
  apply bind_returns in H. destruct H as (t & wa & Hrun1 & H).
  run_in H. injection H as <- <-.
  set (wc := mkWorld (trace w) (now w) (requests w) (statements w)
                     (durable w) (durable w) (progress_json w)) in *.
  set (wd := mkWorld (trace wa) (now wa) (requests wa) (statements wa)
                     (durable wa) (durable wa) (progress_json wa)) in *.
  (* the first pass *)
  destruct (process_repos_counts server db_fault fuel repos 0%Z wc t wa Hrun1 eq_refl)
    as (Hclean & _).
  destruct (tracked_process_repos server db_fault Hn fuel repos 0%Z wc) as (new1 & Ht1 & Hs1 & Hf1).
  unfold after in Ht1, Hs1. rewrite Hrun1 in Ht1, Hs1. cbn [snd] in Ht1, Hs1.
  assert (Hkeys : forall r, In r (executed new1) ->
                            find_row (issue_url r) (durable wa) <> None).
  { intros r Hin. rewrite <- Hclean.
    change (table wa) with (fst (store wa)). rewrite Hs1.
    now apply replay_keeps. }
  (* the second pass *)
  destruct (same_rows_process_repos server db_fault Hs Hn fuel repos 0%Z 0%Z wc wd t wa Hrun1)
    as (t2 & wb & n1 & n2 & Hrun2 & _ & Hu1 & Hu2 & Hsame).
  rewrite Ht1 in Hu1. apply app_inv_head in Hu1. subst n1.
  destruct (tracked_process_repos server db_fault Hn fuel repos 0%Z wd) as (new2 & Ht2 & Hs2 & Hf2).
  unfold after in Ht2, Hs2. rewrite Hrun2 in Ht2, Hs2. cbn [snd] in Ht2, Hs2.
  rewrite Ht2 in Hu2. apply app_inv_head in Hu2. subst n2.
  destruct (replay_present new2 (durable wa) (durable wa) Hf2) as [Htab Hdur].
  { intros r Hin. apply Hkeys. now rewrite Hsame. }
  assert (Hd : durable wb = durable wa).
  { change (durable wb) with (snd (store wb)). rewrite Hs2.
    unfold store, wd. cbn [table durable]. now destruct Hdur. }
  assert (Hrun : populate_db_from_prs server db_fault fuel repos wd
                 = (Ok t2, mkWorld (trace wb) (now wb) (requests wb) (statements wb)
                                   (durable wb) (durable wb) (progress_json wb))).
  { unfold populate_db_from_prs. run.
    change (mkWorld (trace wa) (now wa) (requests wa) (statements wa)
                    (durable wa) (durable wa) (progress_json wa)) with wd.
    rewrite (bind_ok _ _ _ _ _ Hrun2). reflexivity. }
  destruct (populate_counts server db_fault fuel repos wd t2 _ Hrun) as (rows & Hrows & Hlen).
  cbn [durable] in Hrows. rewrite Hd in Hrows.
  rewrite <- (app_nil_r (durable wa)) in Hrows at 1. apply app_inv_head in Hrows.
  subst rows. cbn in Hlen. subst t2.
  eexists. split; [exact Hrun | ]. cbn [durable]. exact Hd.
Qed.

Lemma processing_again_adds_nothing_witness :
  stateless nine_then_two
  /\ (forall n, no_fault n = None)
  /\ exists w1 w2,
       populate_db_from_prs nine_then_two no_fault 1 [repo "o/r"] start = (Ok 11%Z, w1)
       /\ populate_db_from_prs nine_then_two no_fault 1 [repo "o/r"] w1 = (Ok 0%Z, w2)
       /\ durable w2 = durable w1.
Proof.
  assert (Hs : stateless nine_then_two) by (intros n url; reflexivity).
  assert (Hn : forall n, no_fault n = None) by (intros n; reflexivity).
  split; [exact Hs | ]. split; [exact Hn | ].
  set (run := populate_db_from_prs nine_then_two no_fault 1 [repo "o/r"] start).
  assert (E : run = (Ok 11%Z, snd run)) by (vm_compute; reflexivity).
  destruct (processing_again_adds_nothing nine_then_two no_fault 1 [repo "o/r"] start
              (snd run) 11%Z Hs Hn E) as (w2 & Hagain & Hd).
  exists (snd run), w2. split; [exact E | ]. split; [exact Hagain | exact Hd].
Defined.

(** ** The processed set only grows *)

Section Progress.

Variable server : nat -> string -> Response.
Variable db_fault : nat -> option string.

Lemma populate_keeps_progress fuel repos w :
  progress_json (after (populate_db_from_prs server db_fault fuel repos) w) = progress_json w.
Proof.
  set (R := fun a b : World => progress_json b = progress_json a).
  assert (Hr : reflexive R) by (intros a; reflexivity).
  assert (Ht : transitive R) by (intros a b c H1 H2; unfold R in *; congruence).
  assert (Hio : io_blind R) by (intros a tr nw rq; reflexivity).
  apply (respects_populate_db_from_prs server R Hr Ht Hio db_fault).
  - intros r a. unfold R, after, cursor_execute.
    destruct (db_fault (statements a)); [reflexivity | ].
    now destruct (insert_or_ignore r (table a)).
  - intros a. reflexivity.
  - intros a. reflexivity.
Qed.

Lemma get_mit_repos_keeps_progress fuel query per_page pages w :
  progress_json (after (get_mit_repos server fuel query per_page pages) w) = progress_json w.
Proof.
  destruct (respects_get_mit_repos server same_store same_store_refl same_store_trans
              same_store_io fuel query per_page pages w) as (_ & _ & _ & H).
  exact H.
Qed.

Lemma crawl_keeps_progress fuel candidates todo :
  forall processed total w,
    incl (loaded w) processed ->
    incl (loaded w)
         (loaded (after (crawl server db_fault fuel todo processed candidates total) w)).
Proof.
  induction todo as [ | repo todo IH]; intros processed total w Hincl; cbn [crawl].
  - apply incl_refl.
  - pose proof (populate_keeps_progress fuel [repo] w) as Hpop.
    unfold after in *. unfold bind at 1.
    destruct (populate_db_from_prs server db_fault fuel [repo] w) as [[count | e | | ] w1];
      cbn [snd] in *; try (unfold loaded; rewrite Hpop; apply incl_refl).
    destruct (obind (getitem repo "full_name") text) as [name | e | | ];
      try (cbn; unfold loaded; rewrite Hpop; apply incl_refl).
    run.
    match goal with
    | |- context [crawl _ _ _ _ ?p _ _ ?w0] =>
        specialize (IH p (total + count)%Z w0)
    end.
    unfold loaded at 1 in IH. cbn [progress_json] in IH.
    specialize (IH (incl_refl _)).
    intros x Hx. apply IH. apply in_or_app. left. now apply Hincl.
Qed.

Lemma resume_keeps_progress fuel repos w :
  incl (loaded w) (loaded (after (resume server db_fault fuel repos) w)).
Proof.
  unfold after. rewrite resume_unfold.
  destruct (not_processed repos (loaded w)) as [todo | e | | ]; try apply incl_refl.
  match goal with
  | |- context [crawl _ _ _ _ _ _ _ ?w0] =>
      pose proof (crawl_keeps_progress fuel (Z.of_nat (length repos)) todo (loaded w) 0%Z w0)
        as H
  end.
  apply H. apply incl_refl.
Qed.

End Progress.

(** X22.  A name once recorded stays recorded: every repository name that
    progress.json holds when the entry point (or the crawl of lines 281-297)
    starts is still in it afterwards, however the run ends. *)
Theorem progress_is_never_lost
        (server : nat -> string -> Response) (db_fault : nat -> option string)
        (fuel : nat) (repos : list json) (w : World) (name : string) :
  In name (loaded w) ->
  In name (loaded (after (resume server db_fault fuel repos) w))
  /\ In name (loaded (after (main server db_fault fuel) w)).
Proof.
  intros Hin. split; [now apply resume_keeps_progress | ].
  unfold main, create_db, after. run.
  pose proof (get_mit_repos_keeps_progress server fuel "stars:>10000" 100 1000) as Hget.
  match goal with
  | |- context [bind (get_mit_repos _ _ _ _ _) _ ?w0] =>
      specialize (Hget w0); unfold bind at 1; unfold after in Hget;
      destruct (get_mit_repos server fuel "stars:>10000" 100 1000 w0)
        as [[found | e | | ] w1]
  end;
    cbn [snd progress_json] in *;
    try (unfold loaded in *; now rewrite Hget).
  run. assert (Hw1 : In name (loaded w1)) by (unfold loaded in *; now rewrite Hget).
  destruct found as [ | repo found]; [run; exact Hw1 | ].
  match goal with
  | |- context [bind (resume _ _ _ _) _ ?w0] =>
      pose proof (resume_keeps_progress server db_fault fuel (repo :: found) w0 name) as Hres;
      unfold bind at 1; unfold after in Hres;
      destruct (resume server db_fault fuel (repo :: found) w0) as [[[names total] | e | | ] w2]
  end;
    cbn [snd] in *; apply Hres; exact Hw1.
Qed.

Lemma progress_is_never_lost_witness :
  In "a/a" (loaded resumed)
  /\ In "a/a" (loaded (after (resume one_pull no_fault 1 [repo "a/a"; repo "o/r"]) resumed)).
Proof.
  assert (H : In "a/a" (loaded resumed)) by (cbn; tauto).
  split; [exact H | ].
  exact (proj1 (progress_is_never_lost one_pull no_fault 1 [repo "a/a"; repo "o/r"]
                  resumed "a/a" H)).
Defined.

(** ** slim/slim.py: the address of the file list *)

Lemma replace_absent old new s : contains old s = false -> replace old new s = s.
Proof.
  unfold replace. induction s as [ | c s IH]; intros H; [reflexivity | ].
  cbn [contains] in H. cbn [replace_from].
  destruct (prefix old (String c s)); [discriminate H | ].
  now rewrite (IH H).
Qed.

Lemma slim_api_address rest :
  contains "github.com" rest = false ->
  Slim.replaced "github.com" "api.github.com/repos" (JStr ("https://github.com" ^^ rest))
  = Ok ("https://api.github.com/repos" ^^ rest).
Proof.
  intros H. unfold Slim.replaced.
  assert (E : replace "github.com" "api.github.com/repos" ("https://github.com" ^^ rest)
              = "https://api.github.com/repos"
                ^^ replace "github.com" "api.github.com/repos" rest)
    by (destruct rest; reflexivity).
  now rewrite E, (replace_absent _ _ rest H).
Qed.

(** X23.  Where [get_affected_files] of slim/slim.py asks for the files: for
    the page address [https://github.com<path>] of a pull request it asks
    at [https://api.github.com/repos<path>/files], the path unchanged (it
    still says [/pull/], where [get_code_before_after] writes [/pulls/]),
    and at no other address. *)
Theorem slim_files_address
        (server : nat -> string -> Response) (fuel : nat) (path : string) (w : World) :
  contains "github.com" path = false ->
  exists new,
    trace (after (Slim.get_affected_files server fuel (JStr ("https://github.com" ^^ path))) w)
    = trace w ++ new
    /\ Forall (fun url => url = "https://api.github.com/repos" ^^ path ^^ "/files")
              (urls_got new).
Proof.
  intros Hpath.
  assert (Hemits : emits (fetch_event ("https://api.github.com/repos" ^^ path ^^ "/files"))
                         (Slim.get_affected_files server fuel
                            (JStr ("https://github.com" ^^ path)))).
  { unfold Slim.get_affected_files.
    replace (negb (truthy (JStr ("https://github.com" ^^ path)))) with false by reflexivity.
    rewrite (slim_api_address path Hpath).
    apply emits_bind_lift. intros api_url [= <-].
    apply emits_bind;
      [exact (emits_make_request server fuel
                ("https://api.github.com/repos" ^^ path ^^ "/files"))
      | intros response].
    emits_steps. }
  destruct (Hemits w) as (new & Ht & Hall & _). exists new. split; [exact Ht | ].
  clear - Hall. induction Hall as [ | e new He Hall IH]; [constructor | ].
  destruct e; cbn; try exact IH. constructor; [exact He | exact IH].
Qed.

Lemma slim_files_address_witness :
  contains "github.com" "/o/r/pull/9" = false
  /\ exists new,
       trace (after (Slim.get_affected_files issue_driven 1
                       (JStr "https://github.com/o/r/pull/9")) start)
       = trace start ++ new
       /\ Forall (fun url => url = "https://api.github.com/repos/o/r/pull/9/files")
                 (urls_got new).
Proof.
  split; [reflexivity | ].
  exact (slim_files_address issue_driven 1 "/o/r/pull/9" start eq_refl).
Defined.

(** ** The languages of a row *)

Lemma emits_bind_post {A B} (P : Event -> Prop) (Q : A -> Prop) (m : M A) (k : A -> M B) :
  (forall w a w', m w = (Ok a, w') -> Q a) ->
  emits P m -> (forall a, Q a -> emits P (k a)) -> emits P (bind m k).
Proof.
  intros Hpost Hm Hk w. destruct (Hm w) as (new1 & Ht1 & HP1 & Hs1).
  specialize (Hpost w). unfold after, bind in *.
  destruct (m w) as [[a | e | | ] w1]; cbn [snd] in *;
    try (exists new1; now repeat split).
  destruct (Hk a (Hpost a w1 eq_refl) w1) as (new2 & Ht2 & HP2 & Hs2). unfold after in *.
  exists (new1 ++ new2). split; [now rewrite Ht2, Ht1, app_assoc | ].
  split; [now apply Forall_app | ]. now rewrite saved_app, Hs2, Hs1.
Qed.

Section RowLanguages.

Variable server : nat -> string -> Response.
Variable db_fault : nat -> option string.

Lemma get_languages_shape fuel name w langs w' :
  get_languages server fuel name w = (Ok langs, w') -> json_list_of_strings langs.
Proof.
  unfold get_languages. intros H.
  apply bind_returns in H. destruct H as ([r | ] & w1 & _ & H).
  - apply bind_returns in H. destruct H as (data & w2 & _ & H).
    apply bind_lift_returns in H. destruct H as (names & Hkeys & H).
    injection H as <- _. destruct data; try discriminate Hkeys.
    injection Hkeys as <-. exists (map fst fields).
    rewrite (map_map fst JStr). reflexivity.
  - injection H as <- _. now exists [].
Qed.

Lemma emits_process_repo_languages fuel repo total :
  emits carries_languages (process_repo server db_fault fuel repo total).
Proof.
  unfold process_repo. apply emits_bind_lift. intros name _.
  apply emits_bind; [now apply emits_print | intros _].
  apply (emits_bind_post _ json_list_of_strings).
  - intros w langs w'. apply get_languages_shape.
  - apply emits_weaken with (fetch_event (languages_url name));
      [apply emits_get_languages | ].
    intros e He. destruct e; cbn in *; (exact I || contradiction).
  - intros langs Hshape.
    apply emits_weaken with (pr_phase_event name langs);
      [apply emits_after_languages | ].
    intros e He. destruct e as [u r | d | m | row res | | names]; try exact I.
    cbn in *. destruct He as [_ ->]. exact Hshape.
Qed.

Lemma emits_process_repos_languages fuel repos :
  forall total, emits carries_languages (process_repos server db_fault fuel repos total).
Proof.
  induction repos as [ | repo repos IH]; intros total; cbn [process_repos].
  - apply emits_ret.
  - apply emits_bind; [apply emits_process_repo_languages | intros t; apply IH].
Qed.

End RowLanguages.

(** X24.  The languages of a row are always a list: every row that
    [populate_db_from_prs] hands to the store has, for its [languages], the
    JSON text of a list of strings (the empty list when the lookup was
    refused), whatever the API answers. *)
Theorem stored_languages_are_json_lists
        (server : nat -> string -> Response) (db_fault : nat -> option string)
        (fuel : nat) (repos : list json) (w : World) :
  exists new,
    trace (after (populate_db_from_prs server db_fault fuel repos) w) = trace w ++ new
    /\ Forall (fun row => json_list_of_strings (languages row)) (executed new).
Proof.
  assert (H : emits carries_languages (populate_db_from_prs server db_fault fuel repos)).
  { unfold populate_db_from_prs, conn_close.
    apply emits_bind; [apply emits_sqlite_connect | intros _].
    apply emits_bind; [apply emits_process_repos_languages | intros total].
    apply emits_bind; [apply emits_sqlite_connect | intros _]. apply emits_ret. }
  destruct (H w) as (new & Ht & Hall & _). exists new. split; [exact Ht | ].
  clear - Hall. induction Hall as [ | e new He Hall IH]; [constructor | ].
  rewrite executed_cons. apply Forall_app. split; [ | exact IH].
  destruct e as [u r | d | m | row res | | names]; try constructor; [exact He | constructor].
Qed.
